(** * Mac Agent Gateway: contact cache, PII filter and message search

    A shallow embedding of [mag/services/contacts.py], [mag/services/pii.py]
    and the search and link part of [mag/services/imsg.py], with the
    properties of the adapter core stated and proved over it.

    Text.  A Python [str] is a list of code points ([N]).  Whitespace
    ([str.strip], [\s]) and line boundaries ([str.splitlines]) are modelled
    in full.  The classes Python reads from the Unicode database
    ([str.isdigit], [str.lower], [\d], [\w], case-insensitive matching) are
    modelled on the ASCII range: outside it a code point is its own lower
    case and is neither a digit nor a word character.

    Environment.  [uuid4()], [datetime.now()] and the external [imsg] binary
    are inputs of the operations that use them. *)

From Stdlib Require Import ZArith NArith String Ascii Lia.
From Stdlib Require DecimalString.
From stdpp Require Import gmap list.

Local Open Scope N_scope.

(** ** Python text *)

Abbreviation str := (list N).

Definition py (s : string) : str :=
  List.map N_of_ascii (list_ascii_of_string s).

Definition is_upper (c : N) : bool := (65 <=? c) && (c <=? 90).
Definition is_lower (c : N) : bool := (97 <=? c) && (c <=? 122).
Definition is_alpha (c : N) : bool := is_upper c || is_lower c.

(** [c.isdigit()] *)
Definition isdigit (c : N) : bool := (48 <=? c) && (c <=? 57).

(** [c.isspace()]: the code points CPython treats as whitespace. *)
Definition isspace (c : N) : bool :=
  ((9 <=? c) && (c <=? 13)) || ((28 <=? c) && (c <=? 32))
  || (c =? 133) || (c =? 160) || (c =? 5760)
  || ((8192 <=? c) && (c <=? 8202))
  || (c =? 8232) || (c =? 8233) || (c =? 8239) || (c =? 8287) || (c =? 12288).

Definition lower_char (c : N) : N := if is_upper c then c + 32 else c.

(** [s.lower()] *)
Definition lower (s : str) : str := List.map lower_char s.

Fixpoint lstrip (s : str) : str :=
  match s with
  | c :: s' => if isspace c then lstrip s' else s
  | [] => []
  end.

Definition rstrip (s : str) : str := rev (lstrip (rev s)).

(** [s.strip()] *)
Definition strip (s : str) : str := rstrip (lstrip s).

(** [s.startswith(p)] *)
Fixpoint startswith (s p : str) : bool :=
  match p, s with
  | [], _ => true
  | a :: p', b :: s' => (a =? b) && startswith s' p'
  | _ :: _, [] => false
  end.

(** [s.find(sub)], with [None] for Python's [-1]. *)
Fixpoint find (s sub : str) : option nat :=
  if startswith s sub then Some 0%nat
  else match s with
       | [] => None
       | _ :: s' => S <$> find s' sub
       end.

(** [sub in s] *)
Definition contains (s sub : str) : bool := bool_decide (is_Some (find s sub)).

(** The truth value of an optional string: [None] and [""] are false. *)
Definition truthy (o : option str) : bool :=
  match o with
  | Some (_ :: _) => true
  | _ => false
  end.

(** [s[a:b]] for [0 <= a]. *)
Definition slice (s : str) (a b : nat) : str := take (b - a) (drop a s).

(** ** Insertion-ordered dictionaries

    [_contacts] is iterated ([values()]) and Python keeps a dict in insertion
    order, so it is an association list with at most one entry per key. *)

Section Dict.
Context {V : Type}.

Fixpoint dict_get (k : str) (d : list (str * V)) : option V :=
  match d with
  | [] => None
  | (k', v) :: d' => if decide (k = k') then Some v else dict_get k d'
  end.

(** [d[k] = v]: an existing key keeps its place, a new one goes last. *)
Fixpoint dict_set (k : str) (v : V) (d : list (str * V)) : list (str * V) :=
  match d with
  | [] => [(k, v)]
  | (k', v') :: d' =>
      if decide (k = k') then (k, v) :: d' else (k', v') :: dict_set k v d'
  end.

(** [d.pop(k, None)], the dictionary left behind. *)
Fixpoint dict_del (k : str) (d : list (str * V)) : list (str * V) :=
  match d with
  | [] => []
  | (k', v') :: d' =>
      if decide (k = k') then d' else (k', v') :: dict_del k d'
  end.

Definition dict_values (d : list (str * V)) : list V := d.*2.
Definition dict_keys (d : list (str * V)) : list str := d.*1.

End Dict.

(** ** Contacts ([mag/models/messages.py], [mag/services/contacts.py]) *)

Module Contacts.

Record Contact := mkContact {
  id : str;
  name : option str;
  phones : list str;
  emails : list str;
  aliases : list str;
  updated_at : Z;
  created_at : Z
}.

Record ContactUpsert := mkContactUpsert {
  up_name : option str;
  up_phones : list str;
  up_emails : list str;
  up_aliases : list str
}.

Inductive Status := ok | ambiguous | not_found.

Record ContactResolveResult := mkResult {
  status : Status;
  contact : option Contact;
  candidates : list Contact
}.

Record ContactCache := mkCache {
  _contacts : list (str * Contact);
  _phone_index : gmap str str;
  _email_index : gmap str str
}.

(** [ContactCache.__init__] with no file to load. *)
Definition empty_cache : ContactCache := mkCache [] ∅ ∅.

(** [_normalize_phone] *)
Definition _normalize_phone (phone : str) : str :=
  let phone := strip phone in
  match phone with
  | 43 :: rest => 43 :: List.filter isdigit rest
  | _ => List.filter isdigit phone
  end.

(** [_index_contact] and [_unindex_contact], one index at a time. *)
Definition index_keys (keys : list str) (cid : str) (idx : gmap str str)
  : gmap str str :=
  fold_left (fun m k => <[k := cid]> m) keys idx.

Definition unindex_keys (keys : list str) (idx : gmap str str)
  : gmap str str :=
  fold_left (fun m k => delete k m) keys idx.

Definition phone_keys (c : Contact) : list str :=
  List.map _normalize_phone (phones c).
Definition email_keys (c : Contact) : list str :=
  List.map lower (emails c).

Definition _index_contact (c : Contact) (st : ContactCache) : ContactCache :=
  mkCache (_contacts st)
          (index_keys (phone_keys c) (id c) (_phone_index st))
          (index_keys (email_keys c) (id c) (_email_index st)).

Definition _unindex_contact (c : Contact) (st : ContactCache) : ContactCache :=
  mkCache (_contacts st)
          (unindex_keys (phone_keys c) (_phone_index st))
          (unindex_keys (email_keys c) (_email_index st)).

(** The two lookup loops of [upsert]: the first key of the request found in
    the index decides, and the loop stops there. *)
Fixpoint first_indexed (idx : gmap str str) (keys : list str) : option str :=
  match keys with
  | [] => None
  | k :: keys' =>
      match idx !! k with
      | Some cid => Some cid
      | None => first_indexed idx keys'
      end
  end.

Definition existing_id_of (data : ContactUpsert) (st : ContactCache)
  : option str :=
  let by_phone :=
    first_indexed (_phone_index st) (List.map _normalize_phone (up_phones data)) in
  if truthy by_phone then by_phone
  else match first_indexed (_email_index st) (List.map lower (up_emails data)) with
       | Some cid => Some cid
       | None => by_phone
       end.

(** [x or y] on optional names. *)
Definition name_or (new old : option str) : option str :=
  if truthy new then new else old.

(** [list(set(old + new))]: Python fixes no order for it; the first
    occurrences are kept here, and no statement below depends on the order. *)
Definition set_union (old new : list str) : list str :=
  remove_dups (old ++ new).

(** [upsert].  [uuid] is the identifier [uuid4()] hands out and [now] the
    clock reading; the result is the contact returned and the cache left. *)
Definition upsert (data : ContactUpsert) (uuid : str) (now : Z)
    (st : ContactCache) : Contact * ContactCache :=
  let existing := existing_id_of data st in
  let found :=
    match existing with
    | Some cid => if truthy existing then
                    match dict_get cid (_contacts st) with
                    | Some c => Some (cid, c)
                    | None => None
                    end
                  else None
    | None => None
    end in
  match found with
  | Some (cid, c) =>
      let st1 := _unindex_contact c st in
      let c' := mkContact (id c)
                          (name_or (up_name data) (name c))
                          (set_union (phones c) (up_phones data))
                          (set_union (emails c) (up_emails data))
                          (set_union (aliases c) (up_aliases data))
                          now
                          (created_at c) in
      let st2 := mkCache (dict_set cid c' (_contacts st1))
                         (_phone_index st1) (_email_index st1) in
      (c', _index_contact c' st2)
  | None =>
      let c' := mkContact uuid (up_name data) (up_phones data)
                          (up_emails data) (up_aliases data) now now in
      let st1 := mkCache (dict_set (id c') c' (_contacts st))
                         (_phone_index st) (_email_index st) in
      (c', _index_contact c' st1)
  end.

(** [get] *)
Definition get (contact_id : str) (st : ContactCache) : option Contact :=
  dict_get contact_id (_contacts st).

(** [delete] *)
Definition delete (contact_id : str) (st : ContactCache)
  : bool * ContactCache :=
  match dict_get contact_id (_contacts st) with
  | Some c =>
      (true,
       _unindex_contact c
         (mkCache (dict_del contact_id (_contacts st))
                  (_phone_index st) (_email_index st)))
  | None => (false, st)
  end.

(** [clear] *)
Definition clear (st : ContactCache) : unit * ContactCache :=
  (tt, mkCache [] ∅ ∅).

(** The name test of the exact pass and the name-or-alias test of the
    substring pass of [resolve]. *)
Definition exact_name (name_lower : str) (c : Contact) : bool :=
  match name c with
  | Some n => truthy (Some n) && bool_decide (lower n = name_lower)
  | None => false
  end.

Definition substring_name (name_lower : str) (c : Contact) : bool :=
  (match name c with
   | Some n => truthy (Some n) && contains (lower n) name_lower
   | None => false
   end)
  || existsb (fun alias => contains (lower alias) name_lower) (aliases c).

Definition index_hit (idx : gmap str str) (key : str) (st : ContactCache)
  : option Contact :=
  match idx !! key with
  | Some cid => if truthy (Some cid) then dict_get cid (_contacts st) else None
  | None => None
  end.

Definition of_matches (l : list Contact) : option ContactResolveResult :=
  match l with
  | [c] => Some (mkResult ok (Some c) [])
  | _ :: _ :: _ => Some (mkResult ambiguous None l)
  | [] => None
  end.

(** [resolve].  It reads the cache and returns it as it found it. *)
Definition resolve (phone email name : option str) (st : ContactCache)
  : ContactResolveResult * ContactCache :=
  let by_phone :=
    match phone with
    | Some p => if truthy phone
                then index_hit (_phone_index st) (_normalize_phone p) st
                else None
    | None => None
    end in
  let by_email :=
    match email with
    | Some e => if truthy email
                then index_hit (_email_index st) (lower e) st
                else None
    | None => None
    end in
  let by_name :=
    match name with
    | Some n =>
        if truthy name then
          let name_lower := lower n in
          let values := dict_values (_contacts st) in
          match of_matches (List.filter (exact_name name_lower) values) with
          | Some r => Some r
          | None => of_matches (List.filter (substring_name name_lower) values)
          end
        else None
    | None => None
    end in
  let result :=
    match by_phone with
    | Some c => mkResult ok (Some c) []
    | None =>
        match by_email with
        | Some c => mkResult ok (Some c) []
        | None =>
            match by_name with
            | Some r => r
            | None => mkResult not_found None []
            end
        end
    end in
  (result, st).

(** The four tests of [search] on one contact: the name, the aliases and
    the emails against the lowercased query, the phones against the query
    as it is. *)
Definition search_hit (query : str) (c : Contact) : bool :=
  let query_lower := lower query in
  if match name c with
     | Some n => truthy (Some n) && contains (lower n) query_lower
     | None => false
     end
  then true
  else if existsb (fun alias => contains (lower alias) query_lower) (aliases c)
  then true
  else if existsb (fun phone => contains phone query) (phones c)
  then true
  else existsb (fun email => contains (lower email) query_lower) (emails c).

(** The loop of [search] over the contacts left, with the results so far. *)
Fixpoint search_loop (query : str) (limit : Z) (values results : list Contact)
  : list Contact :=
  match values with
  | [] => results
  | c :: values' =>
      if (limit <=? Z.of_nat (length results))%Z then results
      else if search_hit query c
           then search_loop query limit values' (results ++ [c])
           else search_loop query limit values' results
  end.

(** [search] *)
Definition search (query : str) (limit : Z) (st : ContactCache)
  : list Contact :=
  search_loop query limit (dict_values (_contacts st)) [].

(** [list_all] *)
Definition list_all (st : ContactCache) : list Contact :=
  dict_values (_contacts st).

(** The loop of [_load] over the contacts read from the file: each is
    stored under its identifier and indexed. *)
Definition _load (data : list Contact) (st : ContactCache) : ContactCache :=
  fold_left
    (fun st contact =>
       _index_contact contact
         (mkCache (dict_set (id contact) contact (_contacts st))
                  (_phone_index st) (_email_index st)))
    data st.

(** What [_save] writes, and [_load] reads back, for one contact: the
    contact, to be stored under its identifier. *)
Definition entry_of (c : Contact) : str * Contact := (id c, c).

(** *** States of a running cache

    The cache states met at run time: the empty cache, and whatever [upsert],
    [delete] and [clear] make of a state already met.  [uuid4()] yields a
    non-empty identifier that no stored contact carries. *)
Inductive reachable : ContactCache -> Prop :=
| reach_empty : reachable empty_cache
| reach_upsert st data uuid now :
    reachable st -> uuid <> [] -> dict_get uuid (_contacts st) = None ->
    reachable (upsert data uuid now st).2
| reach_delete st contact_id :
    reachable st -> reachable (delete contact_id st).2
| reach_clear st :
    reachable st -> reachable (clear st).2.

(** Every entry of an index names a stored contact. *)
Definition index_points_to_contacts (idx : gmap str str) (st : ContactCache)
  : Prop :=
  forall k cid, idx !! k = Some cid -> is_Some (dict_get cid (_contacts st)).

(** Every key of every stored contact is in the index, under that contact's
    identifier. *)
Definition contacts_indexed (keys : Contact -> list str) (idx : gmap str str)
    (st : ContactCache) : Prop :=
  forall cid c, dict_get cid (_contacts st) = Some c ->
    forall k, k ∈ keys c -> idx !! k = Some (id c).

(** The index consistency the data model asks for, both directions and both
    indices. *)
Definition index_consistent (st : ContactCache) : Prop :=
  index_points_to_contacts (_phone_index st) st
  /\ index_points_to_contacts (_email_index st) st
  /\ contacts_indexed phone_keys (_phone_index st) st
  /\ contacts_indexed email_keys (_email_index st) st.

(** Every entry of an index names a stored contact that has the key. *)
Definition index_sound (keys : Contact -> list str) (idx : gmap str str)
    (st : ContactCache) : Prop :=
  forall k cid, idx !! k = Some cid ->
    exists c, dict_get cid (_contacts st) = Some c /\ k ∈ keys c.

(** All keys of one contact are in the index under its identifier. *)
Definition indexed_as (keys : Contact -> list str) (idx : gmap str str)
    (c : Contact) : Prop :=
  forall k, k ∈ keys c -> idx !! k = Some (id c).

(** The contacts whose name is the query up to case, and those whose name or
    one of whose aliases has the query as a substring up to case. *)
Definition name_is (query : str) (c : Contact) : Prop :=
  exists n, name c = Some n /\ lower n = lower query.

Definition name_or_alias_has (query : str) (c : Contact) : Prop :=
  (exists n, name c = Some n /\ is_Some (find (lower n) (lower query)))
  \/ (exists a, a ∈ aliases c /\ is_Some (find (lower a) (lower query))).

(** [k] is the first key of [keys] that the index knows, and it is indexed
    to [cid]. *)
Definition first_hit (idx : gmap str str) (keys : list str) (cid : str)
  : Prop :=
  exists l1 k l2, keys = l1 ++ k :: l2
    /\ (forall q, q ∈ l1 -> idx !! q = None) /\ idx !! k = Some cid.

(** The contact an upsert request matches: by its first indexed phone, or,
    when none of its phones is indexed, by its first indexed email. *)
Definition matches (data : ContactUpsert) (st : ContactCache) (cid : str)
  : Prop :=
  first_hit (_phone_index st) (List.map _normalize_phone (up_phones data)) cid
  \/ ((forall k, k ∈ List.map _normalize_phone (up_phones data) ->
         _phone_index st !! k = None)
      /\ first_hit (_email_index st) (List.map lower (up_emails data)) cid).

(** The contact an update leaves and the contact a creation makes. *)
Definition merged (data : ContactUpsert) (now : Z) (c : Contact) : Contact :=
  mkContact (id c) (name_or (up_name data) (name c))
            (set_union (phones c) (up_phones data))
            (set_union (emails c) (up_emails data))
            (set_union (aliases c) (up_aliases data))
            now (created_at c).

Definition created (data : ContactUpsert) (uuid : str) (now : Z) : Contact :=
  mkContact uuid (up_name data) (up_phones data) (up_emails data)
            (up_aliases data) now now.

(** *** Well-formed caches *)

Record wf (st : ContactCache) : Prop := mk_wf {
  wf_nodup : NoDup (dict_keys (_contacts st));
  wf_ids : forall cid c,
    dict_get cid (_contacts st) = Some c -> id c = cid /\ cid <> [];
  wf_phone : index_sound phone_keys (_phone_index st) st;
  wf_email : index_sound email_keys (_email_index st) st
}.

(** *** Sample caches *)

Definition three_upserts : ContactCache :=
  let st1 := (upsert (mkContactUpsert (Some (py "Ann")) [py "111"] [] [])
                     (py "id-a") 1 empty_cache).2 in
  let st2 := (upsert (mkContactUpsert (Some (py "Bob")) [py "222"] [] [])
                     (py "id-b") 2 st1).2 in
  (upsert (mkContactUpsert None [py "222"; py "111"] [] []) (py "id-c") 3 st2).2.

Definition john_doe_cache : ContactCache :=
  (upsert (mkContactUpsert (Some (py "John Doe")) [py "+15551234567"] [] [])
          (py "id-1") 1 empty_cache).2.

Definition two_johns_cache : ContactCache :=
  (upsert (mkContactUpsert (Some (py "John Smith")) [py "+15559999999"] [] [])
          (py "id-2") 2 john_doe_cache).2.

#[global] Instance name_is_dec query c : Decision (name_is query c).
Proof.
  unfold name_is. destruct (name c) as [n|].
  - destruct (decide (lower n = lower query)) as [He|Hne].
    + left. eauto.
    + right. intros (m & [= <-] & Hm). done.
  - right. intros (m & Hm & _). done.
Defined.

#[global] Instance name_or_alias_has_dec query c :
  Decision (name_or_alias_has query c).
Proof.
  unfold name_or_alias_has. apply or_dec.
  - destruct (name c) as [n|].
    + destruct (decide (is_Some (find (lower n) (lower query)))) as [He|Hne].
      * left. eauto.
      * right. intros (m & [= <-] & Hm). done.
    + right. intros (m & Hm & _). done.
  - apply list_exist_dec. intros a. apply _.
Defined.

End Contacts.

(** ** Regular expressions ([re])

    The part of Python's [re] the sources use.  A pattern is matched by
    backtracking: [ends] lists, in the order the backtracking search tries
    them, the positions at which a match of the pattern that starts at a
    given position can end, so that the match [re] reports is the first of
    them.  A position carries the character before it (for [\b] and [^]),
    the text after it, and the groups captured so far. *)

Module Re.

Inductive atom :=
| Ch (c : N)             (* a character listed in a set *)
| Rng (lo hi : N)        (* [lo-hi] *)
| Digit                  (* \d *)
| Space                  (* \s *)
| Word.                  (* \w *)

Inductive re :=
| Eps
| Lit (c : N)                           (* a literal character *)
| Set_ (neg : bool) (l : list atom)     (* [...] and [^...]; \d, \s, \S, \w *)
| Dot                                   (* . *)
| Cat (r1 r2 : re)
| Alt (r1 r2 : re)                      (* r1|r2 *)
| Rep (r : re) (lo : nat) (hi : option nat)   (* greedy r{lo,hi}, r*, r+, r? *)
| Bnd                                   (* \b *)
| Bol                                   (* ^ *)
| Eol                                   (* $ *)
| Grp (i : nat) (r : re).               (* the i-th capturing group *)

Record pos := mkPos {
  before : option N;
  after : str;
  groups : list (nat * str)
}.

(** [\w] *)
Definition is_word (c : N) : bool := is_alpha c || isdigit c || (c =? 95).

Definition upper_char (c : N) : N := if is_lower c then c - 32 else c.

Definition atom_mem (c : N) (a : atom) : bool :=
  match a with
  | Ch x => c =? x
  | Rng lo hi => (lo <=? c) && (c <=? hi)
  | Digit => isdigit c
  | Space => isspace c
  | Word => is_word c
  end.

(** Membership in a set; under [IGNORECASE] a character is in the set when
    one of its two cases is. *)
Definition in_set (ic : bool) (l : list atom) (c : N) : bool :=
  existsb (atom_mem c) l
  || (ic && (existsb (atom_mem (lower_char c)) l
             || existsb (atom_mem (upper_char c)) l)).

Definition lit_eq (ic : bool) (c x : N) : bool :=
  if ic then lower_char c =? lower_char x else c =? x.

Definition word_before (p : pos) : bool :=
  match before p with Some c => is_word c | None => false end.
Definition word_after (p : pos) : bool :=
  match after p with c :: _ => is_word c | [] => false end.

(** One character, when it passes the test. *)
Definition eat (test : N -> bool) (p : pos) : list pos :=
  match after p with
  | c :: s' => if test c then [mkPos (Some c) s' (groups p)] else []
  | [] => []
  end.

(** Greedy repetition: [lo] rounds that must be made, then up to [extra]
    more, the longer runs tried first. *)
Fixpoint rep_upto (step : pos -> list pos) (extra : nat) (p : pos) : list pos :=
  match extra with
  | S e => (q ← step p; rep_upto step e q) ++ [p]
  | O => [p]
  end.

Fixpoint rep (step : pos -> list pos) (lo extra : nat) (p : pos) : list pos :=
  match lo with
  | S lo' => q ← step p; rep step lo' extra q
  | O => rep_upto step extra p
  end.

Fixpoint ends (ic : bool) (r : re) (p : pos) : list pos :=
  match r with
  | Eps => [p]
  | Lit c => eat (lit_eq ic c) p
  | Set_ neg l => eat (fun c => xorb neg (in_set ic l c)) p
  | Dot => eat (fun c => negb (c =? 10)) p
  | Cat r1 r2 => q ← ends ic r1 p; ends ic r2 q
  | Alt r1 r2 => ends ic r1 p ++ ends ic r2 p
  | Rep r lo hi =>
      rep (ends ic r) lo
          (match hi with Some h => h - lo | None => length (after p) end)%nat p
  | Bnd => if xorb (word_before p) (word_after p) then [p] else []
  | Bol => match before p with None => [p] | Some _ => [] end
  | Eol => match after p with [] | [10] => [p] | _ => [] end
  | Grp i r =>
      (fun q => mkPos (before q) (after q)
                  ((i, take (length (after p) - length (after q)) (after p))
                     :: groups q))
        <$> ends ic r p
  end.

(** *** What a pattern matches

    [Mt ic r prev w rest]: the expression [r] matches the word [w] when the
    character before it is [prev] and the text after it is [rest].  This is
    the set of matches the backtracking search chooses from. *)

(** The character before the position reached after [w]. *)
Definition lastp (prev : option N) (w : str) : option N :=
  match last w with
  | Some c => Some c
  | None => prev
  end.

Definition wordo (o : option N) : bool :=
  match o with Some c => is_word c | None => false end.
Definition word_hd (s : str) : bool := wordo (head s).

Fixpoint iter (step : option N -> str -> str -> Prop) (k : nat)
    (prev : option N) (w rest : str) : Prop :=
  match k with
  | O => w = []
  | S k' =>
      exists w1 w2, w = w1 ++ w2 /\ step prev w1 (w2 ++ rest)
                    /\ iter step k' (lastp prev w1) w2 rest
  end.

Fixpoint Mt (ic : bool) (r : re) (prev : option N) (w rest : str) : Prop :=
  match r with
  | Eps => w = []
  | Lit c => exists x, w = [x] /\ lit_eq ic c x = true
  | Set_ neg l => exists x, w = [x] /\ xorb neg (in_set ic l x) = true
  | Dot => exists x, w = [x] /\ negb (x =? 10) = true
  | Cat r1 r2 =>
      exists w1 w2, w = w1 ++ w2 /\ Mt ic r1 prev w1 (w2 ++ rest)
                    /\ Mt ic r2 (lastp prev w1) w2 rest
  | Alt r1 r2 => Mt ic r1 prev w rest \/ Mt ic r2 prev w rest
  | Rep r lo hi =>
      exists k, (lo <= k)%nat
                /\ (forall h, hi = Some h -> (k <= lo + (h - lo))%nat)
                /\ iter (Mt ic r) k prev w rest
  | Bnd => w = [] /\ xorb (wordo prev) (word_hd rest) = true
  | Bol => w = [] /\ prev = None
  | Eol => w = [] /\ (rest = [] \/ rest = [10])
  | Grp _ r => Mt ic r prev w rest
  end.

(** The least number of characters a match takes. *)
Fixpoint min_len (r : re) : nat :=
  match r with
  | Eps | Bnd | Bol | Eol => 0
  | Lit _ | Set_ _ _ | Dot => 1
  | Cat r1 r2 => min_len r1 + min_len r2
  | Alt r1 r2 => min_len r1 `min` min_len r2
  | Rep r lo _ => lo * min_len r
  | Grp _ r => min_len r
  end.

(** Every repeated expression takes at least one character a round. *)
Fixpoint productive (r : re) : bool :=
  match r with
  | Cat r1 r2 | Alt r1 r2 => productive r1 && productive r2
  | Rep r _ _ => productive r && (1 <=? min_len r)%nat
  | Grp _ r => productive r
  | _ => true
  end.

(** No [^] and no [$]: the context matters through [\b] only. *)
Fixpoint unanchored (r : re) : bool :=
  match r with
  | Cat r1 r2 | Alt r1 r2 => unanchored r1 && unanchored r2
  | Rep r _ _ | Grp _ r => unanchored r
  | Bol | Eol => false
  | _ => true
  end.

(** The character tests of an expression. *)
Inductive test :=
| TLit (c : N)
| TSet (neg : bool) (l : list atom)
| TDot.

Definition test_ok (ic : bool) (t : test) (x : N) : bool :=
  match t with
  | TLit c => lit_eq ic c x
  | TSet neg l => xorb neg (in_set ic l x)
  | TDot => negb (x =? 10)
  end.

Fixpoint tests (r : re) : list test :=
  match r with
  | Lit c => [TLit c]
  | Set_ neg l => [TSet neg l]
  | Dot => [TDot]
  | Cat r1 r2 | Alt r1 r2 => tests r1 ++ tests r2
  | Rep r _ _ | Grp _ r => tests r
  | _ => []
  end.

(** The tests the first character of a match may have to pass. *)
Fixpoint firsts (r : re) : list test :=
  match r with
  | Lit c => [TLit c]
  | Set_ neg l => [TSet neg l]
  | Dot => [TDot]
  | Cat r1 r2 =>
      if (1 <=? min_len r1)%nat then firsts r1 else firsts r1 ++ firsts r2
  | Alt r1 r2 => firsts r1 ++ firsts r2
  | Rep r _ _ | Grp _ r => firsts r
  | _ => []
  end.

(** No test of the expression lets the character [x] pass. *)
Definition never_eats (ic : bool) (r : re) (x : N) : bool :=
  forallb (fun t => negb (test_ok ic t x)) (tests r).

(** A test that only word characters pass. *)
Definition atom_word (a : atom) : bool :=
  match a with
  | Ch c => is_word c
  | Rng lo hi =>
      ((48 <=? lo) && (hi <=? 57)) || ((65 <=? lo) && (hi <=? 90))
      || ((97 <=? lo) && (hi <=? 122))
  | Digit | Word => true
  | Space => false
  end.

Definition test_word (t : test) : bool :=
  match t with
  | TLit c => is_alpha c || isdigit c || (c =? 95)
  | TSet false l => forallb atom_word l
  | _ => false
  end.

(** The expression opens with [\b] and goes on with a word character. *)
Definition opens_word (r : re) : bool :=
  match r with
  | Cat Bnd r' => (1 <=? min_len r')%nat && forallb test_word (firsts r')
  | _ => false
  end.

(** The expression closes with [\b]. *)
Fixpoint closes_bnd (r : re) : bool :=
  match r with
  | Bnd => true
  | Cat _ r2 => closes_bnd r2
  | _ => false
  end.

(** What links the position a match starts at, the position it ends at and
    its word. *)
Definition spans (p q : pos) (w : str) : Prop :=
  after p = w ++ after q /\ before q = lastp (before p) w.

(** A compiled pattern: the expression and the [IGNORECASE] flag. *)
Record pattern := mkPattern { ignorecase : bool; expr : re }.

(** The match at a position, if there is one: where it ends. *)
Definition match_at (pt : pattern) (p : pos) : option pos :=
  head (ends (ignorecase pt) (expr pt) p).

(** How many characters the match at a position takes. *)
Definition match_len (pt : pattern) (prev : option N) (s : str) : option nat :=
  (fun q => length s - length (after q))%nat <$> match_at pt (mkPos prev s []).

(** [pattern.match(s)]: the groups of the match at the start of [s]. *)
Definition match_ (pt : pattern) (s : str) : option (list (nat * str)) :=
  groups <$> match_at pt (mkPos None s []).

(** [m.group(i)]: what the i-th group captured last. *)
Definition group (i : nat) (g : list (nat * str)) : option str :=
  snd <$> List.find (fun e => Nat.eqb e.1 i) g.

(** [pattern.sub(repl, s)] for a replacement without group references: the
    text is scanned from the left, each match found is replaced and the scan
    goes on behind it.  [skip] counts the characters of the last match still
    to be passed.  (After an empty match the next character is copied; the
    patterns of this file match no empty string.) *)
Fixpoint sub_from (pt : pattern) (repl : str) (prev : option N) (s : str)
    (skip : nat) : str :=
  match s with
  | [] =>
      match skip, match_len pt prev [] with
      | O, Some _ => repl
      | _, _ => []
      end
  | c :: s' =>
      match skip with
      | S k => sub_from pt repl (Some c) s' k
      | O =>
          match match_len pt prev s with
          | Some (S n) => repl ++ sub_from pt repl (Some c) s' n
          | Some O => repl ++ c :: sub_from pt repl (Some c) s' 0
          | None => c :: sub_from pt repl (Some c) s' 0
          end
      end
  end.

Definition sub (pt : pattern) (repl : str) (s : str) : str :=
  sub_from pt repl None s 0.

(** [pattern.findall(s)] for a pattern without capturing groups: the matches
    found by the same scan. *)
Fixpoint findall_from (pt : pattern) (prev : option N) (s : str) (skip : nat)
  : list str :=
  match s with
  | [] =>
      match skip, match_len pt prev [] with
      | O, Some _ => [[]]
      | _, _ => []
      end
  | c :: s' =>
      match skip with
      | S k => findall_from pt (Some c) s' k
      | O =>
          match match_len pt prev s with
          | Some (S n) => take (S n) s :: findall_from pt (Some c) s' n
          | Some O => [] :: findall_from pt (Some c) s' 0
          | None => findall_from pt (Some c) s' 0
          end
      end
  end.

Definition findall (pt : pattern) (s : str) : list str :=
  findall_from pt None s 0.

(** [pattern.search(s)]: is there a match anywhere in [s]? *)
Fixpoint search_from (pt : pattern) (prev : option N) (s : str) : bool :=
  match match_len pt prev s with
  | Some _ => true
  | None => match s with
            | [] => false
            | c :: s' => search_from pt (Some c) s'
            end
  end.

Definition search (pt : pattern) (s : str) : bool := search_from pt None s.

(** *** Properties of patterns used in the analysis of substitution *)

(** No [\b], [^] or [$]: the context does not matter. *)
Fixpoint plain (r : re) : bool :=
  match r with
  | Cat r1 r2 | Alt r1 r2 => plain r1 && plain r2
  | Rep r _ _ | Grp _ r => plain r
  | Bnd | Bol | Eol => false
  | _ => true
  end.

(** Every match of the pattern has a start free of [x0] followed by a
    character that is no whitespace, and that start followed by any one
    character that is no whitespace is a match as well. *)
Definition extends_nonspace (pt : pattern) (x0 : N) : Prop :=
  forall prev w rest,
    Mt (ignorecase pt) (expr pt) prev w rest ->
    exists w0 x w1,
      w = w0 ++ x :: w1 /\ w0 <> [] /\ (x0 ∉ w0) /\ isspace x = false
      /\ forall x' rest', isspace x' = false ->
            Mt (ignorecase pt) (expr pt) prev (w0 ++ [x']) rest'.

(** The match the search reports goes on to the end of the text or to a
    whitespace character. *)
Definition stops_at_space (pt : pattern) : Prop :=
  forall prev s n,
    match_len pt prev s = Some n ->
    match drop n s with
    | [] => True
    | y :: _ => isspace y = true
    end.

(** No match of the pattern starts inside the text [T], whatever follows
    it. *)
Definition dead_inside (pt : pattern) (T : str) : Prop :=
  forall k rest,
    (0 < k < length T)%nat ->
    match_len pt (T !! (k - 1)%nat) (drop k T ++ rest) = None.

(** *** Writing patterns *)

Fixpoint cat (l : list re) : re :=
  match l with
  | [] => Eps
  | [r] => r
  | r :: l' => Cat r (cat l')
  end.

Fixpoint alt (l : list re) : re :=
  match l with
  | [] => Set_ false []
  | [r] => r
  | r :: l' => Alt r (alt l')
  end.

Definition Str (s : string) : re := cat (Lit <$> py s).
Definition In_ (l : list atom) : re := Set_ false l.
Definition NotIn (l : list atom) : re := Set_ true l.
Definition chr (s : string) : N :=
  match py s with c :: _ => c | [] => 0 end.
Definition Opt (r : re) : re := Rep r 0 (Some 1%nat).
Definition Star (r : re) : re := Rep r 0 None.
Definition Plus (r : re) : re := Rep r 1 None.
Definition Times (n : nat) (r : re) : re := Rep r n (Some n).
Definition Between (lo hi : nat) (r : re) : re := Rep r lo (Some hi).
Definition AtLeast (lo : nat) (r : re) : re := Rep r lo None.

End Re.

(** ** PII filter ([mag/services/pii.py]) *)

Module Pii.

Import Re.

Record PIIPattern := mkPIIPattern {
  name : str;
  pattern : Re.pattern;
  replacement : str
}.

Definition digit : re := In_ [Digit].
Definition space : re := In_ [Space].

(** [\b\d{3}-\d{2}-\d{4}\b] *)
Definition ssn_re : re :=
  cat [Bnd; Times 3 digit; Lit (chr "-"); Times 2 digit; Lit (chr "-");
       Times 4 digit; Bnd].

(** [\b(?:\d{4}[- ]?){3,4}\d{1,4}\b] *)
Definition credit_card_re : re :=
  cat [Bnd;
       Between 3 4 (Cat (Times 4 digit) (Opt (In_ [Ch (chr "-"); Ch (chr " ")])));
       Between 1 4 digit; Bnd].

(** [\b(?:account|acct)\.?\s*#?\s*\d{8,17}\b] *)
Definition bank_account_re : re :=
  cat [Bnd; alt [Str "account"; Str "acct"]; Opt (Lit (chr "."));
       Star space; Opt (Lit (chr "#")); Star space; Between 8 17 digit; Bnd].

(** [\b(?:routing|aba)\.?\s*#?\s*\d{9}\b] *)
Definition routing_number_re : re :=
  cat [Bnd; alt [Str "routing"; Str "aba"]; Opt (Lit (chr "."));
       Star space; Opt (Lit (chr "#")); Star space; Times 9 digit; Bnd].

(** [\b(?:password|passwd|pwd|pin|passcode)[:\s]+\S+] *)
Definition password_re : re :=
  cat [Bnd;
       alt [Str "password"; Str "passwd"; Str "pwd"; Str "pin"; Str "passcode"];
       Plus (In_ [Ch (chr ":"); Space]); Plus (NotIn [Space])].

(** [\b(?:api[_-]?key|token|secret|bearer)[:\s]+[A-Za-z0-9_\-]{20,}\b] *)
Definition api_key_re : re :=
  cat [Bnd;
       alt [cat [Str "api"; Opt (In_ [Ch (chr "_"); Ch (chr "-")]); Str "key"];
            Str "token"; Str "secret"; Str "bearer"];
       Plus (In_ [Ch (chr ":"); Space]);
       AtLeast 20 (In_ [Rng (chr "A") (chr "Z"); Rng (chr "a") (chr "z");
                        Rng (chr "0") (chr "9"); Ch (chr "_"); Ch (chr "-")]);
       Bnd].

Definition ssn : PIIPattern :=
  mkPIIPattern (py "ssn") (mkPattern false ssn_re) (py "[REDACTED-SSN]").
Definition credit_card : PIIPattern :=
  mkPIIPattern (py "credit_card") (mkPattern false credit_card_re)
               (py "[REDACTED-CC]").
Definition bank_account : PIIPattern :=
  mkPIIPattern (py "bank_account") (mkPattern true bank_account_re)
               (py "[REDACTED-ACCOUNT]").
Definition routing_number : PIIPattern :=
  mkPIIPattern (py "routing_number") (mkPattern true routing_number_re)
               (py "[REDACTED-ROUTING]").
Definition password : PIIPattern :=
  mkPIIPattern (py "password") (mkPattern true password_re)
               (py "[REDACTED-PASSWORD]").
Definition api_key : PIIPattern :=
  mkPIIPattern (py "api_key") (mkPattern true api_key_re)
               (py "[REDACTED-KEY]").

Definition _PII_PATTERNS : list PIIPattern :=
  [ssn; credit_card; bank_account; routing_number; password; api_key].

(** *** What the rules have in common

    Every rule matches no empty string, opens at a word boundary with a word
    character, repeats only expressions that take a character, and has no
    anchor; its replacement is a token in square brackets.  A rule either
    closes at a word boundary and matches no opening bracket, or (the
    password rule) runs on over everything that is no whitespace. *)
Definition rule_ok (p : PIIPattern) : Prop :=
  (1 <= min_len (expr (pattern p)))%nat
  /\ opens_word (expr (pattern p)) = true
  /\ productive (expr (pattern p)) = true
  /\ unanchored (expr (pattern p)) = true
  /\ replacement p = 91 :: tail (replacement p)
  /\ last (replacement p) = Some 93
  /\ ((closes_bnd (expr (pattern p)) = true
       /\ never_eats (ignorecase (pattern p)) (expr (pattern p)) 91 = true)
      \/ (extends_nonspace (pattern p) 91 /\ stops_at_space (pattern p))).

(** One step of [_filter_regex]. *)
Definition apply_rule (result : str) (p : PIIPattern) : str :=
  Re.sub (pattern p) (replacement p) result.

(** The shape of a social security number: three digits, a hyphen, two
    digits, a hyphen, four digits. *)
Definition ssn_shaped (w : str) : Prop :=
  exists a b c d e f g h i,
    w = [a; b; c; 45; d; e; 45; f; g; h; i]
    /\ Forall (fun x => isdigit x = true) [a; b; c; d; e; f; g; h; i].

(** The text has a substring of that shape on word boundaries: no word
    character stands right before it or right after it.  These are the
    texts in which the SSN pattern has a match. *)
Definition has_ssn (t : str) : Prop :=
  exists before w after_,
    t = before ++ w ++ after_ /\ ssn_shaped w
    /\ wordo (last before) = false /\ word_hd after_ = false.

(** [_filter_regex] *)
Definition _filter_regex (text : str) : str :=
  fold_left apply_rule _PII_PATTERNS text.

(** [filter_pii]; [pii_filter] is the setting [settings.pii_filter]. *)
Definition filter_pii (pii_filter : str) (text : option str) : option str :=
  match text with
  | None => None
  | Some t =>
      if negb (truthy (Some pii_filter)) then Some t
      else if bool_decide (pii_filter = py "regex") then Some (_filter_regex t)
      else Some t
  end.

(** Sample texts. *)
Definition pin_text : str := py "pin: 123-45-6789".
Definition ssn_text : str := py "SSN 123-45-6789 on file".
Definition clean_text : str := py "see you at 5pm".

End Pii.

(** ** The imsg adapter, search and links ([mag/services/imsg.py]) *)

Module Imsg.

Import Re.

(** [str(n)] for an integer. *)
Definition str_of_Z (n : Z) : str := py (DecimalString.NilZero.string_of_int (Z.to_int n)).

(** [s.split(sep)] for a one-character separator. *)
Fixpoint split_on (sep : N) (s : str) : list str :=
  match s with
  | [] => [[]]
  | c :: s' =>
      if c =? sep then [] :: split_on sep s'
      else match split_on sep s' with
           | w :: ws => (c :: w) :: ws
           | [] => [[c]]
           end
  end.

(** [s.replace(old, new)] for a one-character [old]. *)
Definition replace_char (old : N) (new : str) (s : str) : str :=
  List.concat (List.map (fun c => if c =? old then new else [c]) s).

(** The line boundaries of [str.splitlines]. *)
Definition is_linebreak (c : N) : bool :=
  ((10 <=? c) && (c <=? 13)) || ((28 <=? c) && (c <=? 30))
  || (c =? 133) || (c =? 8232) || (c =? 8233).

(** [s.splitlines()]; [cur] holds the line being read, last character
    first. *)
Fixpoint splitlines_from (s : str) (cur : str) : list str :=
  match s with
  | [] => match cur with [] => [] | _ => [rev cur] end
  | c :: s' =>
      if is_linebreak c then
        match c, s' with
        | 13, 10 :: s'' => rev cur :: splitlines_from s'' []
        | _, _ => rev cur :: splitlines_from s' []
        end
      else splitlines_from s' (c :: cur)
  end.

Definition splitlines (s : str) : list str := splitlines_from s [].

(** *** Errors *)

Record ImsgError := mkImsgError {
  message : str;
  code : Z;
  stderr : str;
  command : option str
}.

(** The dictionary [to_dict] builds: [error] and [code] always, [stderr] and
    [hint] when set. *)
Record ErrorDict := mkErrorDict {
  d_error : str;
  d_code : Z;
  d_stderr : option str;
  d_hint : option str
}.

Definition hint_full_disk_access : str :=
  py "imsg requires Full Disk Access. Go to System Settings > Privacy & Security > Full Disk Access and enable your terminal.".

Definition hint_automation : str :=
  py "imsg requires Automation permission to control Messages.app. Grant permission when prompted or check System Settings.".

(** [ImsgError.to_dict] *)
Definition to_dict (e : ImsgError) : ErrorDict :=
  let stderr_lower := lower (stderr e) in
  mkErrorDict
    (message e) (code e)
    (if truthy (Some (stderr e)) then Some (slice (stderr e) 0 500) else None)
    (if contains stderr_lower (py "full disk access")
        || contains stderr_lower (py "permission")
     then Some hint_full_disk_access
     else if contains stderr_lower (py "automation")
          then Some hint_automation
          else None).

(** *** Models *)

#[warnings="-register-all"] Inductive json :=
| JNull
| JBool (b : bool)
| JNum (repr : str)
| JStr (s : str)
| JList (l : list json)
| JDict (l : list (str * json)).

Record Attachment := mkAttachment {
  filename : option str;
  transfer_name : option str;
  uti : option str;
  mime_type : option str;
  total_bytes : option Z;
  is_sticker : bool;
  original_path : option str;
  missing : bool
}.

Record Participant := mkParticipant {
  handle : str;
  display_name : option str
}.

Section Adapter.

(** What the model takes from outside: the dates of [datetime] with their
    parsing and formatting, the floats that time-outs are with their
    printing, [shlex.join], [json.loads], the configured path of the binary
    and the filter setting, and the world the subprocess runs in. *)
Context {datetime float World : Type}.
Context (fromisoformat : str -> option datetime).
Context (_format_datetime_for_imsg : datetime -> str).
Context (str_of_float : float -> str).
Context (thirty_seconds : float).
Context (shlex_join : list str -> str).
Context (json_loads : str -> option json).
Context (imsg_path : str).
Context (pii_filter : str).

(** A creation time: a date that was parsed, or the reading
    [datetime.now()] gave where none could be. *)
Inductive timestamp :=
| At (d : datetime)
| Now.

Record Thread := mkThread {
  thread_id_of : Z;
  thread_name : option str;
  identifier : option str;
  service : option str;
  last_message_at : option datetime;
  participants : list Participant
}.

Record Message := mkMessage {
  id : option Z;
  chat_id : Z;
  guid : str;
  reply_to_guid : option str;
  sender : option str;
  is_from_me : bool;
  text : option str;
  created_at : timestamp;
  attachments : list Attachment;
  reactions : option json
}.

Record ExtractedLink := mkExtractedLink {
  url : str;
  message_id : option Z;
  link_sender : option str;
  sent_at : timestamp;
  context : option str
}.

(** How a run of the binary ends: it is not there, it does not answer in
    time, or it exits with a code and what it wrote (decoded). *)
Inductive proc_outcome :=
| FileNotFound
| TimedOut
| Exited (returncode : Z) (stdout stderr : str).

Inductive exn :=
| ImsgErr (e : ImsgError)
| OtherExn.

Inductive outcome (A : Type) :=
| Ok (a : A)
| Raise (e : exn).
Arguments Ok {A} a.
Arguments Raise {A} e.

(** Computations that talk to the binary: they may raise and they change
    the world. *)
Definition M (A : Type) : Type := World -> outcome A * World.

Definition ret {A} (a : A) : M A := fun w => (Ok a, w).
Definition raise {A} (e : exn) : M A := fun w => (Raise e, w).
Definition bind {A B} (m : M A) (k : A -> M B) : M B :=
  fun w => match m w with
           | (Ok a, w') => k a w'
           | (Raise e, w') => (Raise e, w')
           end.

(** [try: m except ImsgError: h] *)
Definition catch_imsg {A} (m : M A) (h : M A) : M A :=
  fun w => match m w with
           | (Raise (ImsgErr _), w') => h w'
           | r => r
           end.

(** The subprocess: command line and time-out in, outcome out. *)
Context (run : list str -> float -> M proc_outcome).
(** [list_threads] and [get_messages], the structured reads that thread
    lookup and link extraction call; what they return is left open. *)
Context (list_threads : Z -> M (list Thread)).
Context (get_messages :
  Z -> Z -> option datetime -> option datetime -> option (list str) -> bool ->
  M (list Message)).

Definition not_found_error (cmd_str : str) : ImsgError :=
  mkImsgError
    (py "imsg not found. Install with: brew install steipete/tap/imsg")
    (-1) [] (Some cmd_str).

Definition timeout_error (timeout : float) (cmd_str : str) : ImsgError :=
  mkImsgError
    (py "imsg timed out after " ++ str_of_float timeout ++ py " seconds")
    (-1) [] (Some cmd_str).

Definition failed_message (returncode : Z) : str :=
  py "imsg failed with exit code " ++ str_of_Z returncode.

(** [returncode or -1] *)
Definition code_or (returncode : Z) : Z :=
  if (returncode =? 0)%Z then (-1)%Z else returncode.

(** The NDJSON reading loop of [_run_imsg]. *)
Fixpoint parse_ndjson (lines : list str) (results : list json) : list json :=
  match lines with
  | [] => results
  | line :: lines' =>
      let line := strip line in
      match line with
      | [] => parse_ndjson lines' results
      | _ =>
          match json_loads line with
          | Some (JDict d) => parse_ndjson lines' (results ++ [JDict d])
          | Some (JList l) => parse_ndjson lines' (results ++ l)
          | Some _ => parse_ndjson lines' results
          | None => parse_ndjson lines' results
          end
      end
  end.

(** [_run_imsg] *)
Definition _run_imsg (args : list str) (timeout : float) : M (list json) :=
  let cmd := imsg_path :: args in
  let cmd_str := shlex_join cmd in
  bind (run cmd timeout) (fun o =>
    match o with
    | FileNotFound => raise (ImsgErr (not_found_error cmd_str))
    | TimedOut => raise (ImsgErr (timeout_error timeout cmd_str))
    | Exited returncode stdout_str stderr_str =>
        if negb (returncode =? 0)%Z then
          raise (ImsgErr (mkImsgError (failed_message returncode)
                                      (code_or returncode)
                                      (strip stderr_str)
                                      (Some cmd_str)))
        else ret (parse_ndjson (split_on 10 (strip stdout_str)) [])
    end).

(** [_run_imsg_raw] *)
Definition _run_imsg_raw (args : list str) (timeout : float) : M str :=
  let cmd := imsg_path :: args in
  let cmd_str := shlex_join cmd in
  bind (run cmd timeout) (fun o =>
    match o with
    | FileNotFound => raise (ImsgErr (not_found_error cmd_str))
    | TimedOut => raise (ImsgErr (timeout_error timeout cmd_str))
    | Exited returncode stdout_str stderr_str =>
        if negb (returncode =? 0)%Z then
          let error_output :=
            if truthy (Some (strip stderr_str)) then strip stderr_str
            else strip stdout_str in
          raise (ImsgErr (mkImsgError (failed_message returncode)
                                      (code_or returncode)
                                      error_output
                                      (Some cmd_str)))
        else ret stdout_str
    end).

(** *** Text *)

(** [_STRIP_CHARS]: null, object replacement, replacement character, the
    zero-width space, non-joiner and joiner, and the byte-order mark. *)
Definition _STRIP_CHARS : list N := [0; 65532; 65533; 8203; 8204; 8205; 65279].

(** [_clean_text] *)
Definition _clean_text (text : str) : str :=
  match text with
  | [] => []
  | _ => strip (List.filter (fun c => negb (bool_decide (c ∈ _STRIP_CHARS))) text)
  end.

(** The grammar of a history line,
    [^(\d{4}-\d{2}-\d{2}T[\d:.]+Z)\s+\[(sent|recv)\]\s+([^:]+):\s*(TEXT)$]
    where [TEXT] stands for the dot, starred. *)
Definition _TEXT_LINE_PATTERN : pattern :=
  mkPattern false
    (cat [Bol;
          Grp 1 (cat [Times 4 (In_ [Digit]); Lit (chr "-");
                      Times 2 (In_ [Digit]); Lit (chr "-");
                      Times 2 (In_ [Digit]); Lit (chr "T");
                      Plus (In_ [Digit; Ch (chr ":"); Ch (chr ".")]);
                      Lit (chr "Z")]);
          Plus (In_ [Space]); Lit (chr "[");
          Grp 2 (alt [Str "sent"; Str "recv"]);
          Lit (chr "]"); Plus (In_ [Space]);
          Grp 3 (Plus (NotIn [Ch (chr ":")]));
          Lit (chr ":"); Star (In_ [Space]);
          Grp 4 (Star Dot);
          Eol]).

Definition filter_text (t : str) : option str :=
  Pii.filter_pii pii_filter (Some t).

(** [_parse_text_message] *)
Definition _parse_text_message (line : str) (chat_id : Z) (line_idx : Z)
  : option Message :=
  match match_ _TEXT_LINE_PATTERN line with
  | None => None
  | Some g =>
      let date_str := default [] (group 1 g) in
      let direction := default [] (group 2 g) in
      let sender := default [] (group 3 g) in
      let text := default [] (group 4 g) in
      let is_from_me := bool_decide (direction = py "sent") in
      let created_at :=
        match fromisoformat (replace_char (chr "Z") (py "+00:00") date_str) with
        | Some d => At d
        | None => Now
        end in
      let cleaned_text := filter_text (_clean_text text) in
      Some (mkMessage (Some line_idx) chat_id
              (py "search-" ++ str_of_Z chat_id ++ py "-" ++ str_of_Z line_idx)
              None (Some (strip sender)) is_from_me cleaned_text created_at
              [] None)
  end.

(** *** Search *)

(** The loop of [search_messages_fast] over the lines left, with the
    matches collected and the line counter. *)
Fixpoint scan_lines (query_lower : str) (thread_id : Z) (result_limit : Z)
    (lines : list str) (line_idx : Z) (matches : list Message) : list Message :=
  match lines with
  | [] => matches
  | line :: lines' =>
      let line := strip line in
      if negb (truthy (Some line)) || startswith line (py "(") then
        scan_lines query_lower thread_id result_limit lines' line_idx matches
      else if negb (contains (lower line) query_lower) then
        scan_lines query_lower thread_id result_limit lines' (line_idx + 1)
                   matches
      else
        match _parse_text_message line thread_id line_idx with
        | Some msg =>
            if truthy (text msg)
               && contains (lower (default [] (text msg))) query_lower
            then
              let matches := matches ++ [msg] in
              if (result_limit <=? Z.of_nat (length matches))%Z then matches
              else scan_lines query_lower thread_id result_limit lines'
                              (line_idx + 1) matches
            else scan_lines query_lower thread_id result_limit lines'
                            (line_idx + 1) matches
        | None =>
            scan_lines query_lower thread_id result_limit lines'
                       (line_idx + 1) matches
        end
  end.

Definition date_args (flag : string) (d : option datetime) : list str :=
  match d with
  | Some dt => [py flag; _format_datetime_for_imsg dt]
  | None => []
  end.

(** [search_messages_fast] *)
Definition search_messages_fast (query : str) (thread_id : Z)
    (scan_limit result_limit : Z) (start end_ : option datetime)
  : M (list Message) :=
  let args :=
    [py "history"; py "--chat-id"; str_of_Z thread_id;
     py "--limit"; str_of_Z scan_limit]
    ++ date_args "--start" start ++ date_args "--end" end_ in
  bind (_run_imsg_raw args thirty_seconds) (fun output =>
    ret (scan_lines (lower query) thread_id result_limit
                    (splitlines output) 0 [])).

(** The lines the scan looks at: the stripped lines that are neither empty
    nor attachment markers, numbered as the scan counts them. *)
Definition kept_lines (lines : list str) : list str :=
  List.filter (fun l => truthy (Some l) && negb (startswith l (py "(")))
              (List.map strip lines).

Fixpoint number_from (i : Z) (l : list str) : list (Z * str) :=
  match l with
  | [] => []
  | x :: l' => (i, x) :: number_from (i + 1) l'
  end.

(** The message a numbered line gives when it matches the query: the query
    is in the line, the line parses, and the query is in the cleaned and
    filtered text, all up to case. *)
Definition line_match (query_lower : str) (thread_id : Z) (e : Z * str)
  : option Message :=
  if contains (lower e.2) query_lower then
    match _parse_text_message e.2 thread_id e.1 with
    | Some msg =>
        if truthy (text msg)
           && contains (lower (default [] (text msg))) query_lower
        then Some msg else None
    | None => None
    end
  else None.

Definition all_matches (query_lower : str) (thread_id : Z) (lines : list str)
  : list Message :=
  omap (line_match query_lower thread_id) (number_from 0 (kept_lines lines)).

(** The loop of [find_thread_by_recipient] over the threads listed. *)
Fixpoint probe_threads (recipient : str) (threads : list Thread)
  : M (option Z) :=
  match threads with
  | [] => ret None
  | thread :: threads' =>
      catch_imsg
        (bind (get_messages (thread_id_of thread) 1 None None
                            (Some [recipient]) false)
              (fun messages =>
                 match messages with
                 | _ :: _ => ret (Some (thread_id_of thread))
                 | [] => probe_threads recipient threads'
                 end))
        (probe_threads recipient threads')
  end.

(** [find_thread_by_recipient] *)
Definition find_thread_by_recipient (recipient : str) (max_threads : Z)
  : M (option Z) :=
  bind (list_threads max_threads) (probe_threads recipient).

(** The target thread of [search_messages] and [extract_links]. *)
Definition target_thread (thread_id : option Z) (recipient : option str)
  : M (option Z) :=
  match thread_id, recipient with
  | None, Some r =>
      if truthy recipient then find_thread_by_recipient r 50 else ret None
  | _, _ => ret thread_id
  end.

(** There is no thread for the recipient: none is looked for (no recipient,
    or an empty one), or the lookup ends without one. *)
Definition no_thread_for (recipient : option str) (w w' : World) : Prop :=
  match recipient with
  | Some (c :: r) => find_thread_by_recipient (c :: r) 50 w = (Ok None, w')
  | _ => w' = w
  end.

(** [search_messages] *)
Definition search_messages (query : str) (thread_id : option Z)
    (recipient : option str) (scan_limit result_limit : Z)
    (start end_ : option datetime) : M (list Message) :=
  bind (target_thread thread_id recipient) (fun target_thread_id =>
    match target_thread_id with
    | None => ret []
    | Some t => search_messages_fast query t scan_limit result_limit start end_
    end).

(** *** Links *)

(** [https?://], then [(?:[\w-]+\.)+[\w-]+], then optionally a slash and
    any run of characters other than whitespace, angle brackets, the two
    quotes, a closing parenthesis and a closing square bracket; case is
    ignored. *)
Definition _URL_PATTERN : pattern :=
  mkPattern true
    (cat [Str "http"; Opt (Lit (chr "s")); Str "://";
          Plus (Cat (Plus (In_ [Word; Ch (chr "-")])) (Lit (chr ".")));
          Plus (In_ [Word; Ch (chr "-")]);
          Opt (Cat (Lit (chr "/"))
                   (Star (NotIn [Space; Ch (chr "<"); Ch (chr ">"); Ch 34;
                                 Ch (chr "'"); Ch (chr ")"); Ch (chr "]")])))]).

(** [_extract_urls] *)
Definition _extract_urls (text : str) : list str :=
  match text with
  | [] => []
  | _ => findall _URL_PATTERN (_clean_text text)
  end.

(** [_get_link_context] *)
Definition _get_link_context (text url : str) (context_chars : nat) : str :=
  match text with
  | [] => []
  | _ =>
      let cleaned := _clean_text text in
      match find cleaned url with
      | None =>
          if (100 <? length cleaned)%nat then slice cleaned 0 100 else cleaned
      | Some idx =>
          let start := (idx - context_chars)%nat in
          let end_ := (length cleaned `min` (idx + length url + context_chars))%nat in
          let context := slice cleaned start end_ in
          let context := if (0 <? start)%nat then py "..." ++ context else context in
          if (end_ <? length cleaned)%nat then context ++ py "..." else context
      end
  end.

(** [from_me is True and not msg.is_from_me], and the other way round. *)
Definition wrong_side (from_me : option bool) (msg : Message) : bool :=
  match from_me with
  | Some true => negb (is_from_me msg)
  | Some false => is_from_me msg
  | None => false
  end.

(** The inner loop of [extract_links] over the URLs of one message. *)
Fixpoint add_links (limit : Z) (msg : Message) (urls : list str)
    (links : list ExtractedLink) : list ExtractedLink :=
  match urls with
  | [] => links
  | u :: urls' =>
      if (limit <=? Z.of_nat (length links))%Z then links
      else
        add_links limit msg urls'
          (links ++
           [mkExtractedLink u (id msg)
              (if is_from_me msg then Some (py "me") else sender msg)
              (created_at msg)
              (Some (_get_link_context (default [] (text msg)) u 50))])
  end.

(** The outer loop of [extract_links] over the messages, newest first. *)
Fixpoint collect_links (limit : Z) (from_me : option bool)
    (messages : list Message) (links : list ExtractedLink)
  : list ExtractedLink :=
  match messages with
  | [] => links
  | msg :: messages' =>
      if (limit <=? Z.of_nat (length links))%Z then links
      else if wrong_side from_me msg then
        collect_links limit from_me messages' links
      else if negb (truthy (text msg)) then
        collect_links limit from_me messages' links
      else
        collect_links limit from_me messages'
          (add_links limit msg (_extract_urls (default [] (text msg))) links)
  end.

(** [extract_links] *)
Definition extract_links (recipient : option str) (thread_id : option Z)
    (limit message_limit : Z) (from_me : option bool)
    (start end_ : option datetime) : M (list ExtractedLink) :=
  bind (target_thread thread_id recipient) (fun target_thread_id =>
    match target_thread_id with
    | None => ret []
    | Some t =>
        bind (get_messages t message_limit start end_ None false)
             (fun messages =>
                ret (collect_links limit from_me (rev messages) []))
    end).

(** The links one message gives to [extract_links]: none when it is on the
    wrong side or has no text, else one for each URL of its text. *)
Definition links_of (from_me : option bool) (msg : Message)
  : list ExtractedLink :=
  if wrong_side from_me msg || negb (truthy (text msg)) then []
  else
    (fun u =>
       mkExtractedLink u (id msg)
         (if is_from_me msg then Some (py "me") else sender msg)
         (created_at msg)
         (Some (_get_link_context (default [] (text msg)) u 50)))
    <$> _extract_urls (default [] (text msg)).

(** *** History by recipient *)

(** [get_messages_by_recipient]; a thread identifier of zero counts as no
    thread ([if not thread_id]). *)
Definition get_messages_by_recipient (recipient : str) (limit : Z)
    (start end_ : option datetime) (include_attachments : bool)
  : M (list Message) :=
  bind (find_thread_by_recipient recipient 50) (fun thread_id =>
    match thread_id with
    | Some t =>
        if (t =? 0)%Z then ret []
        else get_messages t limit start end_ None include_attachments
    | None => ret []
    end).

(** *** Sending *)

Record MessageSend := mkMessageSend {
  to : str;
  msg_text : option str;
  files : list str;
  msg_service : str;
  region : option str
}.

Record MessageSendResponse := mkMessageSendResponse {
  resp_ok : bool;
  resp_to : option str;
  resp_command : option str;
  resp_error : option str
}.

(** [settings.default_region], and [get_thread], the third structured read;
    what it returns is left open. *)
Context (default_region : str).
Context (get_thread : Z -> M (option Thread)).

(** [try: m except ImsgError as e: h e] *)
Definition catch_imsg_as {A} (m : M A) (h : ImsgError -> M A) : M A :=
  fun w => match m w with
           | (Raise (ImsgErr e), w') => h e w'
           | r => r
           end.

(** [build_send_command] *)
Definition build_send_command (data : MessageSend) (region_arg : option str)
  : list str :=
  let args := [imsg_path; py "send"; py "--to"; to data] in
  let args :=
    if truthy (msg_text data)
    then args ++ [py "--text"; default [] (msg_text data)]
    else args in
  let args :=
    fold_left (fun args file_path => args ++ [py "--file"; file_path])
              (files data) args in
  let args :=
    if truthy (Some (msg_service data))
       && negb (bool_decide (msg_service data = py "auto"))
    then args ++ [py "--service"; msg_service data]
    else args in
  let effective_region :=
    if truthy (region data) then default [] (region data)
    else if truthy region_arg then default [] region_arg
    else default_region in
  args ++ [py "--region"; effective_region].

(** The error text of a failed send: the message, with the diagnostic after
    it when there is one. *)
Definition send_error (e : ImsgError) : str :=
  if truthy (Some (stderr e)) then message e ++ py ": " ++ stderr e
  else message e.

(** [send_message_v2] *)
Definition send_message_v2 (data : MessageSend) (dry_run : bool)
  : M MessageSendResponse :=
  let args := build_send_command data None in
  let cmd_str := shlex_join args in
  if dry_run
  then ret (mkMessageSendResponse true (Some (to data)) (Some cmd_str) None)
  else
    catch_imsg_as
      (bind (_run_imsg_raw (tail args) thirty_seconds) (fun _ =>
         ret (mkMessageSendResponse true (Some (to data)) None None)))
      (fun e =>
         ret (mkMessageSendResponse false (Some (to data)) None
                                    (Some (send_error e)))).

(** The loop of [reply_to_thread] over the messages reversed: the
    sender of the first that is not from me and has one. *)
Fixpoint last_inbound_sender (reversed : list Message) : option str :=
  match reversed with
  | [] => None
  | msg :: rest =>
      if negb (is_from_me msg) && truthy (sender msg) then sender msg
      else last_inbound_sender rest
  end.

Definition reply_message (recipient text : str) : MessageSend :=
  mkMessageSend recipient (Some text) [] (py "auto") None.

Definition no_scope_error : str :=
  py "Either thread_id or recipient must be provided.".

Definition no_recipient_error (thread_id : Z) : str :=
  py "Could not determine recipient for thread " ++ str_of_Z thread_id
  ++ py ". Use /messages/send with explicit 'to'.".

(** [reply_to_thread] *)
Definition reply_to_thread (text : str) (thread_id : option Z)
    (recipient : option str) : M MessageSendResponse :=
  if truthy recipient
  then send_message_v2 (reply_message (default [] recipient) text) false
  else
    match thread_id with
    | None => ret (mkMessageSendResponse false None None (Some no_scope_error))
    | Some t =>
        if (t =? 0)%Z
        then ret (mkMessageSendResponse false None None (Some no_scope_error))
        else
          bind (get_messages t 10 None None None false) (fun messages =>
          let recipient := last_inbound_sender (rev messages) in
          bind (if truthy recipient then ret recipient
                else bind (get_thread t) (fun thread =>
                       match thread with
                       | Some th =>
                           match participants th with
                           | p :: _ => ret (Some (handle p))
                           | [] => ret recipient
                           end
                       | None => ret recipient
                       end))
               (fun recipient =>
                  if truthy recipient
                  then send_message_v2
                         (reply_message (default [] recipient) text) false
                  else ret (mkMessageSendResponse false None None
                              (Some (no_recipient_error t)))))
    end.

End Adapter.

Arguments Ok {A} a.
Arguments Raise {A} e.

(** *** Samples *)

Definition long_link_text : str :=
  py "aaaaaaaaaabbbbbbbbbbccccccccccddddddddddeeeeeeeeeeffffffffff check out https://example.com/page for details aaaaaaaaaabbbbbbbbbbccccccccccddddddddddeeeeeeeeeeffffffffff".

(** A history of a thousand lines that all say hello. *)
Definition hello_line : str :=
  py "2026-01-31T12:25:21.879Z [recv] +13106999664: hello world".

Definition hello_history : str :=
  List.concat (List.repeat (hello_line ++ [10]) 1000).

(** A binary that fails with exit code 1, an error on stdout and nothing on
    stderr, in a world without state. *)
Definition failing_run (cmd : list str) (timeout : unit)
  : @M unit proc_outcome :=
  fun w => (Ok (Exited 1 (py "No chat found for id 42") []), w).

(** Command lines joined by blanks, for [shlex.join] on words that need no
    quoting. *)
Definition plain_join (cmd : list str) : str :=
  List.concat (List.map (fun a => a ++ [32]) cmd).

(** A structured read that finds no message. *)
Definition no_messages {datetime : Type} (thread_id limit : Z)
    (start end_ : option datetime) (participants : option (list str))
    (include_attachments : bool) : @M unit (list (@Message datetime)) :=
  fun w => (Ok [], w).

(** A listing without threads. *)
Definition no_threads {datetime : Type} (limit : Z)
  : @M unit (list (@Thread datetime)) :=
  fun w => (Ok [], w).

(** A binary that succeeds and writes nothing. *)
Definition ok_run (cmd : list str) (timeout : unit) : @M unit proc_outcome :=
  fun w => (Ok (Exited 0%Z [] []), w).

(** A thread, a listing that has it alone, and a structured read that
    fails. *)
Definition some_thread {datetime : Type} : @Thread datetime :=
  mkThread 42%Z None None None None [mkParticipant (py "+15550001111") None].

Definition one_thread {datetime : Type} (limit : Z)
  : @M unit (list (@Thread datetime)) :=
  fun w => (Ok [some_thread], w).

Definition failing_history {datetime : Type} (thread_id limit : Z)
    (start end_ : option datetime) (participants : option (list str))
    (include_attachments : bool) : @M unit (list (@Message datetime)) :=
  fun w =>
    (Raise (ImsgErr (mkImsgError (py "imsg failed with exit code 1") 1%Z []
                                 None)), w).

(** A history of two messages: one received, with a link, and after it one
    sent. *)
Definition link_message {datetime : Type} : @Message datetime :=
  mkMessage (Some 7%Z) 42%Z (py "guid-7") None (Some (py "+15551234567")) false
            (Some long_link_text) Now [] None.

Definition sent_message {datetime : Type} : @Message datetime :=
  mkMessage (Some 8%Z) 42%Z (py "guid-8") None None true (Some (py "thanks"))
            Now [] None.

Definition link_history {datetime : Type} (thread_id limit : Z)
    (start end_ : option datetime) (participants : option (list str))
    (include_attachments : bool) : @M unit (list (@Message datetime)) :=
  fun w => (Ok [link_message; sent_message], w).

Definition no_thread {datetime : Type} (thread_id : Z)
  : @M unit (option (@Thread datetime)) :=
  fun w => (Ok None, w).

End Imsg.

(** ** Settings ([mag/config.py]) *)

Module Config.

(** The settings that the contact cache, the adapter and the message
    routes read; the server, logging and reminder settings are not
    modelled. *)
Record Settings := mkSettings {
  imsg_path : str;
  default_region : str;
  allow_unknown_recipients : bool;
  pii_filter : str;
  messages_send_allowlist : str;
  messages_read : bool;
  messages_search : bool;
  messages_send : bool;
  messages_watch : bool;
  messages_contacts : bool;
  messages_attachments : bool
}.

(** The body of the loop of [get_send_allowlist]. *)
Definition add_recipient (recipients : gset str) (r : str) : gset str :=
  let r := strip r in
  if truthy (Some r) then {[r]} ∪ recipients else recipients.

(** [Settings.get_send_allowlist] *)
Definition get_send_allowlist (settings : Settings) : gset str :=
  if negb (truthy (Some (strip (messages_send_allowlist settings)))) then ∅
  else fold_left add_recipient
                 (Imsg.split_on 44 (messages_send_allowlist settings)) ∅.

(** [sep.join(l)] for the comma. *)
Fixpoint join_commas (l : list str) : str :=
  match l with
  | [] => []
  | [r] => r
  | r :: l' => r ++ 44 :: join_commas l'
  end.

(** Settings as they are by default, with an allowlist. *)
Definition with_allowlist (allowlist : str) : Settings :=
  mkSettings (py "imsg") (py "US") true (py "regex") allowlist
             true true true true true true.

End Config.

(** ** The send and reply routes ([mag/routers/messages.py])

    The routes as functions of the settings, the contact cache and the
    request.  Authentication and rate limiting, which the framework does
    before a route runs, are not modelled. *)

Module Router.

Import Config.

(** The [detail] of an [HTTPException]: a text, a dictionary with [error]
    and [hint], or the dictionary of an [ImsgError]. *)
Inductive Detail :=
| DText (s : str)
| DHint (error hint : str)
| DCli (d : Imsg.ErrorDict).

Record HTTPException := mkHTTPException {
  status_code : Z;
  detail : Detail
}.

(** [s.upper()] *)
Definition upper (s : str) : str := List.map Re.upper_char s.

(** [capability_map.get(capability, False)] *)
Definition capability_enabled (settings : Settings) (capability : str) : bool :=
  if decide (capability = py "read") then messages_read settings
  else if decide (capability = py "search") then messages_search settings
  else if decide (capability = py "send") then messages_send settings
  else if decide (capability = py "watch") then messages_watch settings
  else if decide (capability = py "contacts") then messages_contacts settings
  else if decide (capability = py "attachments")
       then messages_attachments settings
  else false.

(** [_require_capability]: the exception it raises, if it raises. *)
Definition _require_capability (settings : Settings) (capability : str)
  : option HTTPException :=
  if capability_enabled settings capability then None
  else Some (mkHTTPException 403
               (DHint (py "Capability 'messages." ++ capability
                       ++ py "' is disabled")
                      (py "Set MAG_MESSAGES_" ++ upper capability
                       ++ py "=true to enable"))).

(** [_handle_cli_error] *)
Definition _handle_cli_error (e : Imsg.ImsgError) : HTTPException :=
  mkHTTPException 502 (DCli (Imsg.to_dict e)).

Definition not_in_allowlist (recipient : str) : HTTPException :=
  mkHTTPException 403
    (DHint (py "Recipient '" ++ recipient ++ py "' is not in the send allowlist")
           (py "Add recipient to MAG_MESSAGES_SEND_ALLOWLIST or clear the allowlist")).

Definition unknown_recipient : HTTPException :=
  mkHTTPException 403
    (DHint (py "Unknown recipient")
           (py "Add recipient to contacts first, or set MAG_ALLOW_UNKNOWN_RECIPIENTS=true")).

Definition no_scope : HTTPException :=
  mkHTTPException 400 (DText (py "Either thread_id or recipient must be provided")).

(** [status == "not_found"] *)
Definition is_not_found (s : Contacts.Status) : bool :=
  match s with
  | Contacts.not_found => true
  | _ => false
  end.

(** [MessageReply] *)
Record MessageReply := mkMessageReply {
  thread_id : option Z;
  recipient : option str;
  text : str
}.

(** How a route ends: it returns, it raises an [HTTPException], or another
    exception passes through it. *)
Inductive response (A : Type) :=
| Returned (a : A)
| HttpRaised (e : HTTPException)
| Passed.
Arguments Returned {A} a.
Arguments HttpRaised {A} e.
Arguments Passed {A}.

Section Routes.

Context {datetime float World : Type}.
Context (str_of_float : float -> str).
Context (thirty_seconds : float).
Context (shlex_join : list str -> str).
Context (run : list str -> float -> @Imsg.M World Imsg.proc_outcome).
Context (get_messages :
  Z -> Z -> option datetime -> option datetime -> option (list str) -> bool ->
  @Imsg.M World (list (@Imsg.Message datetime))).
Context (get_thread : Z -> @Imsg.M World (option (@Imsg.Thread datetime))).
(** What [_validate_attachment_paths] does with a list of files that is not
    empty: it resolves the paths in the file system; the exception it
    raises, if it raises, is left open. *)
Context (check_attachment_paths : list str -> option HTTPException).

(** [_validate_attachment_paths]: the exception it raises, if it raises. *)
Definition _validate_attachment_paths (files : list str)
  : option HTTPException :=
  match files with
  | [] => None
  | _ => check_attachment_paths files
  end.

(** [try: return await m except ImsgError as e: raise _handle_cli_error(e)] *)
Definition or_cli_error {A} (m : @Imsg.M World A) (w : World)
  : response A * World :=
  match m w with
  | (Imsg.Ok a, w') => (Returned a, w')
  | (Imsg.Raise (Imsg.ImsgErr e), w') => (HttpRaised (_handle_cli_error e), w')
  | (Imsg.Raise Imsg.OtherExn, w') => (Passed, w')
  end.

(** [send_message] *)
Definition send_message (settings : Settings) (cache : Contacts.ContactCache)
    (data : Imsg.MessageSend) (dry_run : bool) (w : World)
  : response Imsg.MessageSendResponse * World :=
  match _require_capability settings (py "send") with
  | Some e => (HttpRaised e, w)
  | None =>
  match _validate_attachment_paths (Imsg.files data) with
  | Some e => (HttpRaised e, w)
  | None =>
  let allowlist := get_send_allowlist settings in
  if negb (bool_decide (allowlist = ∅))
     && negb (bool_decide (Imsg.to data ∈ allowlist))
  then (HttpRaised (not_in_allowlist (Imsg.to data)), w)
  else
  if negb (allow_unknown_recipients settings)
     && is_not_found
          (Contacts.status
             (Contacts.resolve (Some (Imsg.to data)) (Some (Imsg.to data))
                               None cache).1)
  then (HttpRaised unknown_recipient, w)
  else
    or_cli_error
      (Imsg.send_message_v2 str_of_float thirty_seconds shlex_join
         (imsg_path settings) run (default_region settings) data dry_run) w
  end end.

(** [not data.thread_id]: no thread, or thread zero. *)
Definition no_thread_id (thread_id : option Z) : bool :=
  match thread_id with
  | Some t => (t =? 0)%Z
  | None => true
  end.

(** [reply_to_thread] *)
Definition reply_to_thread (settings : Settings) (data : MessageReply)
    (w : World) : response Imsg.MessageSendResponse * World :=
  match _require_capability settings (py "send") with
  | Some e => (HttpRaised e, w)
  | None =>
  if no_thread_id (thread_id data) && negb (truthy (recipient data))
  then (HttpRaised no_scope, w)
  else
  let allowlist := get_send_allowlist settings in
  if negb (bool_decide (allowlist = ∅))
     && truthy (recipient data)
     && negb (bool_decide (default [] (recipient data) ∈ allowlist))
  then (HttpRaised (not_in_allowlist (default [] (recipient data))), w)
  else
    or_cli_error
      (Imsg.reply_to_thread str_of_float thirty_seconds shlex_join
         (imsg_path settings) run get_messages (default_region settings)
         get_thread (text data) (thread_id data) (recipient data)) w
  end.

End Routes.

End Router.

(** * Properties *)

Import Contacts.

(** ** Dictionaries *)

Section DictFacts.
Context {V : Type}.
Implicit Types (d : list (str * V)) (k : str) (v : V).

Lemma dict_get_None d k : dict_get k d = None <-> k ∉ dict_keys d.
Proof.
  unfold dict_keys. induction d as [|[k' v'] d IH]; simpl.
  - split; [intros _; apply not_elem_of_nil | done].
  - destruct (decide (k = k')) as [->|Hne].
    + split; [done | intros H; exfalso; apply H; left].
    + rewrite IH, not_elem_of_cons. tauto.
Qed.

Lemma dict_get_set_eq d k v : dict_get k (dict_set k v d) = Some v.
Proof.
  induction d as [|[k' v'] d IH]; simpl.
  - by rewrite decide_True.
  - destruct (decide (k = k')) as [->|Hne]; simpl.
    + by rewrite decide_True.
    + by rewrite decide_False.
Qed.

Lemma dict_get_set_ne d k k' v :
  k <> k' -> dict_get k' (dict_set k v d) = dict_get k' d.
Proof.
  intros Hne. induction d as [|[k0 v0] d IH]; simpl.
  - by rewrite decide_False.
  - destruct (decide (k = k0)) as [->|Hne0]; simpl.
    + by rewrite !decide_False.
    + destruct (decide (k' = k0)); [done | apply IH].
Qed.

Lemma dict_keys_set_new d k v :
  dict_get k d = None -> dict_set k v d = d ++ [(k, v)].
Proof.
  induction d as [|[k0 v0] d IH]; simpl; [done|].
  destruct (decide (k = k0)); [done|]. intros H. by rewrite IH.
Qed.

Lemma dict_keys_set_old d k v :
  is_Some (dict_get k d) -> dict_keys (dict_set k v d) = dict_keys d.
Proof.
  unfold dict_keys. induction d as [|[k0 v0] d IH]; simpl.
  - by intros [? ?].
  - destruct (decide (k = k0)) as [->|Hne]; simpl; [done|].
    intros H. f_equal. by apply IH.
Qed.

Lemma dict_keys_set_NoDup d k v :
  NoDup (dict_keys d) -> NoDup (dict_keys (dict_set k v d)).
Proof.
  intros Hnd. destruct (dict_get k d) as [v0|] eqn:Hg.
  - by rewrite dict_keys_set_old.
  - rewrite dict_keys_set_new by done. unfold dict_keys in *.
    rewrite fmap_app. simpl. apply NoDup_app. split; [done|]. split.
    + intros x Hx Hin. apply list_elem_of_singleton in Hin. subst x.
      by apply dict_get_None in Hg.
    + apply NoDup_singleton.
Qed.

Lemma dict_get_del_ne d k k' :
  k <> k' -> dict_get k' (dict_del k d) = dict_get k' d.
Proof.
  intros Hne. induction d as [|[k0 v0] d IH]; simpl; [done|].
  destruct (decide (k = k0)) as [->|Hne0]; simpl.
  - by rewrite decide_False.
  - destruct (decide (k' = k0)); [done | apply IH].
Qed.

Lemma dict_get_del_eq d k :
  NoDup (dict_keys d) -> dict_get k (dict_del k d) = None.
Proof.
  unfold dict_keys. induction d as [|[k0 v0] d IH]; simpl; [done|].
  intros Hnd. apply NoDup_cons in Hnd as [Hnotin Hnd].
  destruct (decide (k = k0)) as [->|Hne]; simpl.
  - by apply dict_get_None.
  - rewrite decide_False by done. by apply IH.
Qed.

Lemma dict_keys_del_sub d k x : x ∈ dict_keys (dict_del k d) -> x ∈ dict_keys d.
Proof.
  unfold dict_keys. induction d as [|[k0 v0] d IH]; simpl; [done|].
  destruct (decide (k = k0)); simpl.
  - intros H. by right.
  - rewrite !elem_of_cons. intros [->|H]; [by left | right; by apply IH].
Qed.

Lemma dict_keys_del_NoDup d k :
  NoDup (dict_keys d) -> NoDup (dict_keys (dict_del k d)).
Proof.
  unfold dict_keys. induction d as [|[k0 v0] d IH]; simpl; [done|].
  intros Hnd. apply NoDup_cons in Hnd as [Hnotin Hnd].
  destruct (decide (k = k0)); simpl; [done|].
  apply NoDup_cons. split; [|by apply IH].
  intros H. apply Hnotin. by apply (dict_keys_del_sub d k).
Qed.

Lemma dict_get_values d k v : dict_get k d = Some v -> v ∈ dict_values d.
Proof.
  unfold dict_values. induction d as [|[k0 v0] d IH]; simpl; [done|].
  destruct (decide (k = k0)).
  - intros [= ->]. by left.
  - intros H. right. by apply IH.
Qed.

End DictFacts.

(** ** The indices *)

Lemma lookup_index_keys (keys : list str) (cid : str) (idx : gmap str str) (k : str) :
  Contacts.index_keys keys cid idx !! k
  = if decide (k ∈ keys) then Some cid else idx !! k.
Proof.
  unfold Contacts.index_keys. revert idx.
  induction keys as [|k0 keys IH]; intros idx.
  - cbn [fold_left]. case_decide as H; [by apply elem_of_nil in H | done].
  - cbn [fold_left]. rewrite IH.
    destruct (decide (k ∈ keys)) as [Hin|Hnin].
    + rewrite decide_True; [done | by right].
    + destruct (decide (k = k0)) as [->|Hne].
      * rewrite decide_True by left. apply lookup_insert_eq.
      * rewrite decide_False by (rewrite elem_of_cons; tauto).
        by apply lookup_insert_ne.
Qed.

Lemma lookup_unindex_keys (keys : list str) (idx : gmap str str) (k : str) :
  Contacts.unindex_keys keys idx !! k
  = if decide (k ∈ keys) then None else idx !! k.
Proof.
  unfold Contacts.unindex_keys. revert idx.
  induction keys as [|k0 keys IH]; intros idx.
  - cbn [fold_left]. case_decide as H; [by apply elem_of_nil in H | done].
  - cbn [fold_left]. rewrite IH.
    destruct (decide (k ∈ keys)) as [Hin|Hnin].
    + rewrite decide_True; [done | by right].
    + destruct (decide (k = k0)) as [->|Hne].
      * rewrite decide_True by left. apply lookup_delete_eq.
      * rewrite decide_False by (rewrite elem_of_cons; tauto).
        by apply lookup_delete_ne.
Qed.





Lemma truthy_Some_ne (s : str) : truthy (Some s) = true <-> s <> [].
Proof. destruct s; simpl; split; congruence. Qed.

(** The two ways through [upsert]. *)
Lemma upsert_cases data uuid now st :
  (exists cid c,
      existing_id_of data st = Some cid /\ cid <> []
      /\ dict_get cid (_contacts st) = Some c
      /\ upsert data uuid now st =
         (merged data now c,
          mkCache (dict_set cid (merged data now c) (_contacts st))
            (index_keys (phone_keys (merged data now c)) (id c)
               (unindex_keys (phone_keys c) (_phone_index st)))
            (index_keys (email_keys (merged data now c)) (id c)
               (unindex_keys (email_keys c) (_email_index st)))))
  \/ ((forall cid, existing_id_of data st = Some cid -> cid <> [] ->
         dict_get cid (_contacts st) = None)
      /\ upsert data uuid now st =
         (created data uuid now,
          mkCache (dict_set uuid (created data uuid now) (_contacts st))
            (index_keys (phone_keys (created data uuid now)) uuid
               (_phone_index st))
            (index_keys (email_keys (created data uuid now)) uuid
               (_email_index st)))).
Proof.
  unfold upsert.
  destruct (existing_id_of data st) as [cid|] eqn:He.
  - destruct (truthy (Some cid)) eqn:Ht.
    + destruct (dict_get cid (_contacts st)) as [c|] eqn:Hg.
      * left. exists cid, c. apply truthy_Some_ne in Ht. done.
      * right. split; [|done]. by intros ? [= <-] _.
    + right. split; [|done]. intros ? [= <-] Hne.
      apply truthy_Some_ne in Hne. congruence.
  - right. split; [|done]. by intros ? [=].
Qed.

Lemma elem_of_set_union (old new : list str) (x : str) :
  x ∈ set_union old new <-> x ∈ old \/ x ∈ new.
Proof. unfold set_union. by rewrite elem_of_remove_dups, elem_of_app. Qed.

Lemma NoDup_set_union (old new : list str) : NoDup (set_union old new).
Proof. apply NoDup_remove_dups. Qed.

Lemma phone_keys_merged data now c k :
  k ∈ phone_keys c -> k ∈ phone_keys (merged data now c).
Proof.
  unfold phone_keys. simpl. rewrite !list_elem_of_fmap.
  intros (p & -> & Hp). exists p. split; [done|].
  apply elem_of_set_union. by left.
Qed.

Lemma email_keys_merged data now c k :
  k ∈ email_keys c -> k ∈ email_keys (merged data now c).
Proof.
  unfold email_keys. simpl. rewrite !list_elem_of_fmap.
  intros (p & -> & Hp). exists p. split; [done|].
  apply elem_of_set_union. by left.
Qed.

Section IndexSound.
Variable keys : Contact -> list str.

Lemma index_sound_update idx d pi ei pi' ei' cid c c' :
  index_sound keys idx (mkCache d pi ei) ->
  dict_get cid d = Some c ->
  index_sound keys (index_keys (keys c') cid (unindex_keys (keys c) idx))
    (mkCache (dict_set cid c' d) pi' ei').
Proof.
  intros Hs Hg k j. simpl. rewrite lookup_index_keys.
  destruct (decide (k ∈ keys c')) as [Hin|Hnin].
  - intros [= <-]. exists c'. by rewrite dict_get_set_eq.
  - rewrite lookup_unindex_keys. destruct (decide (k ∈ keys c)); [done|].
    intros Hk. destruct (Hs k j Hk) as (c2 & Hc2 & Hk2). simpl in Hc2.
    destruct (decide (cid = j)) as [->|Hne]; [congruence|].
    exists c2. by rewrite dict_get_set_ne.
Qed.

Lemma index_sound_create idx d pi ei pi' ei' uuid c' :
  index_sound keys idx (mkCache d pi ei) ->
  dict_get uuid d = None ->
  index_sound keys (index_keys (keys c') uuid idx)
    (mkCache (dict_set uuid c' d) pi' ei').
Proof.
  intros Hs Hg k j. simpl. rewrite lookup_index_keys.
  destruct (decide (k ∈ keys c')) as [Hin|Hnin].
  - intros [= <-]. exists c'. by rewrite dict_get_set_eq.
  - intros Hk. destruct (Hs k j Hk) as (c2 & Hc2 & Hk2). simpl in Hc2.
    destruct (decide (uuid = j)) as [->|Hne]; [congruence|].
    exists c2. by rewrite dict_get_set_ne.
Qed.

Lemma index_sound_delete idx d pi ei pi' ei' cid c :
  index_sound keys idx (mkCache d pi ei) ->
  dict_get cid d = Some c ->
  index_sound keys (unindex_keys (keys c) idx)
    (mkCache (dict_del cid d) pi' ei').
Proof.
  intros Hs Hg k j. simpl. rewrite lookup_unindex_keys.
  destruct (decide (k ∈ keys c)); [done|].
  intros Hk. destruct (Hs k j Hk) as (c2 & Hc2 & Hk2). simpl in Hc2.
  destruct (decide (cid = j)) as [->|Hne]; [congruence|].
  exists c2. by rewrite dict_get_del_ne.
Qed.

End IndexSound.

Lemma index_sound_irrel keys idx d pi ei pi' ei' :
  index_sound keys idx (mkCache d pi ei) ->
  index_sound keys idx (mkCache d pi' ei').
Proof. done. Qed.

Lemma wf_empty : wf empty_cache.
Proof. split; simpl; try done. apply NoDup_nil_2. Qed.

Lemma wf_upsert data uuid now st :
  wf st -> uuid <> [] -> dict_get uuid (_contacts st) = None ->
  wf (upsert data uuid now st).2.
Proof.
  intros [Hnd Hids Hp He] Hne Hfresh. destruct st as [d pi ei]. simpl in *.
  destruct (upsert_cases data uuid now (mkCache d pi ei))
    as [(cid & c & _ & Hcid & Hg & ->) | [_ ->]]; simpl in *.
  - destruct (Hids _ _ Hg) as [Hid _]. rewrite Hid. split; simpl.
    + by apply dict_keys_set_NoDup.
    + intros j c2. destruct (decide (cid = j)) as [<-|Hj].
      * rewrite dict_get_set_eq. by intros [= <-].
      * rewrite dict_get_set_ne by done. apply Hids.
    + by eapply index_sound_update.
    + by eapply index_sound_update.
  - split; simpl.
    + by apply dict_keys_set_NoDup.
    + intros j c2. destruct (decide (uuid = j)) as [<-|Hj].
      * rewrite dict_get_set_eq. by intros [= <-].
      * rewrite dict_get_set_ne by done. apply Hids.
    + by eapply index_sound_create.
    + by eapply index_sound_create.
Qed.

Lemma wf_delete contact_id st : wf st -> wf (delete contact_id st).2.
Proof.
  intros [Hnd Hids Hp He]. destruct st as [d pi ei]. unfold delete. simpl in *.
  destruct (dict_get contact_id d) as [c|] eqn:Hg; simpl; [|done].
  split; simpl.
  - by apply dict_keys_del_NoDup.
  - intros j c2. destruct (decide (contact_id = j)) as [<-|Hj].
    + by rewrite dict_get_del_eq.
    + rewrite dict_get_del_ne by done. apply Hids.
  - by eapply index_sound_delete.
  - by eapply index_sound_delete.
Qed.

Lemma wf_clear st : wf (clear st).2.
Proof. apply wf_empty. Qed.

Lemma reachable_wf st : reachable st -> wf st.
Proof.
  induction 1 as [|st data uuid now _ IH Hne Hfresh|st cid _ IH|st _ _].
  - apply wf_empty.
  - by apply wf_upsert.
  - by apply wf_delete.
  - apply wf_clear.
Qed.

(** ** What an upsert leaves behind *)

Lemma upsert_indexed data uuid now st :
  wf st ->
  let r := upsert data uuid now st in
  dict_get (id r.1) (_contacts r.2) = Some r.1
  /\ indexed_as phone_keys (_phone_index r.2) r.1
  /\ indexed_as email_keys (_email_index r.2) r.1.
Proof.
  intros Hwf.
  destruct (upsert_cases data uuid now st)
    as [(cid & c & _ & Hcid & Hg & ->) | [_ ->]]; simpl.
  - destruct (wf_ids _ Hwf _ _ Hg) as [Hid _].
    split; [rewrite Hid; apply dict_get_set_eq|].
    split; intros k Hk; cbn [_phone_index _email_index snd fst];
      rewrite lookup_index_keys; by rewrite decide_True.
  - split; [apply dict_get_set_eq|].
    split; intros k Hk; cbn [_phone_index _email_index snd fst];
      rewrite lookup_index_keys; by rewrite decide_True.
Qed.

Lemma index_sound_points keys idx st :
  index_sound keys idx st -> index_points_to_contacts idx st.
Proof. intros Hs k cid Hk. destruct (Hs k cid Hk) as (c & -> & _). by eexists. Qed.

(** ** The first indexed key *)

Lemma first_indexed_Some idx keys cid :
  first_indexed idx keys = Some cid <-> first_hit idx keys cid.
Proof.
  induction keys as [|k keys IH]; simpl.
  - split; [done|]. intros (l1 & k & l2 & H & _). by destruct l1.
  - destruct (idx !! k) as [j|] eqn:Hk.
    + split.
      * intros [= ->]. exists [], k, keys. split; [done|]. split; [|done].
        intros q Hq. by apply elem_of_nil in Hq.
      * intros (l1 & k' & l2 & Heq & Hl1 & Hk').
        destruct l1 as [|q l1]; simpl in Heq; injection Heq as -> ->.
        -- congruence.
        -- rewrite Hl1 in Hk by left. done.
    + rewrite IH. split.
      * intros (l1 & k' & l2 & -> & Hl1 & Hk').
        exists (k :: l1), k', l2. split; [done|]. split; [|done].
        intros q [->|Hq]%elem_of_cons; auto.
      * intros (l1 & k' & l2 & Heq & Hl1 & Hk').
        destruct l1 as [|q l1]; simpl in Heq; injection Heq as -> ->.
        -- congruence.
        -- exists l1, k', l2. split; [done|]. split; [|done].
           intros q' Hq'. apply Hl1. by right.
Qed.

Lemma first_indexed_None idx keys :
  first_indexed idx keys = None <-> forall k, k ∈ keys -> idx !! k = None.
Proof.
  induction keys as [|k keys IH]; simpl.
  - split; [|done]. intros _ k Hk. by apply elem_of_nil in Hk.
  - destruct (idx !! k) as [j|] eqn:Hk.
    + split; [done|]. intros H. rewrite H in Hk by left. done.
    + rewrite IH. split.
      * intros H q [->|Hq]%elem_of_cons; auto.
      * intros H q Hq. apply H. by right.
Qed.

Lemma first_hit_indexed idx keys cid :
  first_hit idx keys cid -> exists k, idx !! k = Some cid.
Proof. intros (_ & k & _ & _ & _ & Hk). eauto. Qed.

Lemma first_hit_fun idx keys cid cid' :
  first_hit idx keys cid -> first_hit idx keys cid' -> cid = cid'.
Proof. rewrite <- !first_indexed_Some. congruence. Qed.

Lemma wf_phone_id st k cid :
  wf st -> _phone_index st !! k = Some cid ->
  cid <> [] /\ exists c, dict_get cid (_contacts st) = Some c /\ id c = cid.
Proof.
  intros Hwf Hk. destruct (wf_phone _ Hwf k cid Hk) as (c & Hc & _).
  destruct (wf_ids _ Hwf _ _ Hc). eauto.
Qed.

Lemma wf_email_id st k cid :
  wf st -> _email_index st !! k = Some cid ->
  cid <> [] /\ exists c, dict_get cid (_contacts st) = Some c /\ id c = cid.
Proof.
  intros Hwf Hk. destruct (wf_email _ Hwf k cid Hk) as (c & Hc & _).
  destruct (wf_ids _ Hwf _ _ Hc). eauto.
Qed.

(** On a well-formed cache the lookup loops of [upsert] find exactly the
    contact the request matches. *)
Lemma existing_id_of_matches data st cid :
  wf st -> existing_id_of data st = Some cid <-> matches data st cid.
Proof.
  intros Hwf. unfold existing_id_of, matches.
  destruct (first_indexed (_phone_index st) _) as [j|] eqn:Hp.
  - pose proof Hp as Hhit. apply first_indexed_Some in Hhit.
    destruct (first_hit_indexed _ _ _ Hhit) as [k Hk].
    destruct (wf_phone_id _ _ _ Hwf Hk) as [Hj _].
    apply truthy_Some_ne in Hj. rewrite Hj. split.
    + intros [= <-]. by left.
    + intros [H | [Hnone _]].
      * f_equal. by eapply first_hit_fun.
      * apply first_indexed_None in Hnone. congruence.
  - simpl. pose proof Hp as Hnone. rewrite first_indexed_None in Hnone.
    destruct (first_indexed (_email_index st) _) as [j|] eqn:He.
    + apply first_indexed_Some in He. split.
      * intros [= <-]. by right.
      * intros [H | [_ H]].
        -- apply first_indexed_Some in H. congruence.
        -- f_equal. by eapply first_hit_fun.
    + split; [done|]. intros [H | [_ H]]; apply first_indexed_Some in H; congruence.
Qed.

Lemma upsert_of_match data uuid now st cid :
  wf st -> matches data st cid ->
  exists old, dict_get cid (_contacts st) = Some old /\ id old = cid
    /\ (upsert data uuid now st).1 = merged data now old
    /\ dict_get cid (_contacts (upsert data uuid now st).2)
       = Some (merged data now old).
Proof.
  intros Hwf Hm. pose proof Hm as He. apply existing_id_of_matches in He; [|done].
  assert (cid <> [] /\ exists c, dict_get cid (_contacts st) = Some c /\ id c = cid)
    as (Hne & old & Hold & Hid).
  { destruct Hm as [H | [_ H]]; destruct (first_hit_indexed _ _ _ H) as [k Hk].
    - by eapply wf_phone_id.
    - by eapply wf_email_id. }
  exists old. split; [done|]. split; [done|].
  destruct (upsert_cases data uuid now st)
    as [(cid' & c & He' & _ & Hg & ->) | [Hnone _]]; simpl.
  - assert (cid' = cid) as -> by congruence.
    assert (c = old) as -> by congruence.
    split; [done|]. apply dict_get_set_eq.
  - rewrite (Hnone cid He Hne) in Hold. done.
Qed.

Lemma upsert_of_no_match data uuid now st :
  wf st -> (forall cid, ~ matches data st cid) ->
  (upsert data uuid now st).1 = created data uuid now
  /\ dict_get uuid (_contacts (upsert data uuid now st).2)
     = Some (created data uuid now).
Proof.
  intros Hwf Hno.
  destruct (upsert_cases data uuid now st)
    as [(cid' & c & He' & _ & Hg & _) | [_ ->]]; simpl.
  - apply existing_id_of_matches in He'; [|done]. by apply Hno in He'.
  - split; [done|]. apply dict_get_set_eq.
Qed.


Lemma reachable_three_upserts : reachable three_upserts.
Proof.
  unfold three_upserts.
  repeat (apply reach_upsert; [| by vm_compute | by vm_compute]).
  apply reach_empty.
Qed.

(** C1, as stated, fails: after Ann (phone 111) and Bob (phone 222) are
    stored, an upsert of the phones 222, 111 matches Bob by the first phone
    and indexes 111 to Bob, so that Ann's phone no longer maps to Ann. *)
Lemma index_consistent_counterexample :
  reachable three_upserts /\ ~ index_consistent three_upserts.
Proof.
  split; [apply reachable_three_upserts|].
  intros (_ & _ & Hp & _).
  specialize (Hp (py "id-a") (mkContact (py "id-a") (Some (py "Ann")) [py "111"] [] [] 1 1)).
  specialize (Hp eq_refl (py "111")).
  assert (three_upserts.(_phone_index) !! py "111" = Some (py "id-b")) as Hb
    by (by vm_compute).
  rewrite Hb in Hp. 
  assert (py "111" ∈ phone_keys (mkContact (py "id-a") (Some (py "Ann")) [py "111"] [] [] 1 1)) as Hin
    by (vm_compute; left).
  specialize (Hp Hin). by vm_compute in Hp.
Qed.

(** C1, amended: in every reachable state each entry of the phone index and
    of the email index names a contact that is stored and that has a phone
    (an email) with that key; and right after any upsert the contact it
    returns is stored under its identifier with all its normalized phones
    and lowercased emails indexed to it. *)
Theorem index_sound_reachable st :
  reachable st ->
  index_points_to_contacts (_phone_index st) st
  /\ index_points_to_contacts (_email_index st) st
  /\ index_sound phone_keys (_phone_index st) st
  /\ index_sound email_keys (_email_index st) st
  /\ forall data uuid now,
       let r := upsert data uuid now st in
       dict_get (id r.1) (_contacts r.2) = Some r.1
       /\ indexed_as phone_keys (_phone_index r.2) r.1
       /\ indexed_as email_keys (_email_index r.2) r.1.
Proof.
  intros Hr. apply reachable_wf in Hr. pose proof Hr as [_ _ Hp He].
  split; [by eapply index_sound_points|].
  split; [by eapply index_sound_points|].
  split; [done|]. split; [done|].
  intros data uuid now. by apply upsert_indexed.
Qed.

Lemma index_sound_reachable_witness :
  reachable three_upserts
  /\ index_sound phone_keys (_phone_index three_upserts) three_upserts.
Proof.
  split; [apply reachable_three_upserts|].
  apply (index_sound_reachable three_upserts reachable_three_upserts).
Defined.

(** *** Upsert *)

Lemma matches_after_upsert data uuid now st data2 p rest :
  wf st -> up_phones data2 = p :: rest -> p ∈ up_phones data ->
  matches data2 (upsert data uuid now st).2 (id (upsert data uuid now st).1).
Proof.
  intros Hwf Hp2 Hp.
  destruct (upsert_indexed data uuid now st Hwf) as (_ & Hidx & _).
  left. rewrite Hp2. exists [], (_normalize_phone p), (List.map _normalize_phone rest).
  split; [done|]. split; [intros q Hq; by apply elem_of_nil in Hq|].
  apply Hidx. unfold phone_keys. apply list_elem_of_fmap. exists p. split; [done|].
  destruct (upsert_cases data uuid now st)
    as [(cid & c & _ & _ & _ & ->) | [_ ->]]; simpl; [|done].
  apply elem_of_set_union. by right.
Qed.




Lemma reachable_john_doe : reachable john_doe_cache.
Proof. apply reach_upsert; [apply reach_empty | by vm_compute | by vm_compute]. Qed.

Lemma reachable_two_johns : reachable two_johns_cache.
Proof.
  apply reach_upsert; [apply reachable_john_doe | by vm_compute | by vm_compute].
Qed.


(** *** Resolve *)



Lemma filter_bool_Prop {A} (f : A -> bool) (P : A -> Prop)
    `{!forall x, Decision (P x)} (l : list A) :
  (forall x, f x = true <-> P x) -> List.filter f l = filter P l.
Proof.
  intros Hf. induction l as [|x l IH]; [done|].
  simpl. rewrite filter_cons. destruct (decide (P x)) as [HP|HP].
  - apply Hf in HP. rewrite HP. by f_equal.
  - destruct (f x) eqn:Hfx; [|done]. apply Hf in Hfx. done.
Qed.

Lemma lower_nil_inv (s : str) : lower s = [] -> s = [].
Proof. by destruct s. Qed.

Lemma find_nil_in (s : str) : s <> [] -> find [] s = None.
Proof. by destruct s. Qed.

Lemma exact_name_spec query c :
  query <> [] -> exact_name (lower query) c = true <-> name_is query c.
Proof.
  intros Hq. unfold exact_name, name_is. destruct (name c) as [n|].
  - rewrite andb_true_iff, bool_decide_eq_true, truthy_Some_ne. split.
    + intros [_ H]. eauto.
    + intros (m & [= <-] & Hm). split; [|done].
      intros ->. symmetry in Hm. by apply lower_nil_inv in Hm.
  - split; [done|]. by intros (m & Hm & _).
Qed.

Lemma substring_name_spec query c :
  query <> [] ->
  substring_name (lower query) c = true <-> name_or_alias_has query c.
Proof.
  intros Hq. unfold substring_name, name_or_alias_has.
  rewrite orb_true_iff.
  assert ((match name c with
           | Some n => truthy (Some n) && contains (lower n) (lower query)
           | None => false
           end = true)
          <-> exists n, name c = Some n /\ is_Some (find (lower n) (lower query)))
    as ->.
  { destruct (name c) as [n|].
    - rewrite andb_true_iff, truthy_Some_ne. unfold contains.
      rewrite bool_decide_eq_true. split.
      + intros [_ H]. eauto.
      + intros (m & [= <-] & Hm). split; [|done].
        intros ->.
        assert (find (lower []) (lower query) = None) as E
          by (apply find_nil_in; intros H; by apply lower_nil_inv in H).
        rewrite E in Hm. by destruct Hm.
    - split; [done|]. by intros (m & Hm & _). }
  assert (existsb (fun alias => contains (lower alias) (lower query)) (aliases c) = true
          <-> exists a, a ∈ aliases c /\ is_Some (find (lower a) (lower query)))
    as ->; [|done].
  rewrite existsb_exists. unfold contains. split.
  - intros (a & Ha & H). apply bool_decide_eq_true in H.
    exists a. by rewrite list_elem_of_In.
  - intros (a & Ha & H). exists a. rewrite <- list_elem_of_In.
    by rewrite bool_decide_eq_true.
Qed.

Lemma of_matches_cases (l : list Contact) :
  (l = [] /\ of_matches l = None)
  \/ (exists c, l = [c] /\ of_matches l = Some (mkResult ok (Some c) []))
  \/ ((1 < length l)%nat /\ of_matches l = Some (mkResult ambiguous None l)).
Proof.
  destruct l as [|c [|c' l]]; simpl.
  - by left.
  - right. left. by exists c.
  - right. right. split; [lia|done].
Qed.

Lemma index_hit_Some idx key cid st c :
  idx !! key = Some cid -> cid <> [] -> dict_get cid (_contacts st) = Some c ->
  index_hit idx key st = Some c.
Proof.
  intros Hk Hne Hc. unfold index_hit. rewrite Hk.
  apply truthy_Some_ne in Hne. by rewrite Hne.
Qed.

Lemma index_hit_None idx key st :
  idx !! key = None -> index_hit idx key st = None.
Proof. intros Hk. unfold index_hit. by rewrite Hk. Qed.



(** C10: with no phone, no email and no name (each [None] or empty),
    [resolve] returns not found, no contact and no candidate, whatever the
    cache holds, and leaves the cache as it was. *)
Theorem resolve_nothing st phone email name :
  truthy phone = false -> truthy email = false -> truthy name = false ->
  resolve phone email name st = (mkResult not_found None [], st).
Proof.
  intros Hp He Hn. unfold resolve.
  destruct phone as [[|? ?]|], email as [[|? ?]|], name as [[|? ?]|];
    simpl in *; congruence.
Qed.

Lemma resolve_nothing_witness :
  truthy (Some []) = false /\ truthy None = false
  /\ resolve (Some []) None (Some []) two_johns_cache
     = (mkResult not_found None [], two_johns_cache).
Proof.
  split; [reflexivity|]. split; [reflexivity|].
  apply (resolve_nothing two_johns_cache (Some []) None (Some []));
    reflexivity.
Defined.

(** ** Regular expressions: the search and what it finds *)

(** Case analysis on the comparisons of a goal about character codes. *)
Ltac char_cases :=
  repeat match goal with
    | |- context [(?a <=? ?b)] => destruct (N.leb_spec a b); simpl; try lia
    | |- context [(?a =? ?b)] => destruct (N.eqb_spec a b); simpl; try lia
    | H : context [(?a <=? ?b)] |- _ =>
        destruct (N.leb_spec a b); simpl in H; try lia
    | H : context [(?a =? ?b)] |- _ =>
        destruct (N.eqb_spec a b); simpl in H; try lia
    end; try done; try lia.

Section ReFacts.
Import Re.

Lemma lastp_nil prev : lastp prev [] = prev.
Proof. done. Qed.

Lemma lastp_cons prev c w : lastp prev (c :: w) = lastp (Some c) w.
Proof.
  unfold lastp. destruct w as [|d w]; [done|].
  change (last (c :: d :: w)) with (last (d :: w)).
  by destruct (last (d :: w)) eqn:E; [|apply last_None in E].
Qed.

Lemma lastp_app prev w1 w2 : lastp prev (w1 ++ w2) = lastp (lastp prev w1) w2.
Proof.
  revert prev. induction w1 as [|c w1 IH]; intros prev; [done|].
  simpl. by rewrite !lastp_cons, IH.
Qed.

Lemma lastp_snoc prev w c : lastp prev (w ++ [c]) = Some c.
Proof. by rewrite lastp_app. Qed.

Lemma lastp_ne prev a : a <> [] -> lastp prev a = last a.
Proof.
  intros Ha. unfold lastp. destruct (last a) eqn:E; [done|].
  by apply last_None in E.
Qed.

Lemma lookup_last_app (a b : str) :
  a <> [] -> (a ++ b) !! (length a - 1)%nat = last a.
Proof.
  intros Ha. rewrite lookup_app_l by (destruct a; simpl in *; [done | lia]).
  rewrite last_lookup. f_equal. lia.
Qed.

Lemma word_hd_app_ne (w rest rest' : str) :
  w <> [] -> word_hd (w ++ rest) = word_hd (w ++ rest').
Proof. by destruct w. Qed.

Lemma eat_spec test p q :
  q ∈ eat test p <->
  exists c s', after p = c :: s' /\ test c = true
               /\ q = mkPos (Some c) s' (groups p).
Proof.
  unfold eat. destruct (after p) as [|c s'].
  - split; [by intros ?%elem_of_nil | by intros (? & ? & ? & _)].
  - destruct (test c) eqn:Ht.
    + rewrite list_elem_of_singleton. split.
      * intros ->. by exists c, s'.
      * by intros (? & ? & [= <- <-] & _ & ->).
    + split; [by intros ?%elem_of_nil|].
      intros (? & ? & [= <- <-] & ? & _). congruence.
Qed.

Lemma spans_nil p : spans p p [].
Proof. done. Qed.

Lemma spans_app p q o w1 w2 : spans p q w1 -> spans q o w2 -> spans p o (w1 ++ w2).
Proof.
  intros [H1 H2] [H3 H4]. split.
  - by rewrite H1, H3, app_assoc.
  - by rewrite H4, H2, lastp_app.
Qed.

Lemma spans_eat p c s' g : after p = c :: s' -> spans p (mkPos (Some c) s' g) [c].
Proof. intros H. split; simpl; [done|]. by rewrite lastp_cons. Qed.

Section RepSound.
Variable step : pos -> list pos.
Variable Mstep : option N -> str -> str -> Prop.
Hypothesis step_sound : forall p q,
  q ∈ step p -> exists w, spans p q w /\ Mstep (before p) w (after q).

Lemma rep_upto_sound extra p q :
  q ∈ rep_upto step extra p ->
  exists k w, (k <= extra)%nat /\ spans p q w
              /\ iter Mstep k (before p) w (after q).
Proof.
  revert p. induction extra as [|e IH]; intros p; simpl.
  - intros ->%list_elem_of_singleton. exists 0%nat, []. done.
  - rewrite elem_of_app, list_elem_of_bind, list_elem_of_singleton.
    intros [(p1 & Hq & Hp1) | ->].
    + destruct (step_sound _ _ Hp1) as (w1 & Hs1 & HM1).
      destruct (IH _ Hq) as (k & w2 & Hk & Hs2 & HM2).
      exists (S k), (w1 ++ w2). split; [lia|]. split; [by eapply spans_app|].
      simpl. exists w1, w2. split; [done|].
      destruct Hs1 as [_ Hb1], Hs2 as [Ha2 _].
      rewrite <- Ha2. split; [done|]. by rewrite <- Hb1.
    + exists 0%nat, []. split; [lia|]. done.
Qed.

Lemma rep_sound lo extra p q :
  q ∈ rep step lo extra p ->
  exists k w, (lo <= k <= lo + extra)%nat /\ spans p q w
              /\ iter Mstep k (before p) w (after q).
Proof.
  revert p. induction lo as [|lo IH]; intros p; simpl.
  - intros (k & w & Hk & H)%rep_upto_sound. exists k, w. split; [lia|done].
  - rewrite list_elem_of_bind. intros (p1 & Hq & Hp1).
    destruct (step_sound _ _ Hp1) as (w1 & Hs1 & HM1).
    destruct (IH _ Hq) as (k & w2 & Hk & Hs2 & HM2).
    exists (S k), (w1 ++ w2). split; [lia|]. split; [by eapply spans_app|].
    simpl. exists w1, w2. split; [done|].
    destruct Hs1 as [_ Hb1], Hs2 as [Ha2 _].
    rewrite <- Ha2. split; [done|]. by rewrite <- Hb1.
Qed.

End RepSound.

(** Every position the search lists is the end of a match. *)
Lemma ends_sound ic r p q :
  q ∈ ends ic r p ->
  exists w, spans p q w /\ Mt ic r (before p) w (after q).
Proof.
  revert p q. induction r as [|c|neg l| |r1 IH1 r2 IH2|r1 IH1 r2 IH2
                              |r IH lo hi| | | |i r IH]; intros p q; simpl.
  - intros ->%list_elem_of_singleton. exists []. split; [apply spans_nil | done].
  - intros (c' & s' & Ha & Ht & ->)%eat_spec. exists [c'].
    split; [by apply spans_eat|]. by exists c'.
  - intros (c' & s' & Ha & Ht & ->)%eat_spec. exists [c'].
    split; [by apply spans_eat|]. by exists c'.
  - intros (c' & s' & Ha & Ht & ->)%eat_spec. exists [c'].
    split; [by apply spans_eat|]. by exists c'.
  - rewrite list_elem_of_bind. intros (p1 & Hq & Hp1).
    destruct (IH1 _ _ Hp1) as (w1 & Hs1 & HM1).
    destruct (IH2 _ _ Hq) as (w2 & Hs2 & HM2).
    exists (w1 ++ w2). split; [by eapply spans_app|].
    exists w1, w2. split; [done|].
    destruct Hs1 as [_ Hb1], Hs2 as [Ha2 _].
    rewrite <- Ha2. split; [done|]. by rewrite <- Hb1.
  - rewrite elem_of_app. intros [H|H].
    + destruct (IH1 _ _ H) as (w & Hs & HM). exists w. split; [done|]. by left.
    + destruct (IH2 _ _ H) as (w & Hs & HM). exists w. split; [done|]. by right.
  - intros H. apply (rep_sound _ (Mt ic r)) in H; [|by apply IH].
    destruct H as (k & w & Hk & Hs & HM). exists w. split; [done|].
    exists k. split; [lia|]. split; [|done].
    intros h ->. lia.
  - destruct (xorb _ _) eqn:E.
    + intros ->%list_elem_of_singleton. exists [].
      split; [apply spans_nil|]. split; [done|]. destruct p as [[?|] [|? ?] ?]; exact E.
    + by intros ?%elem_of_nil.
  - destruct (before p) eqn:E.
    + by intros ?%elem_of_nil.
    + intros ->%list_elem_of_singleton. exists [].
      split; [apply spans_nil | done].
  - destruct (after p) as [|c [|d s]] eqn:E.
    + intros ->%list_elem_of_singleton. exists [].
      split; [apply spans_nil|]. rewrite E. auto.
    + destruct c as [|c]; [by intros ?%elem_of_nil|].
      do 4 (destruct c as [c|c|]; try by intros ?%elem_of_nil).
      intros ->%list_elem_of_singleton. exists [].
      split; [apply spans_nil|]. rewrite E. auto.
    + destruct c as [|c]; [by intros ?%elem_of_nil|].
      do 4 (destruct c as [c|c|]; try by intros ?%elem_of_nil).
  - rewrite list_elem_of_fmap. intros (q' & -> & Hq').
    destruct (IH _ _ Hq') as (w & Hs & HM). exists w. done.
Qed.

(** A match is at least as long as [min_len] says. *)
Lemma iter_min_len (step : option N -> str -> str -> Prop) (m : nat) :
  (forall prev w rest, step prev w rest -> (m <= length w)%nat) ->
  forall k prev w rest, iter step k prev w rest -> (k * m <= length w)%nat.
Proof.
  intros Hstep. induction k as [|k IH]; intros prev w rest; simpl.
  - lia.
  - intros (w1 & w2 & -> & H1 & H2). rewrite length_app.
    apply Hstep in H1. apply IH in H2. lia.
Qed.

Lemma Mt_min_len ic r prev w rest :
  Mt ic r prev w rest -> (min_len r <= length w)%nat.
Proof.
  revert prev w rest. induction r as [|c|neg l| |r1 IH1 r2 IH2|r1 IH1 r2 IH2
                                      |r IH lo hi| | | |i r IH];
    intros prev w rest; simpl.
  - lia.
  - by intros (x & -> & _).
  - by intros (x & -> & _).
  - by intros (x & -> & _).
  - intros (w1 & w2 & -> & H1 & H2). rewrite length_app.
    apply IH1 in H1. apply IH2 in H2. lia.
  - intros [H|H]; [apply IH1 in H | apply IH2 in H]; lia.
  - intros (k & Hk & _ & H). apply (iter_min_len _ (min_len r)) in H; [|done].
    nia.
  - lia.
  - lia.
  - lia.
  - apply IH.
Qed.

Section RepComplete.
Variable step : pos -> list pos.
Variable Mstep : option N -> str -> str -> Prop.
Hypothesis step_complete : forall prev w rest g,
  Mstep prev w rest ->
  exists g', mkPos (lastp prev w) rest g' ∈ step (mkPos prev (w ++ rest) g).

Lemma rep_upto_complete extra k prev w rest g :
  iter Mstep k prev w rest -> (k <= extra)%nat ->
  exists g', mkPos (lastp prev w) rest g'
             ∈ rep_upto step extra (mkPos prev (w ++ rest) g).
Proof.
  revert k prev w g. induction extra as [|e IH]; intros k prev w g Hiter Hk.
  - assert (k = 0%nat) as -> by lia. simpl in Hiter. subst w.
    exists g. simpl. by apply list_elem_of_singleton.
  - destruct k as [|k]; simpl in Hiter.
    + subst w. exists g. simpl. apply elem_of_app. right.
      by apply list_elem_of_singleton.
    + destruct Hiter as (w1 & w2 & -> & H1 & H2).
      destruct (step_complete _ _ _ g H1) as [g1 Hg1].
      destruct (IH k _ _ g1 H2 ltac:(lia)) as [g2 Hg2].
      exists g2. simpl. apply elem_of_app. left. apply list_elem_of_bind.
      eexists. rewrite <- app_assoc. split; [|exact Hg1].
      by rewrite lastp_app.
Qed.

Lemma rep_complete lo extra k prev w rest g :
  iter Mstep k prev w rest -> (lo <= k <= lo + extra)%nat ->
  exists g', mkPos (lastp prev w) rest g'
             ∈ rep step lo extra (mkPos prev (w ++ rest) g).
Proof.
  revert k prev w g. induction lo as [|lo IH]; intros k prev w g Hiter Hk.
  - simpl. apply (rep_upto_complete extra k); [done | lia].
  - destruct k as [|k]; [lia|]. simpl in Hiter.
    destruct Hiter as (w1 & w2 & -> & H1 & H2).
    destruct (step_complete _ _ _ g H1) as [g1 Hg1].
    destruct (IH k _ _ g1 H2 ltac:(lia)) as [g2 Hg2].
    exists g2. simpl. apply list_elem_of_bind.
    eexists. rewrite <- app_assoc. split; [|exact Hg1].
    by rewrite lastp_app.
Qed.

End RepComplete.

(** Every match is the end of one of the positions the search lists. *)
Lemma ends_complete ic r prev w rest g :
  productive r = true -> Mt ic r prev w rest ->
  exists g', mkPos (lastp prev w) rest g' ∈ ends ic r (mkPos prev (w ++ rest) g).
Proof.
  revert prev w rest g.
  induction r as [|c|neg l| |r1 IH1 r2 IH2|r1 IH1 r2 IH2
                  |r IH lo hi| | | |i r IH];
    intros prev w rest g Hprod; simpl.
  - intros ->. exists g. by apply list_elem_of_singleton.
  - intros (x & -> & Hx). exists g. apply eat_spec. exists x, rest. done.
  - intros (x & -> & Hx). exists g. apply eat_spec. exists x, rest. done.
  - intros (x & -> & Hx). exists g. apply eat_spec. exists x, rest. done.
  - simpl in Hprod. apply andb_true_iff in Hprod as [Hp1 Hp2].
    intros (w1 & w2 & -> & H1 & H2).
    destruct (IH1 _ _ _ g Hp1 H1) as [g1 Hg1].
    destruct (IH2 _ _ _ g1 Hp2 H2) as [g2 Hg2].
    exists g2. apply list_elem_of_bind. eexists. rewrite <- app_assoc.
    split; [|exact Hg1]. by rewrite lastp_app.
  - simpl in Hprod. apply andb_true_iff in Hprod as [Hp1 Hp2].
    intros [H|H].
    + destruct (IH1 _ _ _ g Hp1 H) as [g1 Hg1]. exists g1.
      apply elem_of_app. by left.
    + destruct (IH2 _ _ _ g Hp2 H) as [g1 Hg1]. exists g1.
      apply elem_of_app. by right.
  - cbn [productive] in Hprod. apply andb_true_iff in Hprod as [Hp Hmin].
    apply Nat.leb_le in Hmin.
    intros (k & Hlo & Hhi & Hiter).
    apply (rep_complete _ (Mt ic r)) with (k := k); [|done|].
    + intros. by apply IH.
    + split; [done|]. destruct hi as [h|]; [by apply Hhi|].
      apply (iter_min_len _ (min_len r)) in Hiter;
        [|intros; by eapply Mt_min_len].
      rewrite length_app. nia.
  - intros [-> H]. exists g.
    destruct rest as [|c rest];
      [change (mkPos prev [] g
               ∈ if xorb (wordo prev) (word_hd [])
                 then [mkPos prev [] g] else [])
      |change (mkPos prev (c :: rest) g
               ∈ if xorb (wordo prev) (word_hd (c :: rest))
                 then [mkPos prev (c :: rest) g] else [])];
      rewrite H; by apply list_elem_of_singleton.
  - intros [-> ->]. exists g. by apply list_elem_of_singleton.
  - intros [-> [-> | ->]]; exists g; by apply list_elem_of_singleton.
  - simpl in Hprod. intros H. destruct (IH _ _ _ g Hprod H) as [g1 Hg1].
    eexists. apply list_elem_of_fmap. eexists. split; [|exact Hg1]. done.
Qed.

(** *** Characters *)

Lemma is_word_lower c : is_word (lower_char c) = is_word c.
Proof.
  unfold is_word, lower_char, is_alpha, is_upper, is_lower, isdigit.
  destruct (N.leb_spec 65 c), (N.leb_spec c 90); simpl; char_cases.
Qed.

Lemma is_word_upper c : is_word (upper_char c) = is_word c.
Proof.
  unfold is_word, upper_char, is_alpha, is_upper, is_lower, isdigit.
  destruct (N.leb_spec 97 c), (N.leb_spec c 122); simpl; char_cases.
Qed.

Lemma isspace_lower c : isspace (lower_char c) = isspace c.
Proof.
  unfold lower_char, is_upper.
  destruct (N.leb_spec 65 c), (N.leb_spec c 90); simpl; try done.
  unfold isspace. char_cases.
Qed.

Lemma isspace_upper c : isspace (upper_char c) = isspace c.
Proof.
  unfold upper_char, is_lower.
  destruct (N.leb_spec 97 c), (N.leb_spec c 122); simpl; try done.
  unfold isspace. char_cases.
Qed.

Lemma is_word_not_space c : is_word c = true -> isspace c = false.
Proof.
  unfold is_word, is_alpha, is_upper, is_lower, isdigit, isspace.
  intros H. char_cases.
Qed.

Lemma lower_char_eq_word c x :
  is_word c = true -> lower_char c = lower_char x -> is_word x = true.
Proof.
  intros Hc He. rewrite <- is_word_lower, <- He, is_word_lower. done.
Qed.

(** *** The tests of an expression *)

Lemma lit_eq_word ic c x :
  is_word c = true -> lit_eq ic c x = true -> is_word x = true.
Proof.
  unfold lit_eq. destruct ic.
  - intros Hc He%N.eqb_eq. by eapply lower_char_eq_word.
  - by intros Hc ->%N.eqb_eq.
Qed.

Lemma atom_word_mem a x : atom_word a = true -> atom_mem x a = true -> is_word x = true.
Proof.
  destruct a as [c|lo hi| | |]; simpl; try done.
  - by intros Hc ->%N.eqb_eq.
  - unfold is_word, is_alpha, is_upper, is_lower, isdigit.
    intros H1 H2. char_cases.
  - unfold is_word. intros _ ->. by rewrite orb_true_r.
Qed.

Lemma existsb_atom_word l x :
  forallb atom_word l = true -> existsb (atom_mem x) l = true -> is_word x = true.
Proof.
  rewrite forallb_forall, existsb_exists. intros Hall (a & Ha & Hm).
  by apply (atom_word_mem a); [apply Hall|].
Qed.

Lemma in_set_word ic l x :
  forallb atom_word l = true -> in_set ic l x = true -> is_word x = true.
Proof.
  intros Hall. unfold in_set.
  rewrite orb_true_iff, andb_true_iff, orb_true_iff.
  intros [H | [_ [H | H]]].
  - by eapply existsb_atom_word.
  - rewrite <- is_word_lower. by eapply existsb_atom_word.
  - rewrite <- is_word_upper. by eapply existsb_atom_word.
Qed.

Lemma test_word_sound ic t x :
  test_word t = true -> test_ok ic t x = true -> is_word x = true.
Proof.
  destruct t as [c|[|] l|]; simpl; try done.
  - apply lit_eq_word.
  - apply in_set_word.
Qed.

Lemma iter_tests (step : option N -> str -> str -> Prop) (P : N -> Prop) :
  (forall prev w rest, step prev w rest -> Forall P w) ->
  forall k prev w rest, iter step k prev w rest -> Forall P w.
Proof.
  intros Hstep. induction k as [|k IH]; intros prev w rest; simpl.
  - by intros ->.
  - intros (w1 & w2 & -> & H1 & H2). apply Forall_app. split; [by eapply Hstep|].
    by eapply IH.
Qed.

(** Each character of a match passes one of the tests of the expression. *)
Lemma Mt_tests ic r prev w rest :
  Mt ic r prev w rest ->
  Forall (fun x => exists t, t ∈ tests r /\ test_ok ic t x = true) w.
Proof.
  revert prev w rest. induction r as [|c|neg l| |r1 IH1 r2 IH2|r1 IH1 r2 IH2
                                      |r IH lo hi| | | |i r IH];
    intros prev w rest; simpl.
  - by intros ->.
  - intros (x & -> & Hx). apply Forall_singleton. exists (TLit c).
    split; [by apply list_elem_of_singleton | done].
  - intros (x & -> & Hx). apply Forall_singleton. exists (TSet neg l).
    split; [by apply list_elem_of_singleton | done].
  - intros (x & -> & Hx). apply Forall_singleton. exists TDot.
    split; [by apply list_elem_of_singleton | done].
  - intros (w1 & w2 & -> & H1 & H2). apply Forall_app. split.
    + eapply Forall_impl; [by eapply IH1|]. intros x (t & Ht & Hx).
      exists t. split; [|done]. apply elem_of_app. by left.
    + eapply Forall_impl; [by eapply IH2|]. intros x (t & Ht & Hx).
      exists t. split; [|done]. apply elem_of_app. by right.
  - intros [H|H].
    + eapply Forall_impl; [by eapply IH1|]. intros x (t & Ht & Hx).
      exists t. split; [|done]. apply elem_of_app. by left.
    + eapply Forall_impl; [by eapply IH2|]. intros x (t & Ht & Hx).
      exists t. split; [|done]. apply elem_of_app. by right.
  - intros (k & _ & _ & H). eapply iter_tests; [|exact H]. apply IH.
  - by intros [-> _].
  - by intros [-> _].
  - by intros [-> _].
  - apply IH.
Qed.

Lemma never_eats_sound ic r x prev w rest :
  never_eats ic r x = true -> Mt ic r prev w rest -> x ∉ w.
Proof.
  unfold never_eats. rewrite forallb_forall. intros Hnever HM Hin.
  apply Mt_tests in HM. rewrite Forall_forall in HM.
  destruct (HM x Hin) as (t & Ht & Hok).
  apply list_elem_of_In, Hnever in Ht. by rewrite Hok in Ht.
Qed.

Lemma iter_firsts (step : option N -> str -> str -> Prop) (P : N -> Prop) :
  (forall prev x w rest, step prev (x :: w) rest -> P x) ->
  forall k prev x w rest, iter step k prev (x :: w) rest -> P x.
Proof.
  intros Hstep. induction k as [|k IH]; intros prev x w rest; simpl.
  - done.
  - intros (w1 & w2 & Hw & H1 & H2). destruct w1 as [|y w1]; simpl in Hw.
    + subst w2. by eapply IH.
    + injection Hw as -> ->. by eapply Hstep.
Qed.

(** The first character of a match passes one of the first tests. *)
Lemma Mt_firsts ic r prev x w rest :
  Mt ic r prev (x :: w) rest ->
  exists t, t ∈ firsts r /\ test_ok ic t x = true.
Proof.
  revert prev x w rest.
  induction r as [|c|neg l| |r1 IH1 r2 IH2|r1 IH1 r2 IH2
                  |r IH lo hi| | | |i r IH];
    intros prev x w rest; cbn [Mt firsts].
  - done.
  - intros (y & [= -> ->] & Hx). exists (TLit c).
    split; [by apply list_elem_of_singleton | done].
  - intros (y & [= -> ->] & Hx). exists (TSet neg l).
    split; [by apply list_elem_of_singleton | done].
  - intros (y & [= -> ->] & Hx). exists TDot.
    split; [by apply list_elem_of_singleton | done].
  - intros (w1 & w2 & Hw & H1 & H2). destruct w1 as [|y w1]; simpl in Hw.
    + subst w2. apply Mt_min_len in H1. simpl in H1.
      destruct (1 <=? min_len r1)%nat eqn:E; [apply Nat.leb_le in E; lia|].
      destruct (IH2 _ _ _ _ H2) as (t & Ht & Hx). exists t.
      split; [|done]. apply elem_of_app. by right.
    + injection Hw as -> ->. destruct (IH1 _ _ _ _ H1) as (t & Ht & Hx).
      exists t. split; [|done].
      destruct (1 <=? min_len r1)%nat; [done|]. apply elem_of_app. by left.
  - intros [H|H].
    + destruct (IH1 _ _ _ _ H) as (t & Ht & Hx). exists t.
      split; [|done]. apply elem_of_app. by left.
    + destruct (IH2 _ _ _ _ H) as (t & Ht & Hx). exists t.
      split; [|done]. apply elem_of_app. by right.
  - intros (k & _ & _ & H).
    apply (iter_firsts (Mt ic r)
             (fun x => exists t, t ∈ firsts r /\ test_ok ic t x = true) IH
             _ _ _ _ _ H).
  - by intros [? _].
  - by intros [? _].
  - by intros [? _].
  - apply IH.
Qed.

(** A match of an expression that opens with a word boundary and a word
    character starts with a word character, after none. *)
Lemma opens_word_sound ic r prev w rest :
  opens_word r = true -> Mt ic r prev w rest ->
  wordo prev = false /\ exists x w', w = x :: w' /\ is_word x = true.
Proof.
  destruct r as [| | | |r1 r2| | | | | |]; try done.
  destruct r1; try done. cbn [opens_word].
  rewrite andb_true_iff, Nat.leb_le, forallb_forall.
  intros [Hmin Hall]. cbn [Mt].
  intros (w1 & w2 & -> & [-> Hb] & H2). simpl in *.
  pose proof (Mt_min_len _ _ _ _ _ H2) as Hlen.
  destruct w2 as [|x w2]; [simpl in Hlen; lia|].
  destruct (Mt_firsts _ _ _ _ _ _ H2) as (t & Ht & Hx).
  assert (is_word x = true) as Hword.
  { apply (test_word_sound ic t); [|done]. by apply Hall, list_elem_of_In. }
  split; [|by exists x, w2].
  unfold word_hd in Hb. simpl in Hb. rewrite Hword in Hb.
  by destruct (wordo prev).
Qed.

(** A match of an expression that closes with a word boundary ends at one. *)
Lemma closes_bnd_sound ic r prev w rest :
  closes_bnd r = true -> Mt ic r prev w rest ->
  xorb (wordo (lastp prev w)) (word_hd rest) = true.
Proof.
  revert prev w. induction r as [| | | |r1 IH1 r2 IH2| | | | | |];
    intros prev w; try done; simpl.
  - intros Hc (w1 & w2 & -> & _ & H2). rewrite lastp_app. by apply IH2.
  - by intros _ [-> H].
Qed.

(** *** Context *)

Lemma iter_local (step : option N -> str -> str -> Prop) :
  (forall prev prev' w rest rest',
     wordo prev = wordo prev' -> word_hd rest = word_hd rest' ->
     step prev w rest -> step prev' w rest') ->
  forall k prev prev' w rest rest',
    wordo prev = wordo prev' -> word_hd rest = word_hd rest' ->
    iter step k prev w rest -> iter step k prev' w rest'.
Proof.
  intros Hstep. induction k as [|k IH]; intros prev prev' w rest rest' Hp Hr;
    simpl; [done|].
  intros (w1 & w2 & -> & H1 & H2). exists w1, w2. split; [done|]. split.
  - eapply Hstep; [done| |exact H1]. by destruct w2.
  - eapply IH; [|done|exact H2]. destruct w1 as [|c w1] using rev_ind; [done|].
    by rewrite !lastp_snoc.
Qed.

(** Without anchors, a match depends on what is around it only through
    whether the neighbours are word characters. *)
Lemma Mt_local ic r prev prev' w rest rest' :
  unanchored r = true ->
  wordo prev = wordo prev' -> word_hd rest = word_hd rest' ->
  Mt ic r prev w rest -> Mt ic r prev' w rest'.
Proof.
  revert prev prev' w rest rest'.
  induction r as [|c|neg l| |r1 IH1 r2 IH2|r1 IH1 r2 IH2
                  |r IH lo hi| | | |i r IH];
    intros prev prev' w rest rest' Hun Hp Hr; simpl; try done.
  - simpl in Hun. apply andb_true_iff in Hun as [Hu1 Hu2].
    intros (w1 & w2 & -> & H1 & H2). exists w1, w2. split; [done|]. split.
    + eapply IH1; [done|done| |exact H1]. by destruct w2.
    + eapply IH2; [done| |done|exact H2].
      destruct w1 as [|c w1] using rev_ind; [done|]. by rewrite !lastp_snoc.
  - simpl in Hun. apply andb_true_iff in Hun as [Hu1 Hu2].
    intros [H|H]; [left; by eapply IH1 | right; by eapply IH2].
  - simpl in Hun. intros (k & Hlo & Hhi & H). exists k. split; [done|].
    split; [done|]. eapply iter_local; [|done|done|exact H].
    intros. by eapply IH.
  - intros [-> H]. split; [done|]. by rewrite <- Hp, <- Hr.
  - simpl in Hun. by apply IH.
Qed.

End ReFacts.

(** ** Scanning a text for a pattern *)

Section Scan.
Import Re.
Variable pt : pattern.

Lemma match_len_end prev s n :
  match_len pt prev s = Some n ->
  exists q, head (ends (ignorecase pt) (expr pt) (mkPos prev s [])) = Some q
            /\ (n <= length s)%nat /\ after q = drop n s
            /\ Mt (ignorecase pt) (expr pt) prev (take n s) (drop n s).
Proof.
  unfold match_len, match_at.
  destruct (head _) as [q|] eqn:Hh; [|done]. simpl. intros [= <-].
  exists q. split; [done|].
  apply head_Some in Hh as [l' Hl].
  assert (q ∈ ends (ignorecase pt) (expr pt) (mkPos prev s [])) as Hq
    by (rewrite Hl; left).
  apply ends_sound in Hq as (w & [Ha Hb] & HM). simpl in Ha, HM.
  rewrite Ha, length_app.
  replace (length w + length (after q) - length (after q))%nat
    with (length w) by lia.
  rewrite take_app_length, drop_app_length. split; [lia|done].
Qed.

Lemma match_len_Some prev s n :
  match_len pt prev s = Some n ->
  (n <= length s)%nat
  /\ Mt (ignorecase pt) (expr pt) prev (take n s) (drop n s).
Proof. intros (q & _ & H1 & _ & H2)%match_len_end. done. Qed.

Lemma match_len_pos prev s n :
  (1 <= min_len (expr pt))%nat -> match_len pt prev s = Some n -> (1 <= n)%nat.
Proof.
  intros Hmin [Hn HM]%match_len_Some. apply Mt_min_len in HM.
  rewrite length_take in HM. lia.
Qed.

Lemma match_len_nil prev :
  (1 <= min_len (expr pt))%nat -> match_len pt prev [] = None.
Proof.
  intros Hmin. destruct (match_len pt prev []) as [n|] eqn:E; [|done].
  pose proof (match_len_pos _ _ _ Hmin E). apply match_len_Some in E as [Hn _].
  simpl in Hn. lia.
Qed.

(** A match at a position is found by the search. *)
Lemma match_len_complete prev w rest :
  productive (expr pt) = true ->
  Mt (ignorecase pt) (expr pt) prev w rest ->
  is_Some (match_len pt prev (w ++ rest)).
Proof.
  intros Hprod HM. destruct (ends_complete _ _ _ _ _ [] Hprod HM) as [g' Hg'].
  unfold match_len, match_at.
  destruct (ends _ _ _) as [|q l]; [by apply elem_of_nil in Hg'|].
  simpl. by eexists.
Qed.

Lemma search_from_nil prev :
  search_from pt prev [] = false <-> match_len pt prev [] = None.
Proof. simpl. by destruct (match_len pt prev []). Qed.

Lemma search_from_cons prev c s :
  search_from pt prev (c :: s) = false
  <-> match_len pt prev (c :: s) = None /\ search_from pt (Some c) s = false.
Proof.
  cbn [search_from]. destruct (match_len pt prev (c :: s)); [|tauto].
  split; [done | by intros [? _]].
Qed.

Lemma search_from_false prev s :
  search_from pt prev s = false
  <-> forall a b, s = a ++ b -> match_len pt (lastp prev a) b = None.
Proof.
  revert prev. induction s as [|c s IH]; intros prev.
  - rewrite search_from_nil. split.
    + intros H a b Hab. symmetry in Hab. apply app_eq_nil in Hab as [-> ->]. done.
    + intros H. by apply (H [] []).
  - rewrite search_from_cons, IH. split.
    + intros [H0 H] a b Hab. destruct a as [|x a]; simpl in Hab.
      * by subst b.
      * injection Hab as -> ->. rewrite lastp_cons. by apply H.
    + intros H. split; [by apply (H [] (c :: s))|].
      intros a b ->. rewrite <- (lastp_cons prev). by apply (H (c :: a) b).
Qed.

Lemma search_from_app prev a b :
  search_from pt prev (a ++ b) = false
  <-> (forall a1 a2, a = a1 ++ a2 -> a2 <> [] ->
         match_len pt (lastp prev a1) (a2 ++ b) = None)
      /\ search_from pt (lastp prev a) b = false.
Proof.
  revert prev. induction a as [|c a IH]; intros prev.
  - simpl. split.
    + intros H. split; [|done]. intros a1 a2 Ha.
      symmetry in Ha. apply app_eq_nil in Ha as [-> ->]. done.
    + by intros [_ H].
  - change ((c :: a) ++ b) with (c :: (a ++ b)).
    rewrite search_from_cons, IH, lastp_cons. split.
    + intros [H0 [H1 H2]]. split; [|done]. intros a1 a2 Ha Hne.
      destruct a1 as [|x a1]; simpl in Ha.
      * by subst a2.
      * injection Ha as -> ->. rewrite lastp_cons. by apply H1.
    + intros [H1 H2]. split; [by apply (H1 [] (c :: a))|]. split; [|done].
      intros a1 a2 -> Hne. rewrite <- (lastp_cons prev). by apply (H1 (c :: a1) a2).
Qed.

Lemma search_from_true prev s :
  search_from pt prev s = true ->
  exists a b n, s = a ++ b /\ match_len pt (lastp prev a) b = Some n.
Proof.
  revert prev. induction s as [|c s IH]; intros prev; cbn [search_from].
  - destruct (match_len pt prev []) as [n|] eqn:E; [|done].
    intros _. by exists [], [], n.
  - destruct (match_len pt prev (c :: s)) as [n|] eqn:E.
    + intros _. by exists [], (c :: s), n.
    + intros (a & b & n & -> & H)%IH. exists (c :: a), b, n.
      by rewrite lastp_cons.
Qed.

(** *** Substitution *)

Variable T : str.
Hypothesis nonempty : (1 <= min_len (expr pt))%nat.

Lemma sub_from_skip prev s k :
  (k <= length s)%nat ->
  sub_from pt T prev s k = sub_from pt T (lastp prev (take k s)) (drop k s) 0.
Proof.
  revert prev k. induction s as [|c s IH]; intros prev k Hk.
  - simpl in Hk. assert (k = 0%nat) as -> by lia. done.
  - destruct k as [|k]; [done|]. simpl in Hk.
    cbn [sub_from take drop]. rewrite lastp_cons. apply IH. lia.
Qed.

(** The three ways a scan goes on: the text is over, there is no match
    here and a character is copied, or a match is replaced. *)
Lemma sub_from_cases prev s :
  (s = [] /\ sub_from pt T prev s 0 = [])
  \/ (exists c s', s = c :: s' /\ match_len pt prev s = None
                   /\ sub_from pt T prev s 0 = c :: sub_from pt T (Some c) s' 0)
  \/ (exists n, match_len pt prev s = Some (S n) /\ (S n <= length s)%nat
                /\ sub_from pt T prev s 0
                   = T ++ sub_from pt T (lastp prev (take (S n) s))
                                   (drop (S n) s) 0).
Proof.
  destruct s as [|c s].
  - left. split; [done|]. simpl. by rewrite match_len_nil.
  - right. cbn [sub_from].
    destruct (match_len pt prev (c :: s)) as [[|n]|] eqn:E.
    + apply match_len_pos in E; [lia | done].
    + right. exists n. split; [done|].
      pose proof (match_len_Some _ _ _ E) as [Hn _]. split; [done|].
      f_equal. simpl in Hn. rewrite sub_from_skip by lia.
      change (take (S n) (c :: s)) with (c :: take n s).
      change (drop (S n) (c :: s)) with (drop n s).
      by rewrite lastp_cons.
    + left. by exists c, s.
Qed.

(** A text without a match is left as it is. *)
Lemma sub_from_id prev s :
  search_from pt prev s = false -> sub_from pt T prev s 0 = s.
Proof.
  revert prev. induction s as [|c s IH]; intros prev.
  - intros H%search_from_nil. simpl. by rewrite H.
  - intros [H0 H]%search_from_cons. cbn [sub_from]. rewrite H0.
    f_equal. by apply IH.
Qed.

(** A text with a match gets the replacement. *)
Lemma sub_from_hit prev s :
  search_from pt prev s = true ->
  exists a b, sub_from pt T prev s 0 = a ++ T ++ b.
Proof.
  revert prev. induction s as [|c s IH]; intros prev.
  - simpl. by rewrite match_len_nil.
  - destruct (sub_from_cases prev (c :: s))
      as [[? _] | [(c' & s' & [= <- <-] & Hm & ->) | (n & Hm & _ & ->)]];
      [done| |].
    + cbn [search_from]. rewrite Hm. intros H.
      destruct (IH _ H) as (a & b & ->). by exists (c :: a), b.
    + intros _. by exists [], (sub_from pt T (lastp prev (take (S n) (c :: s)))
                               (drop (S n) (c :: s)) 0).
Qed.

(** The output read up to a place that is free of the first character of
    the replacement is the input read up to that place, and what follows is
    the output for what follows. *)
Lemma sub_from_prefix x0 T' w :
  T = x0 :: T' ->
  forall s prev ro,
    x0 ∉ w -> sub_from pt T prev s 0 = w ++ ro ->
    exists rs, s = w ++ rs /\ ro = sub_from pt T (lastp prev w) rs 0.
Proof.
  intros HT. induction w as [|x w IH]; intros s prev ro Hx Ho.
  - by exists s.
  - apply not_elem_of_cons in Hx as [Hx0 Hx].
    destruct (sub_from_cases prev s)
      as [[-> Hs] | [(c & s' & -> & Hm & Hs) | (n & Hm & _ & Hs)]];
      rewrite Hs in Ho.
    + done.
    + simpl in Ho. injection Ho as -> Ho.
      destruct (IH _ _ _ Hx Ho) as (rs & -> & ->).
      exists rs. by rewrite lastp_cons.
    + rewrite HT in Ho. simpl in Ho. injection Ho as -> _. done.
Qed.

End Scan.

(** ** A substitution makes no new match

    [p] is the pattern substituted, [T] what its matches are replaced by, and
    [q] a pattern that is looked for in the output.  [T] is a bracketed
    token; both patterns open at a word boundary with a word character. *)

Section NoNewMatch.
Import Re.
Variables (p q : pattern) (T T' : str).
Hypothesis T_open : T = 91 :: T'.
Hypothesis T_close : last T = Some 93.
Hypothesis p_nonempty : (1 <= min_len (expr p))%nat.
Hypothesis p_opens : opens_word (expr p) = true.
Hypothesis p_end : closes_bnd (expr p) = true \/ stops_at_space p.
Hypothesis q_opens : opens_word (expr q) = true.
Hypothesis q_productive : productive (expr q) = true.
Hypothesis q_unanchored : unanchored (expr q) = true.
Hypothesis q_kind :
  (closes_bnd (expr q) = true /\ never_eats (ignorecase q) (expr q) 91 = true)
  \/ extends_nonspace q 91.
Hypothesis T_dead : dead_inside q T.

Local Abbreviation Mq := (Mt (ignorecase q) (expr q)).
Local Abbreviation Mp := (Mt (ignorecase p) (expr p)).
Local Abbreviation out := (sub_from p T).

Lemma q_found prev w rest : Mq prev w rest -> match_len q prev (w ++ rest) <> None.
Proof.
  intros HM. destruct (match_len_complete q prev w rest q_productive HM) as [n Hn].
  congruence.
Qed.

Lemma word_hd_T rest : word_hd (T ++ rest) = false.
Proof. by rewrite T_open. Qed.

(** Where the input has no match of [q], the output has none at this
    place either, if [p] does not match here. *)
Lemma no_match_here prev s :
  match_len p prev s = None -> match_len q prev s = None ->
  match_len q prev (out prev s 0) = None.
Proof.
  intros Hp Hq. destruct (match_len q prev (out prev s 0)) as [n|] eqn:E; [|done].
  exfalso. apply match_len_Some in E as [Hn HM0].
  assert (exists w ro, out prev s 0 = w ++ ro /\ Mq prev w ro)
    as (w & ro & Ho & HM).
  { eexists _, _. split; [symmetry; apply take_drop | exact HM0]. }
  clear HM0 Hn.
  destruct q_kind as [[Hclose Hnever] | Hext].
  - pose proof (never_eats_sound _ _ _ _ _ _ Hnever HM) as Hw.
    destruct (sub_from_prefix p T p_nonempty 91 T' w T_open s prev ro Hw Ho)
      as (rs & -> & Hro).
    destruct (sub_from_cases p T p_nonempty (lastp prev w) rs)
      as [[-> Hs] | [(c & s' & -> & Hm & Hs) | (k & Hm & _ & Hs)]];
      rewrite Hs in Hro.
    + rewrite Hro in HM. by apply q_found in HM.
    + apply (q_found prev w (c :: s')); [|done].
      eapply Mt_local; [done|done| |exact HM]. by rewrite Hro.
    + apply (closes_bnd_sound _ _ _ _ _ Hclose) in HM.
      rewrite Hro, word_hd_T, xorb_false_r in HM.
      apply match_len_Some in Hm as [_ Hm].
      apply (opens_word_sound _ _ _ _ _ p_opens) in Hm as [Hm _]. congruence.
  - destruct (Hext _ _ _ HM) as (w0 & x & w1 & Hw & Hw0 & H91 & Hx & Hnew).
    rewrite Hw, <- app_assoc in Ho.
    destruct (sub_from_prefix p T p_nonempty 91 T' w0 T_open s prev _ H91 Ho)
      as (rs & -> & Hro).
    destruct (sub_from_cases p T p_nonempty (lastp prev w0) rs)
      as [[-> Hs] | [(c & s' & -> & Hm & Hs) | (k & Hm & Hk & Hs)]];
      rewrite Hs in Hro.
    + done.
    + simpl in Hro. injection Hro as <- _.
      apply (q_found prev (w0 ++ [x]) s'); [by apply Hnew|].
      by rewrite <- app_assoc.
    + apply match_len_Some in Hm as [_ Hm].
      apply (opens_word_sound _ _ _ _ _ p_opens) in Hm as [_ (y & R & HR & Hy)].
      apply is_word_not_space in Hy.
      assert (rs = y :: R ++ drop (S k) rs) as Hrs.
      { rewrite <- (take_drop (S k) rs) at 1. by rewrite HR. }
      apply (q_found prev (w0 ++ [y]) (R ++ drop (S k) rs)); [by apply Hnew|].
      rewrite <- app_assoc. simpl. by rewrite <- Hrs.
Qed.

(** No match of [q] starts where a replacement starts. *)
Lemma no_match_at_token prev rest : match_len q prev (T ++ rest) = None.
Proof.
  destruct (match_len q prev (T ++ rest)) as [n|] eqn:E; [|done].
  exfalso. apply match_len_Some in E as [Hn HM].
  apply (opens_word_sound _ _ _ _ _ q_opens) in HM as [_ (x & w' & Hw & Hx)].
  rewrite T_open in Hw. destruct n; simpl in Hw; [done|].
  injection Hw as <- _. done.
Qed.

(** No match of [q] starts right behind a replacement, if none starts there
    with the last character of the replaced text before it. *)
Lemma no_match_after_token prev s n :
  match_len p prev s = Some (S n) ->
  match_len q (lastp prev (take (S n) s))
            (out (lastp prev (take (S n) s)) (drop (S n) s) 0) = None ->
  match_len q (Some 93) (out (lastp prev (take (S n) s)) (drop (S n) s) 0) = None.
Proof.
  intros Hp Hq.
  set (lastR := lastp prev (take (S n) s)) in *.
  set (o := out lastR (drop (S n) s) 0) in *.
  destruct (match_len q (Some 93) o) as [m|] eqn:E; [|done].
  exfalso. apply match_len_Some in E as [Hm HM].
  pose proof (opens_word_sound _ _ _ _ _ q_opens HM) as [_ (x & w' & Hw & Hx)].
  assert (o = take m o ++ drop m o) as Ho by (by rewrite take_drop).
  destruct (wordo lastR) eqn:Hlast.
  - assert (o = [x] ++ (w' ++ drop m o)) as Ho'.
    { rewrite Ho at 1. by rewrite Hw. }
    assert (91 ∉ [x]) as H91.
    { intros Heq%list_elem_of_singleton. rewrite <- Heq in Hx. done. }
    destruct (sub_from_prefix p T p_nonempty 91 T' [x] T_open _ _ _ H91 Ho')
      as (rs & Hrs & _).
    pose proof (match_len_end p _ _ _ Hp) as (_ & _ & _ & _ & HMp).
    destruct p_end as [Hclose | Hstop].
    + apply (closes_bnd_sound _ _ _ _ _ Hclose) in HMp.
      fold lastR in HMp. rewrite Hlast, Hrs in HMp.
      unfold word_hd in HMp. simpl in HMp. by rewrite Hx in HMp.
    + apply Hstop in Hp. rewrite Hrs in Hp. simpl in Hp.
      apply is_word_not_space in Hx. congruence.
  - apply (q_found lastR (take m o) (drop m o)).
    + eapply Mt_local; [done| |done|exact HM]. by rewrite Hlast.
    + by rewrite <- Ho.
Qed.

Lemma search_from_head pt prev o :
  search_from pt prev o = false -> match_len pt prev o = None.
Proof. destruct o; [by intros ?%search_from_nil | by intros [? _]%search_from_cons]. Qed.

Lemma search_from_change_prev pt prev1 prev2 o :
  search_from pt prev1 o = false -> match_len pt prev2 o = None ->
  search_from pt prev2 o = false.
Proof.
  destruct o as [|c o].
  - intros _ H. by apply search_from_nil.
  - intros [_ H1]%search_from_cons H2. by apply search_from_cons.
Qed.

(** The output of the substitution has a match of [q] nowhere, if the input
    has none wherever it has no match of [p]. *)
Lemma sub_from_no_new_match_len len :
  forall s prev,
    length s = len ->
    (forall a b, s = a ++ b ->
       match_len p (lastp prev a) b = None ->
       match_len q (lastp prev a) b = None) ->
    search_from q prev (out prev s 0) = false.
Proof.
  induction len as [len IH] using lt_wf_ind. intros s prev Hlen H.
  destruct (sub_from_cases p T p_nonempty prev s)
    as [[-> Hs] | [(c & s' & -> & Hm & Hs) | (n & Hm & Hn & Hs)]].
  - rewrite Hs. apply search_from_nil. apply (H [] []); [done|].
    by apply match_len_nil.
  - pose proof (no_match_here prev (c :: s') Hm (H [] _ eq_refl Hm)) as H0.
    rewrite Hs in *. apply search_from_cons. split; [done|].
    apply (IH (length s')); [simpl in Hlen; lia | done |].
    intros a b ->. rewrite <- (lastp_cons prev). by apply (H (c :: a) b).
  - rewrite Hs. apply search_from_app. split.
    + intros a1 a2 HT Ha2. destruct a1 as [|x a1].
      * simpl in HT. subst a2. apply no_match_at_token.
      * rewrite lastp_ne by done.
        assert (0 < length (x :: a1) < length T)%nat as Hk.
        { rewrite HT, length_app. destruct a2; [done|]. simpl. lia. }
        assert (T !! (length (x :: a1) - 1)%nat = last (x :: a1)) as E1
          by (rewrite HT; by apply lookup_last_app).
        assert (drop (length (x :: a1)) T = a2) as E2
          by (by rewrite HT, drop_app_length).
        rewrite <- E1, <- E2. by apply T_dead.
    + assert (lastp prev T = Some 93) as ->.
      { rewrite lastp_ne; [done|]. by rewrite T_open. }
      assert (search_from q (lastp prev (take (S n) s))
                (out (lastp prev (take (S n) s)) (drop (S n) s) 0) = false) as Hrec.
      { apply (IH (length (drop (S n) s))); [rewrite length_drop; lia | done |].
        intros a b Hab. rewrite <- lastp_app. apply H.
        rewrite <- app_assoc, <- Hab. by rewrite take_drop. }
      eapply search_from_change_prev; [exact Hrec|].
      apply no_match_after_token; [done|]. by apply search_from_head.
Qed.

(** The output of substituting [p] has no match of [p]. *)
Lemma sub_free s : p = q -> search q (sub p T s) = false.
Proof.
  intros Hpq. unfold search, sub.
  apply (sub_from_no_new_match_len (length s)); [done|].
  intros a b _. by rewrite Hpq.
Qed.

(** Substituting [p] in a text without a match of [q] leaves it without
    one. *)
Lemma sub_keeps_free s : search q s = false -> search q (sub p T s) = false.
Proof.
  intros Hq. unfold search, sub.
  apply (sub_from_no_new_match_len (length s)); [done|].
  intros a b Hab _. unfold search in Hq.
  by apply (proj1 (search_from_false q None s) Hq).
Qed.

End NoNewMatch.

(** ** A substitution keeps the tokens of the text

    [pt] is the pattern substituted and [U] a bracketed token standing in
    the text.  No match of [pt] holds an opening bracket and none starts
    inside [U], so the scan copies [U]. *)

Section TokenKept.
Import Re.
Variables (pt : pattern) (T U U' : str).
Hypothesis pt_nonempty : (1 <= min_len (expr pt))%nat.
Hypothesis pt_opens : opens_word (expr pt) = true.
Hypothesis pt_never : never_eats (ignorecase pt) (expr pt) 91 = true.
Hypothesis U_open : U = 91 :: U'.
Hypothesis U_dead : dead_inside pt U.

(** A stretch of text where no match starts is copied. *)
Lemma sub_from_copy w : forall prev b,
  (forall w1 w2, w = w1 ++ w2 -> w2 <> [] ->
     match_len pt (lastp prev w1) (w2 ++ b) = None) ->
  sub_from pt T prev (w ++ b) 0 = w ++ sub_from pt T (lastp prev w) b 0.
Proof.
  induction w as [|c w IH]; intros prev b H; [done|].
  pose proof (H [] (c :: w) eq_refl ltac:(done)) as H0.
  rewrite lastp_nil in H0.
  change ((c :: w) ++ b) with (c :: (w ++ b)) in *. cbn [sub_from].
  rewrite H0.
  rewrite lastp_cons. cbn [app]. f_equal. apply IH.
  intros w1 w2 -> Hw2. rewrite <- (lastp_cons prev). by apply (H (c :: w1) w2).
Qed.

Lemma sub_from_over_token prev b :
  sub_from pt T prev (U ++ b) 0 = U ++ sub_from pt T (lastp prev U) b 0.
Proof.
  apply sub_from_copy. intros w1 w2 HU Hw2. destruct w1 as [|x w1].
  - simpl in HU. subst w2. cbn [lastp last].
    destruct (match_len pt prev (U ++ b)) as [n|] eqn:E; [|done].
    exfalso. apply match_len_Some in E as [Hn HM].
    apply (opens_word_sound _ _ _ _ _ pt_opens) in HM as [_ (x & w' & Hw & Hx)].
    rewrite U_open in Hw. destruct n; simpl in Hw; [done|].
    injection Hw as <- _. done.
  - rewrite lastp_ne by done.
    assert (0 < length (x :: w1) < length U)%nat as Hk.
    { rewrite HU, length_app. destruct w2; [done|]. simpl. lia. }
    assert (U !! (length (x :: w1) - 1)%nat = last (x :: w1)) as E1
      by (rewrite HU; by apply lookup_last_app).
    assert (drop (length (x :: w1)) U = w2) as E2
      by (by rewrite HU, drop_app_length).
    rewrite <- E1, <- E2. by apply U_dead.
Qed.

(** A token of the text is a token of the output. *)
Lemma sub_from_keeps_token_len len : forall a prev b,
  length a = len ->
  exists X Y, sub_from pt T prev (a ++ U ++ b) 0 = X ++ U ++ Y.
Proof.
  induction len as [len IH] using lt_wf_ind. intros a prev b Hlen.
  destruct a as [|c a].
  - exists [], (sub_from pt T (lastp prev U) b 0). apply sub_from_over_token.
  - destruct (sub_from_cases pt T pt_nonempty prev ((c :: a) ++ U ++ b))
      as [[Hs _] | [(c' & s' & Hs & Hm & ->) | (n & Hm & Hn & ->)]]; [done| |].
    + injection Hs as <- <-.
      destruct (IH (length a) ltac:(simpl in Hlen; lia) a (Some c) b eq_refl)
        as (X & Y & ->).
      by exists (c :: X), Y.
    + pose proof (match_len_Some pt _ _ _ Hm) as [_ HM].
      apply (never_eats_sound _ _ _ _ _ _ pt_never) in HM.
      assert (S n <= length (c :: a))%nat as Hin.
      { destruct (decide (S n <= length (c :: a))%nat) as [|Hgt]; [done|].
        exfalso. apply HM. apply list_elem_of_lookup.
        exists (length (c :: a)). rewrite lookup_take_lt by lia.
        rewrite lookup_app_r by lia. rewrite Nat.sub_diag, U_open. done. }
      rewrite take_app_le, drop_app_le by done.
      destruct (IH (length (drop (S n) (c :: a)))
                  ltac:(rewrite length_drop; simpl in *; lia)
                  (drop (S n) (c :: a))
                  (lastp prev (take (S n) (c :: a))) b eq_refl)
        as (X & Y & ->).
      exists (T ++ X), Y. by rewrite <- app_assoc.
Qed.

Lemma sub_keeps_token s :
  (exists a b, s = a ++ U ++ b) ->
  exists X Y, sub pt T s = X ++ U ++ Y.
Proof.
  intros (a & b & ->). by apply (sub_from_keeps_token_len (length a)).
Qed.

End TokenKept.

(** ** Greedy runs and plain expressions *)

Section Greedy.
Import Re.

Lemma head_app_Some {A} (a b : list A) x :
  head (a ++ b) = Some x -> head a = Some x \/ (a = [] /\ head b = Some x).
Proof. destruct a; simpl; auto. Qed.

Lemma head_bind_Some {A B} (f : A -> list B) (l : list A) y :
  head (l ≫= f) = Some y -> exists x, x ∈ l /\ head (f x) = Some y.
Proof.
  induction l as [|x l IH]; [done|]. rewrite bind_cons.
  intros [H | [_ H]]%head_app_Some.
  - exists x. split; [left | done].
  - destruct (IH H) as (x' & Hx' & Hy). exists x'. split; [by right | done].
Qed.

(** The match reported for [r1 r2] ends where the match reported for [r2]
    at some end of [r1] does. *)
Lemma head_ends_cat ic r1 r2 p q :
  head (ends ic (Cat r1 r2) p) = Some q ->
  exists pm, pm ∈ ends ic r1 p /\ head (ends ic r2 pm) = Some q.
Proof. cbn [ends]. apply head_bind_Some. Qed.

Lemma eat_cases test p :
  (eat test p = []
   /\ match after p with [] => True | y :: _ => test y = false end)
  \/ (exists c s', after p = c :: s' /\ test c = true
                   /\ eat test p = [mkPos (Some c) s' (groups p)]).
Proof.
  unfold eat. destruct (after p) as [|c s']; [by left|].
  destruct (test c) eqn:Ht; [right; by exists c, s' | by left].
Qed.

Lemma rep_upto_ne step extra p : rep_upto step extra p <> [].
Proof.
  destruct extra; simpl; [done|]. intros H. by apply app_eq_nil in H as [_ H].
Qed.

(** The longest run of characters that pass a test is tried first. *)
Lemma rep_upto_eat_head test extra p q :
  (length (after p) <= extra)%nat ->
  head (rep_upto (eat test) extra p) = Some q ->
  match after q with
  | [] => True
  | y :: _ => test y = false
  end.
Proof.
  revert p. induction extra as [|e IH]; intros p Hlen.
  - cbn [rep_upto head]. intros [= <-].
    destruct (after p); [done | simpl in Hlen; lia].
  - cbn [rep_upto].
    destruct (eat_cases test p) as [[-> Hp] | (c & s' & Ha & Ht & ->)].
    + change (head [p] = Some q -> match after q with
                                   | [] => True
                                   | y :: _ => test y = false
                                   end).
      by intros [= <-].
    + rewrite bind_singleton.
      intros [H | [Hnil _]]%head_app_Some.
      * apply IH in H; [done|]. rewrite Ha in Hlen. simpl in *. lia.
      * by apply rep_upto_ne in Hnil.
Qed.

Lemma plus_set_head ic neg l p q :
  head (ends ic (Rep (Set_ neg l) 1 None) p) = Some q ->
  match after q with
  | [] => True
  | y :: _ => xorb neg (in_set ic l y) = false
  end.
Proof.
  cbn [ends rep]. intros (p1 & Hp1 & Hq)%head_bind_Some.
  apply eat_spec in Hp1 as (c & s' & Ha & _ & ->).
  apply (rep_upto_eat_head (fun c => xorb neg (in_set ic l c))) in Hq; [done|].
  rewrite Ha. simpl. lia.
Qed.

Lemma in_set_space ic y : in_set ic [Space] y = isspace y.
Proof.
  unfold in_set. simpl. rewrite !orb_false_r, isspace_lower, isspace_upper.
  destruct ic, (isspace y); done.
Qed.

Lemma iter_plain (step : option N -> str -> str -> Prop) :
  (forall prev prev' w rest rest', step prev w rest -> step prev' w rest') ->
  forall k prev prev' w rest rest',
    iter step k prev w rest -> iter step k prev' w rest'.
Proof.
  intros Hstep. induction k as [|k IH]; intros prev prev' w rest rest';
    simpl; [done|].
  intros (w1 & w2 & -> & H1 & H2). exists w1, w2. split; [done|].
  split; [by eapply Hstep | by eapply IH].
Qed.

(** A plain expression matches the same words in every context. *)
Lemma Mt_plain ic r prev prev' w rest rest' :
  plain r = true -> Mt ic r prev w rest -> Mt ic r prev' w rest'.
Proof.
  revert prev prev' w rest rest'.
  induction r as [|c|neg l| |r1 IH1 r2 IH2|r1 IH1 r2 IH2
                  |r IH lo hi| | | |i r IH];
    intros prev prev' w rest rest' Hpl; simpl; try done.
  - simpl in Hpl. apply andb_true_iff in Hpl as [H1 H2].
    intros (w1 & w2 & -> & HM1 & HM2). exists w1, w2. split; [done|].
    split; [by eapply IH1 | by eapply IH2].
  - simpl in Hpl. apply andb_true_iff in Hpl as [H1 H2].
    intros [H|H]; [left; by eapply IH1 | right; by eapply IH2].
  - simpl in Hpl. intros (k & Hlo & Hhi & H). exists k. split; [done|].
    split; [done|]. eapply iter_plain; [|exact H]. intros. by eapply IH.
  - simpl in Hpl. by apply IH.
Qed.

End Greedy.
(** ** The PII filter *)

Section PiiFacts.
Import Re Pii.

(** *** The password rule *)

Lemma password_stops_at_space : stops_at_space (pattern password).
Proof.
  intros prev s n (q & Hq & _ & Ha & _)%match_len_end. rewrite <- Ha.
  change (expr (pattern password))
    with (Cat Bnd (Cat (alt [Str "password"; Str "passwd"; Str "pwd";
                              Str "pin"; Str "passcode"])
                       (Cat (Plus (In_ [Ch (chr ":"); Space]))
                            (Plus (NotIn [Space]))))) in Hq.
  apply head_ends_cat in Hq as (p1 & _ & Hq).
  apply head_ends_cat in Hq as (p2 & _ & Hq).
  apply head_ends_cat in Hq as (p3 & _ & Hq).
  apply plus_set_head in Hq. destruct (after q) as [|y ?]; [done|].
  rewrite in_set_space in Hq. by destruct (isspace y).
Qed.

Lemma password_extends : extends_nonspace (pattern password) 91.
Proof.
  intros prev w rest.
  set (L := alt [Str "password"; Str "passwd"; Str "pwd"; Str "pin";
                 Str "passcode"]).
  set (S_ := Plus (In_ [Ch (chr ":"); Space])).
  set (B := Plus (NotIn [Space])).
  change (expr (pattern password)) with (Cat Bnd (Cat L (Cat S_ B))).
  change (ignorecase (pattern password)) with true.
  cbn [Mt].
  intros (w1 & w2 & -> & [-> Hb] & wl & w3 & -> & HL & ws & wb & -> & HS & HB).
  assert (wl <> []) as Hwl.
  { apply Mt_min_len in HL. intros ->. vm_compute in HL. lia. }
  assert (ws <> []) as Hws.
  { apply Mt_min_len in HS. intros ->. vm_compute in HS. lia. }
  assert (exists x w1, wb = x :: w1 /\ isspace x = false) as (x & wb' & -> & Hx).
  { pose proof (Mt_min_len _ _ _ _ _ HB) as Hlen.
    destruct wb as [|x wb']; [vm_compute in Hlen; lia|].
    exists x, wb'. split; [done|].
    apply Mt_firsts in HB as (t & Ht & Hok).
    apply list_elem_of_singleton in Ht. subst t. simpl in Hok.
    rewrite in_set_space in Hok. by destruct (isspace x). }
  exists (wl ++ ws), x, wb'. split; [by rewrite <- app_assoc|].
  split; [by destruct wl|]. split.
  { intros [H|H]%elem_of_app.
    - by apply (never_eats_sound true L 91 _ _ _ eq_refl HL).
    - by apply (never_eats_sound true S_ 91 _ _ _ eq_refl HS). }
  split; [done|].
  intros x' rest' Hx'.
  exists [], ((wl ++ ws) ++ [x']). split; [done|]. split.
  { split; [done|]. revert Hb. destruct wl; [done|]. simpl. auto. }
  exists wl, (ws ++ [x']). split; [by rewrite <- app_assoc|]. split.
  { eapply Mt_plain; [done | exact HL]. }
  exists ws, [x']. split; [done|]. split.
  { eapply Mt_plain; [done | exact HS]. }
  exists 1%nat. split; [done|]. split; [done|].
  exists [x'], []. split; [done|]. split; [|done].
  exists x'. split; [done|]. rewrite in_set_space. by rewrite Hx'.
Qed.

(** *** All rules *)

Ltac rule_shape :=
  split; [vm_compute; lia|];
  do 5 (split; [vm_compute; reflexivity|]).

Ltac rule_bounded := rule_shape; left; split; vm_compute; reflexivity.

Lemma rules_ok : Forall rule_ok _PII_PATTERNS.
Proof.
  unfold _PII_PATTERNS.
  apply List.Forall_cons; [rule_bounded|].
  apply List.Forall_cons; [rule_bounded|].
  apply List.Forall_cons; [rule_bounded|].
  apply List.Forall_cons; [rule_bounded|].
  apply List.Forall_cons.
  { rule_shape. right.
    split; [apply password_extends | apply password_stops_at_space]. }
  apply List.Forall_cons; [rule_bounded|].
  apply List.Forall_nil.
Qed.

Ltac dead_token :=
  let k := fresh "k" in
  let rest := fresh "rest" in
  let Hk := fresh "Hk" in
  intros k rest Hk;
  match type of Hk with
  | (_ < _ < length ?T)%nat =>
      let n := eval vm_compute in (length T) in
      change (length T) with n in Hk
  end;
  destruct k as [|k]; [exfalso; lia|];
  do 20 (destruct k as [|k];
         [first [exfalso; lia | vm_compute; reflexivity]|]);
  exfalso; lia.

Ltac dead_tokens :=
  unfold _PII_PATTERNS;
  do 6 (apply List.Forall_cons; [dead_token|]); apply List.Forall_nil.

(** No rule matches from inside the token of a rule. *)
Lemma tokens_dead :
  Forall (fun q => Forall (fun p => dead_inside (pattern q) (replacement p))
                          _PII_PATTERNS)
         _PII_PATTERNS.
Proof.
  unfold _PII_PATTERNS at 2.
  apply List.Forall_cons; [dead_tokens|].
  apply List.Forall_cons; [dead_tokens|].
  apply List.Forall_cons; [dead_tokens|].
  apply List.Forall_cons; [dead_tokens|].
  apply List.Forall_cons; [dead_tokens|].
  apply List.Forall_cons; [dead_tokens|].
  apply List.Forall_nil.
Qed.

Lemma token_dead p q :
  p ∈ _PII_PATTERNS -> q ∈ _PII_PATTERNS ->
  dead_inside (pattern q) (replacement p).
Proof.
  intros Hp Hq. pose proof tokens_dead as H.
  rewrite Forall_forall in H. specialize (H q Hq).
  rewrite Forall_forall in H. by apply H.
Qed.

(** Applying a rule leaves no match of it, and makes no match of another
    rule that the text was free of. *)
Lemma apply_rule_free p q t :
  p ∈ _PII_PATTERNS -> q ∈ _PII_PATTERNS ->
  p = q \/ search (pattern q) t = false ->
  search (pattern q) (apply_rule t p) = false.
Proof.
  intros Hp Hq Hfree.
  pose proof rules_ok as Hok. rewrite Forall_forall in Hok.
  destruct (Hok p Hp) as (Hp1 & Hp2 & _ & _ & Hp5 & Hp6 & Hp7).
  destruct (Hok q Hq) as (_ & Hq2 & Hq3 & Hq4 & _ & _ & Hq7).
  assert (closes_bnd (expr (pattern p)) = true \/ stops_at_space (pattern p))
    as Hpend by (destruct Hp7 as [[? _] | [_ ?]]; auto).
  assert ((closes_bnd (expr (pattern q)) = true
           /\ never_eats (ignorecase (pattern q)) (expr (pattern q)) 91 = true)
          \/ extends_nonspace (pattern q) 91)
    as Hqkind by (destruct Hq7 as [? | [? _]]; auto).
  pose proof (token_dead p q Hp Hq) as Hdead.
  unfold apply_rule. destruct Hfree as [-> | Hfree].
  - by apply (sub_free (pattern q) (pattern q) (replacement q)
                (tail (replacement q))).
  - by apply (sub_keeps_free (pattern p) (pattern q) (replacement p)
                (tail (replacement p))).
Qed.

Lemma fold_rules_free done rest t :
  done ++ rest = _PII_PATTERNS ->
  (forall q, q ∈ done -> search (pattern q) t = false) ->
  forall q, q ∈ _PII_PATTERNS ->
    search (pattern q) (fold_left apply_rule rest t) = false.
Proof.
  revert done t. induction rest as [|p rest IH]; intros done t Hsplit Hdone q Hq.
  - rewrite app_nil_r in Hsplit. subst done. by apply Hdone.
  - cbn [fold_left]. apply (IH (done ++ [p])); [by rewrite <- app_assoc| |done].
    assert (p ∈ _PII_PATTERNS) as Hp.
    { rewrite <- Hsplit. apply elem_of_app. right. left. }
    intros q' [Hq' | ->%list_elem_of_singleton]%elem_of_app.
    + apply apply_rule_free; [done| |right; by apply Hdone].
      rewrite <- Hsplit. apply elem_of_app. by left.
    + apply apply_rule_free; [done|done|by left].
Qed.

(** The output of the filter has a match of no rule. *)
Lemma filter_regex_free t q :
  q ∈ _PII_PATTERNS -> search (pattern q) (_filter_regex t) = false.
Proof.
  apply (fold_rules_free [] _PII_PATTERNS t); [done|].
  intros q' Hq'. by apply elem_of_nil in Hq'.
Qed.

Lemma fold_rules_id (rules : list PIIPattern) t :
  (forall q, q ∈ rules -> search (pattern q) t = false) ->
  fold_left apply_rule rules t = t.
Proof.
  induction rules as [|p rules IH]; intros Hfree; [done|].
  cbn [fold_left]. unfold apply_rule at 2, sub.
  rewrite sub_from_id by (apply Hfree; left).
  apply IH. intros q Hq. apply Hfree. by right.
Qed.

(** A text without a match of any rule is left as it is. *)
Lemma filter_regex_id t :
  (forall q, q ∈ _PII_PATTERNS -> search (pattern q) t = false) ->
  _filter_regex t = t.
Proof. apply fold_rules_id. Qed.

Lemma filter_regex_idempotent t :
  _filter_regex (_filter_regex t) = _filter_regex t.
Proof. apply filter_regex_id. intros q Hq. by apply filter_regex_free. Qed.

(** *** The SSN rule *)

Lemma Mt_digit ic prev x rest :
  isdigit x = true -> Mt ic digit prev [x] rest.
Proof.
  intros Hx. exists x. split; [done|]. unfold in_set. cbn [existsb atom_mem].
  by rewrite Hx.
Qed.

Lemma iter_digits ic ds prev rest :
  Forall (fun x => isdigit x = true) ds ->
  iter (Mt ic digit) (length ds) prev ds rest.
Proof.
  intros H. revert prev. induction H as [|x ds Hx _ IH]; intros prev; [done|].
  exists [x], ds. split; [done|]. split; [by apply Mt_digit | apply IH].
Qed.

Lemma Mt_times_digits ic ds prev rest :
  Forall (fun x => isdigit x = true) ds ->
  Mt ic (Times (length ds) digit) prev ds rest.
Proof.
  intros H. exists (length ds). split; [done|]. split.
  - intros h [= <-]. lia.
  - by apply iter_digits.
Qed.

Lemma isdigit_word x : isdigit x = true -> is_word x = true.
Proof. unfold is_word. intros ->. by rewrite orb_true_r. Qed.

(** A text of the shape of a social security number, with no word character
    before it and none after it, is a match of the SSN pattern. *)
Lemma ssn_shaped_Mt prev w rest :
  ssn_shaped w -> wordo prev = false -> word_hd rest = false ->
  Mt false ssn_re prev w rest.
Proof.
  intros (a & b & c & d & e & f & g & h & i & -> & Hd) Hprev Hrest.
  repeat (apply Forall_cons in Hd as [? Hd]).
  exists [], [a; b; c; 45; d; e; 45; f; g; h; i]. split; [done|]. split.
  { split; [done|]. rewrite Hprev. cbn. by apply isdigit_word. }
  exists [a; b; c], [45; d; e; 45; f; g; h; i]. split; [done|]. split.
  { apply (Mt_times_digits false [a; b; c]). by repeat constructor. }
  exists [45], [d; e; 45; f; g; h; i]. split; [done|]. split.
  { by exists 45. }
  exists [d; e], [45; f; g; h; i]. split; [done|]. split.
  { apply (Mt_times_digits false [d; e]). by repeat constructor. }
  exists [45], [f; g; h; i]. split; [done|]. split.
  { by exists 45. }
  exists [f; g; h; i], []. split; [done|]. split.
  { apply (Mt_times_digits false [f; g; h; i]). by repeat constructor. }
  split; [done|]. cbn. rewrite Hrest. rewrite (isdigit_word i) by done. done.
Qed.

Lemma lastp_None (a : str) : lastp None a = last a.
Proof. unfold lastp. by destruct (last a). Qed.

(** The search finds an SSN-shaped substring on word boundaries. *)
Lemma has_ssn_search t : has_ssn t -> search (pattern ssn) t = true.
Proof.
  intros (a & w & b & -> & Hw & Ha & Hb).
  destruct (search (pattern ssn) (a ++ w ++ b)) eqn:E; [done|].
  unfold search in E. rewrite search_from_false in E.
  specialize (E a (w ++ b) eq_refl). rewrite lastp_None in E.
  pose proof (ssn_shaped_Mt (last a) w b Hw Ha Hb) as HM.
  apply (match_len_complete (pattern ssn)) in HM; [|done].
  rewrite E in HM. by destruct HM.
Qed.

Lemma iter_digits_inv k : forall prev w rest,
  iter (Mt false digit) k prev w rest ->
  length w = k /\ Forall (fun x => isdigit x = true) w.
Proof.
  induction k as [|k IH]; intros prev w rest; cbn [iter].
  - by intros ->.
  - intros (w1 & w2 & -> & (x & -> & Hx) & [<- Hw2]%IH).
    split; [done|]. constructor; [|done].
    unfold in_set in Hx. cbn in Hx. by rewrite !orb_false_r in Hx.
Qed.

Lemma Mt_times_digits_inv n prev w rest :
  Mt false (Times n digit) prev w rest ->
  length w = n /\ Forall (fun x => isdigit x = true) w.
Proof.
  intros (k & Hlo & Hhi & Hit). specialize (Hhi n eq_refl).
  assert (k = n) as -> by lia. by apply iter_digits_inv in Hit.
Qed.

(** What the SSN pattern matches is of the shape of a social security
    number and stands on word boundaries. *)
Lemma ssn_Mt_inv prev w rest :
  Mt false ssn_re prev w rest ->
  ssn_shaped w /\ wordo prev = false /\ word_hd rest = false.
Proof.
  intros (w0 & w1 & -> & [-> Hb1] & d3 & w2 & -> & [L3 D3]%Mt_times_digits_inv
          & l1 & w3 & -> & (x1 & -> & Hx1) & d2 & w4 & ->
          & [L2 D2]%Mt_times_digits_inv
          & l2 & w5 & -> & (x2 & -> & Hx2) & d4 & w6 & ->
          & [L4 D4]%Mt_times_digits_inv & -> & Hb2).
  destruct d3 as [|a [|b [|c [|? ?]]]]; try done.
  destruct d2 as [|d [|e [|? ?]]]; try done.
  destruct d4 as [|f [|g [|h [|i [|? ?]]]]]; try done.
  apply N.eqb_eq in Hx1 as <-. apply N.eqb_eq in Hx2 as <-.
  repeat (apply Forall_cons in D3 as [? D3]).
  repeat (apply Forall_cons in D2 as [? D2]).
  repeat (apply Forall_cons in D4 as [? D4]).
  cbn in Hb1, Hb2. rewrite (isdigit_word a) in Hb1 by done.
  rewrite (isdigit_word i) in Hb2 by done.
  split; [|split].
  - exists a, b, c, d, e, f, g, h, i. split; [done|]. by repeat constructor.
  - by destruct (wordo prev).
  - by destruct (word_hd rest).
Qed.

(** The SSN pattern has a match in a text exactly when the text has an
    SSN-shaped substring on word boundaries. *)
Lemma search_ssn_iff t : search (pattern ssn) t = true <-> has_ssn t.
Proof.
  split; [|apply has_ssn_search].
  intros (a & b & n & -> & [_ HM]%match_len_Some)%search_from_true.
  rewrite lastp_None in HM. apply ssn_Mt_inv in HM as (Hw & Ha & Hb).
  exists a, (take n b), (drop n b). by rewrite take_drop.
Qed.

Lemma startswith_app (s rest : str) : startswith (s ++ rest) s = true.
Proof.
  induction s as [|c s IH]; [by destruct rest|].
  cbn. by rewrite N.eqb_refl, IH.
Qed.

Lemma find_startswith (s sub : str) :
  startswith s sub = true -> find s sub = Some 0%nat.
Proof. intros H. destruct s; cbn [find]; by rewrite H. Qed.

Lemma contains_app (a s b : str) : contains (a ++ s ++ b) s = true.
Proof.
  unfold contains. apply bool_decide_eq_true.
  induction a as [|c a IH].
  - cbn [app]. by rewrite find_startswith by apply startswith_app.
  - change ((c :: a) ++ s ++ b) with (c :: (a ++ s ++ b)). cbn [find].
    destruct (startswith _ _); [done|]. by apply fmap_is_Some.
Qed.

(** *** [filter_pii] *)

Lemma filter_pii_regex t :
  filter_pii (py "regex") (Some t) = Some (_filter_regex t).
Proof. done. Qed.

(** *** Tokens in the text *)

(** A rule that takes no opening bracket keeps the tokens of the text. *)
Lemma rule_keeps_token p u s :
  p ∈ _PII_PATTERNS -> u ∈ _PII_PATTERNS ->
  never_eats (ignorecase (pattern p)) (expr (pattern p)) 91 = true ->
  (exists a b, s = a ++ replacement u ++ b) ->
  exists a b, apply_rule s p = a ++ replacement u ++ b.
Proof.
  intros Hp Hu Hnever Hs.
  pose proof rules_ok as Hok. rewrite Forall_forall in Hok.
  destruct (Hok p Hp) as (Hp1 & Hp2 & _).
  destruct (Hok u Hu) as (_ & _ & _ & _ & Hu5 & _).
  apply (sub_keeps_token (pattern p) (replacement p) (replacement u)
           (tail (replacement u)) Hp1 Hp2 Hnever Hu5
           (token_dead u p Hu Hp) s Hs).
Qed.

Ltac in_rules :=
  unfold _PII_PATTERNS;
  repeat first [apply list_elem_of_here | apply list_elem_of_further].

Lemma in_rules_ssn : ssn ∈ _PII_PATTERNS.
Proof. in_rules. Qed.
Lemma in_rules_credit_card : credit_card ∈ _PII_PATTERNS.
Proof. in_rules. Qed.
Lemma in_rules_bank_account : bank_account ∈ _PII_PATTERNS.
Proof. in_rules. Qed.
Lemma in_rules_routing_number : routing_number ∈ _PII_PATTERNS.
Proof. in_rules. Qed.
Lemma in_rules_password : password ∈ _PII_PATTERNS.
Proof. in_rules. Qed.
Lemma in_rules_api_key : api_key ∈ _PII_PATTERNS.
Proof. in_rules. Qed.

Lemma filter_regex_steps t :
  _filter_regex t
  = apply_rule (apply_rule (apply_rule (apply_rule (apply_rule
      (apply_rule t ssn) credit_card) bank_account) routing_number)
      password) api_key.
Proof. done. Qed.

(** A token standing in the text after the SSN rule stands in the output,
    if it is not the token of the API key rule, unless the password rule
    takes it. *)
Lemma token_after_ssn_rule u t :
  u ∈ _PII_PATTERNS ->
  (exists a b, apply_rule t ssn = a ++ replacement u ++ b) ->
  (search (pattern password) (apply_rule t ssn) = false ->
   exists a b, _filter_regex t = a ++ replacement u ++ b)
  /\ ((exists a b, _filter_regex t = a ++ replacement u ++ b)
      \/ exists a b, _filter_regex t = a ++ replacement password ++ b).
Proof.
  intros Hu H1. rewrite filter_regex_steps.
  set (s1 := apply_rule t ssn) in *.
  assert (exists a b, apply_rule s1 credit_card = a ++ replacement u ++ b) as H2.
  { apply rule_keeps_token;
      [apply in_rules_credit_card | done | vm_compute; reflexivity | done]. }
  set (s2 := apply_rule s1 credit_card) in *.
  assert (exists a b, apply_rule s2 bank_account = a ++ replacement u ++ b) as H3.
  { apply rule_keeps_token;
      [apply in_rules_bank_account | done | vm_compute; reflexivity | done]. }
  set (s3 := apply_rule s2 bank_account) in *.
  assert (exists a b, apply_rule s3 routing_number = a ++ replacement u ++ b)
    as H4.
  { apply rule_keeps_token;
      [apply in_rules_routing_number | done | vm_compute; reflexivity | done]. }
  set (s4 := apply_rule s3 routing_number) in *.
  assert (search (pattern password) s4 = false ->
          exists a b, apply_rule (apply_rule s4 password) api_key
                      = a ++ replacement u ++ b) as Hkept.
  { intros Hfree. unfold apply_rule at 2. unfold sub.
    rewrite sub_from_id by exact Hfree.
    apply rule_keeps_token;
      [apply in_rules_api_key | done | vm_compute; reflexivity | done]. }
  split.
  - intros Hfree. apply Hkept.
    apply apply_rule_free;
      [apply in_rules_routing_number | apply in_rules_password | right].
    apply apply_rule_free;
      [apply in_rules_bank_account | apply in_rules_password | right].
    apply apply_rule_free;
      [apply in_rules_credit_card | apply in_rules_password | right].
    exact Hfree.
  - destruct (search (pattern password) s4) eqn:E; [right | left; by apply Hkept].
    apply rule_keeps_token;
      [apply in_rules_api_key | apply in_rules_password
      | vm_compute; reflexivity |].
    unfold apply_rule, sub.
    apply (sub_from_hit _ (replacement password)) in E as (a & b & ->).
    + by exists a, b.
    + vm_compute. lia.
Qed.

Lemma ssn_rule_token t :
  has_ssn t -> exists a b, apply_rule t ssn = a ++ replacement ssn ++ b.
Proof.
  intros H%has_ssn_search. unfold apply_rule, sub.
  apply (sub_from_hit _ (replacement ssn)) in H as (a & b & ->).
  - by exists a, b.
  - vm_compute. lia.
Qed.

Lemma has_ssn_pin_text : has_ssn pin_text.
Proof.
  exists (py "pin: "), (py "123-45-6789"), []. split; [reflexivity|].
  split; [|split; reflexivity].
  exists 49, 50, 51, 52, 53, 54, 55, 56, 57. split; [reflexivity|].
  by repeat constructor.
Qed.

Lemma has_ssn_ssn_text : has_ssn ssn_text.
Proof.
  exists (py "SSN "), (py "123-45-6789"), (py " on file").
  split; [reflexivity|]. split; [|split; reflexivity].
  exists 49, 50, 51, 52, 53, 54, 55, 56, 57. split; [reflexivity|].
  by repeat constructor.
Qed.






End PiiFacts.
(** ** Text search *)

Lemma startswith_spec (s p : str) : startswith s p = true <-> exists t, s = p ++ t.
Proof.
  revert s. induction p as [|a p IH]; intros s; simpl.
  - split; [intros _; by exists s | by destruct s].
  - destruct s as [|b s]; simpl.
    + split; [done | intros [t Ht]; done].
    + rewrite andb_true_iff, N.eqb_eq, IH. split.
      * intros [-> [t ->]]. by exists t.
      * intros [t [= -> ->]]. split; [done | by exists t].
Qed.

(** [find] returns the place of an occurrence. *)
Lemma find_cons (c : N) (s sub : str) :
  find (c :: s) sub
  = if startswith (c :: s) sub then Some 0%nat else S <$> find s sub.
Proof. done. Qed.

Lemma find_Some (s sub : str) (idx : nat) :
  find s sub = Some idx ->
  s = take idx s ++ sub ++ drop (idx + length sub) s.
Proof.
  revert idx. induction s as [|c s IH]; intros idx.
  - destruct sub; simpl; [by intros [= <-] | done].
  - rewrite find_cons. destruct (startswith (c :: s) sub) eqn:Hs.
    + intros [= <-]. apply startswith_spec in Hs as [t Ht].
      rewrite Ht at 1. simpl. f_equal. rewrite Ht. by rewrite drop_app_length.
    + destruct (find s sub) as [i|] eqn:Hf; [|done].
      simpl. intros [= <-]. simpl. f_equal. by apply IH.
Qed.

Lemma find_Some_le (s sub : str) (idx : nat) :
  find s sub = Some idx -> (idx + length sub <= length s)%nat.
Proof.
  revert idx. induction s as [|c s IH]; intros idx.
  - destruct sub; simpl; [by intros [= <-] | done].
  - rewrite find_cons. destruct (startswith (c :: s) sub) eqn:Hs.
    + intros [= <-]. apply startswith_spec in Hs as [t Ht].
      rewrite Ht, length_app. lia.
    + destruct (find s sub) as [i|] eqn:Hf; [|done].
      simpl. intros [= <-]. specialize (IH i eq_refl). simpl. lia.
Qed.

(** ** Link context *)

Lemma slice_window (A u B : str) (n : nat) :
  slice (A ++ u ++ B) (length A - n)
        (length (A ++ u ++ B) `min` (length A + length u + n))
  = drop (length A - n) A ++ u ++ take n B.
Proof.
  unfold slice. rewrite !length_app.
  rewrite drop_app_le by lia.
  rewrite take_app_ge by (rewrite length_drop; lia).
  f_equal. rewrite length_drop.
  rewrite take_app_ge by lia. f_equal.
  destruct (decide (n <= length B)%nat).
  - f_equal. lia.
  - rewrite !take_ge by lia. done.
Qed.

Lemma nil_length_iff (l : str) : l = [] <-> length l = 0%nat.
Proof. destruct l; simpl; split; (done || lia). Qed.

Lemma get_link_context_found (text url : str) (n idx : nat) :
  text <> [] -> find (Imsg._clean_text text) url = Some idx ->
  Imsg._get_link_context text url n
  = let cleaned := Imsg._clean_text text in
    let start := (idx - n)%nat in
    let end_ := (length cleaned `min` (idx + length url + n))%nat in
    (if (0 <? start)%nat then py "..." else [])
    ++ slice cleaned start end_
    ++ (if (end_ <? length cleaned)%nat then py "..." else []).
Proof.
  intros Ht Hf. unfold Imsg._get_link_context. destruct text as [|c t]; [done|].
  rewrite Hf. cbv zeta.
  destruct (0 <? idx - n)%nat, (_ <? _)%nat; simpl;
    rewrite <- ?app_assoc, ?app_nil_r; done.
Qed.

(** C9: the context of a URL found at [idx] in the cleaned text is the URL
    with at most 50 characters of the cleaned text on each side, led by
    ["..."] exactly when text before that window was cut and followed by
    ["..."] exactly when text after it was cut; a text that goes on for more
    than 50 characters on both sides of its URL gets both markers. *)
Theorem link_context_window (text url : str) (idx : nat) :
  text <> [] ->
  find (Imsg._clean_text text) url = Some idx ->
  let cleaned := Imsg._clean_text text in
  let cut_before := take (idx - 50) cleaned in
  let win_before := drop (idx - 50) (take idx cleaned) in
  let win_after := take 50 (drop (idx + length url) cleaned) in
  let cut_after := drop (idx + length url + 50) cleaned in
  cleaned = cut_before ++ win_before ++ url ++ win_after ++ cut_after
  /\ (length win_before <= 50)%nat /\ (length win_after <= 50)%nat
  /\ Imsg._get_link_context text url 50
     = (if bool_decide (cut_before = []) then [] else py "...")
       ++ win_before ++ url ++ win_after
       ++ (if bool_decide (cut_after = []) then [] else py "...")
  /\ Imsg._get_link_context Imsg.long_link_text (py "https://example.com/page") 50
     = py "..." ++ py "cccccccccddddddddddeeeeeeeeeeffffffffff check out "
       ++ py "https://example.com/page"
       ++ py " for details aaaaaaaaaabbbbbbbbbbccccccccccddddddd" ++ py "...".
Proof.
  intros Htext Hfind cleaned cut_before win_before win_after cut_after.
  pose proof (find_Some _ _ _ Hfind) as Hsplit.
  pose proof (find_Some_le _ _ _ Hfind) as Hle.
  fold cleaned in Hsplit, Hle.
  set (A := take idx cleaned) in *. set (B := drop (idx + length url) cleaned) in *.
  assert (length A = idx) as HA by (subst A; rewrite length_take; lia).
  assert (cut_before = take (idx - 50) A) as Hcb.
  { subst cut_before A. rewrite take_take. f_equal. lia. }
  assert (cut_after = drop 50 B) as Hca.
  { subst cut_after B. rewrite drop_drop. done. }
  split; [|split; [|split; [|split]]].
  - rewrite Hcb, Hca. subst win_before win_after.
    rewrite (app_assoc (take _ A)), !take_drop. exact Hsplit.
  - subst win_before. rewrite length_drop. lia.
  - subst win_after. rewrite length_take. lia.
  - rewrite (get_link_context_found text url 50 idx Htext Hfind). cbv zeta.
    fold cleaned.
    assert (slice cleaned (idx - 50) (length cleaned `min` (idx + length url + 50))
            = win_before ++ url ++ win_after) as ->.
    { rewrite Hsplit at 1 2. rewrite <- HA at 1 2. rewrite slice_window.
      by rewrite HA. }
    assert ((0 <? idx - 50)%nat = negb (bool_decide (cut_before = []))) as ->.
    { rewrite Hcb. destruct (bool_decide_reflect (take (idx - 50) A = [])) as [H|H];
        rewrite nil_length_iff, length_take in H; simpl.
      - apply Nat.ltb_ge. lia.
      - apply Nat.ltb_lt. lia. }
    assert ((length cleaned `min` (idx + length url + 50) <? length cleaned)%nat
            = negb (bool_decide (cut_after = []))) as ->.
    { destruct (bool_decide_reflect (cut_after = [])) as [H|H];
        subst cut_after; rewrite nil_length_iff, length_drop in H; simpl.
      - apply Nat.ltb_ge. lia.
      - apply Nat.ltb_lt. lia. }
    destruct (bool_decide (cut_before = [])), (bool_decide (cut_after = []));
      simpl; rewrite <- ?app_assoc; done.
  - by vm_compute.
Qed.

Lemma link_context_window_witness :
  Imsg.long_link_text <> []
  /\ find (Imsg._clean_text Imsg.long_link_text) (py "https://example.com/page")
     = Some 71%nat
  /\ (length (take 50 (drop (71 + length (py "https://example.com/page"))
                           (Imsg._clean_text Imsg.long_link_text))) <= 50)%nat.
Proof.
  assert (Imsg.long_link_text <> []) as H1 by (by vm_compute).
  assert (find (Imsg._clean_text Imsg.long_link_text) (py "https://example.com/page")
          = Some 71%nat) as H2 by (by vm_compute).
  split; [exact H1|]. split; [exact H2|].
  exact (proj1 (proj2 (proj2 (link_context_window Imsg.long_link_text
                                (py "https://example.com/page") 71 H1 H2)))).
Defined.

(** ** The adapter *)

Section AdapterFacts.
Context {datetime float World : Type}.
Context (fromisoformat : str -> option datetime).
Context (_format_datetime_for_imsg : datetime -> str).
Context (str_of_float : float -> str).
Context (thirty_seconds : float).
Context (shlex_join : list str -> str).
Context (json_loads : str -> option Imsg.json).
Context (imsg_path : str).
Context (pii_filter : str).
Context (run : list str -> float -> @Imsg.M World Imsg.proc_outcome).
Context (list_threads : Z -> @Imsg.M World (list (@Imsg.Thread datetime))).
Context (get_messages :
  Z -> Z -> option datetime -> option datetime -> option (list str) -> bool ->
  @Imsg.M World (list (@Imsg.Message datetime))).

Import Imsg.

Local Abbreviation run_imsg := (_run_imsg str_of_float shlex_join json_loads imsg_path run).
Local Abbreviation run_imsg_raw := (_run_imsg_raw str_of_float shlex_join imsg_path run).
Local Abbreviation parse := (_parse_text_message fromisoformat pii_filter).
Local Abbreviation scan := (scan_lines fromisoformat pii_filter).
Local Abbreviation matches_of := (all_matches fromisoformat pii_filter).
Local Abbreviation search_fast :=
  (search_messages_fast fromisoformat _format_datetime_for_imsg str_of_float
     thirty_seconds shlex_join imsg_path pii_filter run).
Local Abbreviation find_thread := (find_thread_by_recipient list_threads get_messages).
Local Abbreviation search :=
  (search_messages fromisoformat _format_datetime_for_imsg str_of_float
     thirty_seconds shlex_join imsg_path pii_filter run list_threads get_messages).
Local Abbreviation links := (extract_links list_threads get_messages).
Local Abbreviation no_thread := (no_thread_for list_threads get_messages).

(** What a failed run raises, in the two modes. *)
Lemma run_imsg_failed args timeout w w' returncode out err :
  run (imsg_path :: args) timeout w = (Ok (Exited returncode out err), w') ->
  returncode <> 0%Z ->
  run_imsg args timeout w
  = (Raise (ImsgErr (mkImsgError (failed_message returncode) returncode
                       (strip err) (Some (shlex_join (imsg_path :: args))))),
     w').
Proof.
  intros Hrun Hrc. unfold _run_imsg, bind. rewrite Hrun.
  assert ((returncode =? 0)%Z = false) as Hz by (by apply Z.eqb_neq).
  unfold code_or. rewrite Hz. done.
Qed.

Lemma run_imsg_raw_failed args timeout w w' returncode out err :
  run (imsg_path :: args) timeout w = (Ok (Exited returncode out err), w') ->
  returncode <> 0%Z ->
  run_imsg_raw args timeout w
  = (Raise (ImsgErr (mkImsgError (failed_message returncode) returncode
                       (if truthy (Some (strip err)) then strip err
                        else strip out)
                       (Some (shlex_join (imsg_path :: args))))),
     w').
Proof.
  intros Hrun Hrc. unfold _run_imsg_raw, bind. rewrite Hrun.
  assert ((returncode =? 0)%Z = false) as Hz by (by apply Z.eqb_neq).
  unfold code_or. rewrite Hz. done.
Qed.

Lemma run_imsg_raw_ok args timeout w w' out err :
  run (imsg_path :: args) timeout w = (Ok (Exited 0 out err), w') ->
  run_imsg_raw args timeout w = (Ok out, w').
Proof. intros Hrun. unfold _run_imsg_raw, bind. by rewrite Hrun. Qed.

(** ** Scanning a history *)

Lemma kept_lines_cons line lines :
  kept_lines (line :: lines)
  = if negb (truthy (Some (strip line))) || startswith (strip line) (py "(")
    then kept_lines lines
    else strip line :: kept_lines lines.
Proof.
  unfold kept_lines. cbn [List.map List.filter].
  destruct (truthy (Some (strip line))), (startswith (strip line) (py "("));
    done.
Qed.

Lemma scan_lines_from query_lower thread_id result_limit lines line_idx acc :
  (Z.of_nat (length acc) < result_limit)%Z ->
  scan query_lower thread_id result_limit lines line_idx acc
  = acc ++ take (Z.to_nat result_limit - length acc)
                (omap (line_match fromisoformat pii_filter query_lower thread_id)
                      (number_from line_idx (kept_lines lines))).
Proof.
  revert line_idx acc. induction lines as [|line lines IH]; intros line_idx acc Hacc.
  - simpl. by rewrite take_nil, app_nil_r.
  - cbn [scan_lines]. rewrite kept_lines_cons.
    destruct (negb (truthy (Some (strip line))) || startswith (strip line) (py "("));
      [by apply IH|].
    cbn [number_from omap list_omap]. unfold line_match at 1. cbn [fst snd].
    change (list_omap ?f ?l) with (omap f l).
    destruct (contains (lower (strip line)) query_lower); cbn [negb];
      [|by apply IH].
    destruct (parse (strip line) thread_id line_idx) as [msg|]; [|by apply IH].
    destruct (truthy (text msg) && contains (lower (default [] (text msg))) query_lower);
      [|by apply IH].
    rewrite length_app. simpl length.
    destruct (result_limit <=? Z.of_nat (length acc + 1))%Z eqn:Hlim.
    + apply Z.leb_le in Hlim.
      replace (Z.to_nat result_limit - length acc)%nat with 1%nat by lia.
      simpl. by rewrite take_0.
    + apply Z.leb_gt in Hlim. rewrite IH by (rewrite length_app; simpl; lia).
      rewrite length_app. simpl length.
      replace (Z.to_nat result_limit - length acc)%nat
        with (S (Z.to_nat result_limit - (length acc + 1)))%nat by lia.
      simpl. by rewrite <- app_assoc.
Qed.

Lemma search_fast_ok query thread_id scan_limit result_limit start end_
    w w' out err :
  (1 <= result_limit)%Z ->
  run (imsg_path ::
         [py "history"; py "--chat-id"; str_of_Z thread_id;
          py "--limit"; str_of_Z scan_limit]
         ++ date_args _format_datetime_for_imsg "--start" start
         ++ date_args _format_datetime_for_imsg "--end" end_)
      thirty_seconds w
  = (Ok (Exited 0 out err), w') ->
  search_fast query thread_id scan_limit result_limit start end_ w
  = (Ok (take (Z.to_nat result_limit)
              (matches_of (lower query) thread_id (splitlines out))), w').
Proof.
  intros Hlim Hrun. unfold search_messages_fast, bind at 1.
  rewrite (run_imsg_raw_ok _ _ _ _ _ _ Hrun). unfold ret.
  rewrite scan_lines_from by (simpl; lia).
  simpl. by rewrite Nat.sub_0_r.
Qed.

Lemma all_matches_inv query_lower thread_id lines m :
  m ∈ matches_of query_lower thread_id lines ->
  exists i l t,
    (i, l) ∈ number_from 0 (kept_lines lines)
    /\ contains (lower l) query_lower = true
    /\ parse l thread_id i = Some m
    /\ text m = Some t /\ t <> []
    /\ contains (lower t) query_lower = true.
Proof.
  unfold all_matches. rewrite list_elem_of_omap.
  intros ([i l] & Hin & Hm). unfold line_match in Hm. simpl in Hm.
  destruct (contains (lower l) query_lower) eqn:Hpre; [|done].
  destruct (parse l thread_id i) as [msg|] eqn:Hparse; [|done].
  destruct (truthy (text msg)) eqn:Ht; [|done]. simpl in Hm.
  destruct (contains (lower (default [] (text msg))) query_lower) eqn:Hc; [|done].
  injection Hm as ->. destruct (text m) as [[|c t]|] eqn:Htext; try done.
  exists i, l, (c :: t). done.
Qed.

Lemma kept_lines_inv lines l :
  l ∈ kept_lines lines ->
  l <> [] /\ startswith l (py "(") = false /\ exists line, line ∈ lines /\ l = strip line.
Proof.
  unfold kept_lines. rewrite list_elem_of_In, filter_In, andb_true_iff, in_map_iff.
  intros [(line & <- & Hin) [Ht Hs]]. apply truthy_Some_ne in Ht.
  split; [done|]. split; [by apply negb_true_iff in Hs|].
  exists line. by rewrite list_elem_of_In.
Qed.

(** ** Unresolved scope *)

Lemma search_unresolved query recipient scan_limit result_limit start end_ w w' :
  no_thread recipient w w' ->
  search query None recipient scan_limit result_limit start end_ w = (Ok [], w').
Proof.
  unfold no_thread_for, search_messages, target_thread, bind.
  destruct recipient as [[|c r]|]; simpl.
  - by intros ->.
  - by intros ->.
  - by intros ->.
Qed.

Lemma links_unresolved recipient limit message_limit from_me start end_ w w' :
  no_thread recipient w w' ->
  links recipient None limit message_limit from_me start end_ w = (Ok [], w').
Proof.
  unfold no_thread_for, extract_links, target_thread, bind.
  destruct recipient as [[|c r]|]; simpl.
  - by intros ->.
  - by intros ->.
  - by intros ->.
Qed.

End AdapterFacts.

Lemma to_dict_stderr_bounded (e : Imsg.ImsgError) (s : str) :
  Imsg.d_stderr (Imsg.to_dict e) = Some s ->
  s = take 500 (Imsg.stderr e) /\ (length s <= 500)%nat.
Proof.
  unfold Imsg.to_dict. cbn [Imsg.d_stderr].
  destruct (truthy (Some (Imsg.stderr e))); [|done].
  intros [= <-]. unfold slice. rewrite Nat.sub_0_r, drop_0. split; [done|].
  rewrite length_take. lia.
Qed.

(** C6, at the failing input: the binary exits with code 1, writes its
    error to stdout and nothing to stderr.  Both modes raise with the exit
    code; the raw mode carries the text of stdout as its diagnostic, the
    structured mode carries an empty diagnostic and shows none to the user.
    What is shown is cut to 500 characters. *)
Theorem run_imsg_drops_stdout :
  let args := [py "history"; py "--chat-id"; py "42"] in
  exists e_json e_raw,
    Imsg._run_imsg (fun _ : unit => py "30.0") Imsg.plain_join (fun _ => None)
                   (py "imsg") Imsg.failing_run args tt tt
    = (Imsg.Raise (Imsg.ImsgErr e_json), tt)
    /\ Imsg._run_imsg_raw (fun _ : unit => py "30.0") Imsg.plain_join
                          (py "imsg") Imsg.failing_run args tt tt
       = (Imsg.Raise (Imsg.ImsgErr e_raw), tt)
    /\ Imsg.code e_json = 1%Z /\ Imsg.code e_raw = 1%Z
    /\ Imsg.stderr e_raw = py "No chat found for id 42"
    /\ Imsg.stderr e_json = []
    /\ Imsg.d_stderr (Imsg.to_dict e_json) = None
    /\ Imsg.d_stderr (Imsg.to_dict e_raw) = Some (py "No chat found for id 42")
    /\ forall e s, Imsg.d_stderr (Imsg.to_dict e) = Some s -> (length s <= 500)%nat.
Proof.
  intros args. eexists _, _.
  split; [reflexivity|]. split; [reflexivity|].
  repeat (split; [by vm_compute|]).
  intros e s H. by apply to_dict_stderr_bounded in H as [_ H].
Qed.




(** * More of the contact cache *)

(** ** Stripping *)

Lemma lstrip_head (s : str) :
  match s with [] => True | c :: _ => isspace c = false end -> lstrip s = s.
Proof. destruct s as [|c s]; [done|]. simpl. by intros ->. Qed.

Lemma strip_no_space (s : str) :
  Forall (fun c => isspace c = false) s -> strip s = s.
Proof.
  intros H. unfold strip, rstrip.
  rewrite (lstrip_head s) by (by destruct H).
  rewrite lstrip_head; [apply rev_involutive|].
  apply Forall_rev in H. by destruct H.
Qed.

Lemma isdigit_not_space c : isdigit c = true -> isspace c = false.
Proof.
  unfold isdigit, isspace. rewrite andb_true_iff, !N.leb_le. intros [H1 H2].
  repeat match goal with
         | |- context [(?a <=? ?b)] =>
             first [ replace (a <=? b) with false
                       by (symmetry; apply N.leb_gt; lia)
                   | replace (a <=? b) with true
                       by (symmetry; apply N.leb_le; lia) ]
         | |- context [(?a =? ?b)] =>
             replace (a =? b) with false by (symmetry; apply N.eqb_neq; lia)
         end.
  reflexivity.
Qed.

Lemma filter_isdigit_id (s : str) :
  Forall (fun c => isdigit c = true) s -> List.filter isdigit s = s.
Proof. induction 1 as [|c s Hc _ IH]; [done|]. simpl. by rewrite Hc, IH. Qed.

Lemma Forall_filter_isdigit (s : str) :
  Forall (fun c => isdigit c = true) (List.filter isdigit s).
Proof.
  induction s as [|c s IH]; [done|]. simpl.
  destruct (isdigit c) eqn:E; [by constructor | done].
Qed.

Lemma normalize_phone_eq phone :
  _normalize_phone phone
  = match strip phone with
    | c :: rest =>
        if c =? 43 then 43 :: List.filter isdigit rest
        else List.filter isdigit (c :: rest)
    | [] => []
    end.
Proof.
  unfold _normalize_phone. destruct (strip phone) as [|c rest]; [done|].
  destruct (N.eqb_spec c 43) as [->|H]; [done|].
  destruct c as [|p]; [done|].
  repeat match goal with
         | |- context [match ?q with xI _ => _ | xO _ => _ | xH => _ end] =>
             is_var q; destruct q
         end; try done.
Qed.

(** What [_normalize_phone] returns: digits, after a plus sign when the
    stripped number leads with one. *)
Lemma normalize_phone_shape phone :
  exists ds, Forall (fun c => isdigit c = true) ds
    /\ (_normalize_phone phone = 43 :: ds \/ _normalize_phone phone = ds).
Proof.
  rewrite normalize_phone_eq. destruct (strip phone) as [|c rest].
  - exists []. split; [done | by right].
  - destruct (c =? 43).
    + exists (List.filter isdigit rest). split; [apply Forall_filter_isdigit|].
      by left.
    + exists (List.filter isdigit (c :: rest)).
      split; [apply Forall_filter_isdigit | by right].
Qed.


(** ** Search *)

Lemma search_loop_spec query limit values : forall results,
  search_loop query limit values results
  = results ++ take (Z.to_nat limit - length results)
                    (List.filter (search_hit query) values).
Proof.
  induction values as [|c values IH]; intros results.
  - simpl. by rewrite take_nil, app_nil_r.
  - cbn [search_loop List.filter].
    destruct (Z.leb_spec limit (Z.of_nat (length results))) as [Hle|Hgt].
    + replace (Z.to_nat limit - length results)%nat with 0%nat by lia.
      by rewrite take_0, app_nil_r.
    + destruct (search_hit query c).
      * rewrite IH, length_app. simpl. rewrite <- app_assoc. f_equal.
        replace (Z.to_nat limit - length results)%nat
          with (S (Z.to_nat limit - (length results + 1)))%nat by lia.
        done.
      * apply IH.
Qed.

Lemma filter_length_le {A} (f : A -> bool) (l : list A) :
  (length (List.filter f l) <= length l)%nat.
Proof. induction l as [|x l IH]; simpl; [done|]. destruct (f x); simpl; lia. Qed.

Lemma search_eq query limit st :
  search query limit st
  = take (Z.to_nat limit) (List.filter (search_hit query) (list_all st)).
Proof. unfold search. rewrite search_loop_spec. simpl. f_equal. lia. Qed.


Lemma startswith_refl (s : str) : startswith s s = true.
Proof. induction s as [|c s IH]; [done|]. simpl. by rewrite N.eqb_refl. Qed.

Lemma contains_refl (s : str) : contains s s = true.
Proof.
  unfold contains. apply bool_decide_eq_true.
  destruct s; simpl; [by eexists|]. rewrite N.eqb_refl, startswith_refl.
  by eexists.
Qed.

Lemma exact_name_hit query c :
  exact_name (lower query) c = true -> search_hit query c = true.
Proof.
  unfold exact_name, search_hit. destruct (name c) as [n|]; [|done].
  intros [Ht <-%bool_decide_eq_true]%andb_true_iff.
  by rewrite Ht, contains_refl.
Qed.

Lemma substring_name_hit query c :
  substring_name (lower query) c = true -> search_hit query c = true.
Proof.
  unfold substring_name, search_hit. intros [H | H]%orb_true_iff.
  - by rewrite H.
  - rewrite H. by destruct (match name c with Some _ => _ | None => _ end).
Qed.

(** X3: a contact that [resolve] gives for a name, as the match or as one of
    the candidates, is one that [search] gives for the same name, when the
    limit is no less than the number of contacts. *)
Theorem resolve_by_name_in_search st n limit c :
  n <> [] -> (Z.of_nat (length (list_all st)) <= limit)%Z ->
  let r := (resolve None None (Some n) st).1 in
  contact r = Some c \/ c ∈ candidates r ->
  c ∈ search n limit st.
Proof.
  intros Hn Hlimit r Hr.
  rewrite search_eq.
  rewrite take_ge
    by (pose proof (filter_length_le (search_hit n) (list_all st)); lia).
  apply list_elem_of_In, filter_In. rewrite <- list_elem_of_In.
  subst r. unfold resolve in Hr. cbn [fst] in Hr.
  apply truthy_Some_ne in Hn. rewrite Hn in Hr.
  fold (list_all st) in Hr.
  set (exact := List.filter (exact_name (lower n)) (list_all st)) in *.
  set (substr := List.filter (substring_name (lower n)) (list_all st)) in *.
  assert (forall l, (forall x, x ∈ l -> x ∈ list_all st /\ search_hit n x = true) ->
          forall r', of_matches l = Some r' ->
          contact r' = Some c \/ c ∈ candidates r' ->
          c ∈ list_all st /\ search_hit n c = true) as Hof.
  { intros l Hl r' Hr' Hc.
    destruct (of_matches_cases l)
      as [[_ E] | [(x & -> & E) | [_ E]]]; rewrite E in Hr'; [done| |];
      injection Hr' as <-; simpl in Hc.
    - destruct Hc as [[= <-] | Hc]; [apply Hl; left | by apply elem_of_nil in Hc].
    - destruct Hc as [Hc | Hc]; [done | by apply Hl]. }
  assert (forall x, x ∈ exact -> x ∈ list_all st /\ search_hit n x = true) as He.
  { intros x Hx%list_elem_of_In%filter_In. rewrite <- list_elem_of_In in Hx.
    destruct Hx as [Hx Hh]. split; [done | by apply exact_name_hit]. }
  assert (forall x, x ∈ substr -> x ∈ list_all st /\ search_hit n x = true) as Hs.
  { intros x Hx%list_elem_of_In%filter_In. rewrite <- list_elem_of_In in Hx.
    destruct Hx as [Hx Hh]. split; [done | by apply substring_name_hit]. }
  destruct (of_matches exact) as [r1|] eqn:E1.
  - by apply (Hof exact He r1).
  - destruct (of_matches substr) as [r2|] eqn:E2.
    + by apply (Hof substr Hs r2).
    + simpl in Hr. destruct Hr as [Hr | Hr]; [done | by apply elem_of_nil in Hr].
Qed.

Lemma resolve_by_name_in_search_witness :
  mkContact (py "id-1") (Some (py "John Doe")) [py "+15551234567"] [] [] 1 1
  ∈ search (py "John") 20 two_johns_cache.
Proof.
  apply (resolve_by_name_in_search two_johns_cache (py "John") 20).
  - by vm_compute.
  - by vm_compute.
  - right. vm_compute. left.
Defined.

(** ** Deleting *)

(** X4: [delete] of an identifier that is not stored returns false and
    leaves the cache as it is; of one that is stored it returns true, after
    which the identifier is not stored, every other identifier holds the
    contact it held, and no entry of either index names the deleted
    contact. *)
Theorem delete_removes st contact_id :
  reachable st ->
  let r := delete contact_id st in
  (get contact_id st = None -> r = (false, st))
  /\ (forall c, get contact_id st = Some c ->
        r.1 = true
        /\ get contact_id r.2 = None
        /\ (forall cid, cid <> contact_id -> get cid r.2 = get cid st)
        /\ (forall k, _phone_index r.2 !! k <> Some contact_id)
        /\ (forall k, _email_index r.2 !! k <> Some contact_id)).
Proof.
  intros Hr r. pose proof (reachable_wf _ (reach_delete st contact_id Hr)) as Hwf'.
  apply reachable_wf in Hr as Hwf. subst r. unfold get, delete in *.
  split; [by intros ->|]. intros c Hc. rewrite Hc in *. cbn [fst snd] in *.
  assert (dict_get contact_id (dict_del contact_id (_contacts st)) = None) as Hgone
    by (apply dict_get_del_eq, Hwf).
  split; [done|]. split; [done|]. split.
  { intros cid Hne. cbn. by apply dict_get_del_ne. }
  split; intros k Hk.
  - destruct (wf_phone _ Hwf' k contact_id Hk) as (c' & Hc' & _).
    cbn in Hc'. congruence.
  - destruct (wf_email _ Hwf' k contact_id Hk) as (c' & Hc' & _).
    cbn in Hc'. congruence.
Qed.

Lemma delete_removes_witness :
  (delete (py "id-1") two_johns_cache).1 = true
  /\ get (py "id-1") (delete (py "id-1") two_johns_cache).2 = None.
Proof.
  destruct (delete_removes two_johns_cache (py "id-1") reachable_two_johns)
    as [_ H].
  destruct (H (mkContact (py "id-1") (Some (py "John Doe"))
                 [py "+15551234567"] [] [] 1 1) ltac:(by vm_compute))
    as (H1 & H2 & _).
  by split.
Defined.

(** ** Upsert, then resolve *)

Lemma upsert_has_phones data uuid now st p :
  p ∈ up_phones data -> p ∈ phones (upsert data uuid now st).1.
Proof.
  intros Hp. destruct (upsert_cases data uuid now st)
    as [(cid & c & _ & _ & _ & ->) | [_ ->]]; simpl; [|done].
  apply elem_of_set_union. by right.
Qed.

Lemma upsert_has_emails data uuid now st e :
  e ∈ up_emails data -> e ∈ emails (upsert data uuid now st).1.
Proof.
  intros He. destruct (upsert_cases data uuid now st)
    as [(cid & c & _ & _ & _ & ->) | [_ ->]]; simpl; [|done].
  apply elem_of_set_union. by right.
Qed.

Lemma upsert_frame data uuid now st cid :
  wf st -> cid <> id (upsert data uuid now st).1 ->
  get cid (upsert data uuid now st).2 = get cid st.
Proof.
  intros Hwf. unfold get. destruct (upsert_cases data uuid now st)
    as [(cid' & c & _ & _ & Hg & ->) | [_ ->]]; simpl; intros Hne.
  - destruct (wf_ids _ Hwf _ _ Hg) as [Hid _]. rewrite Hid in Hne.
    by apply dict_get_set_ne.
  - by apply dict_get_set_ne.
Qed.

(** X5: after an upsert, [resolve] by any non-empty phone of the request
    gives the contact the upsert returned, and so does [resolve] by any
    non-empty email of the request when no phone is supplied; the contact is
    stored under its identifier, and every other identifier holds the
    contact it held before. *)
Theorem upsert_then_resolve st data uuid now :
  reachable st -> uuid <> [] -> dict_get uuid (_contacts st) = None ->
  let r := upsert data uuid now st in
  (forall p email name, p ∈ up_phones data -> p <> [] ->
     (resolve (Some p) email name r.2).1 = mkResult ok (Some r.1) [])
  /\ (forall e phone name, e ∈ up_emails data -> e <> [] ->
        truthy phone = false ->
        (resolve phone (Some e) name r.2).1 = mkResult ok (Some r.1) [])
  /\ get (id r.1) r.2 = Some r.1
  /\ (forall cid, cid <> id r.1 -> get cid r.2 = get cid st).
Proof.
  intros Hr Hne Hfresh r.
  pose proof (reachable_wf _ (reach_upsert st data uuid now Hr Hne Hfresh)) as Hwf'.
  apply reachable_wf in Hr as Hwf.
  destruct (upsert_indexed data uuid now st Hwf) as (Hg & Hp & He).
  fold r in Hg, Hp, He, Hwf'.
  destruct (wf_ids _ Hwf' _ _ Hg) as [_ Hid].
  split; [|split; [|split; [done | intros cid; by apply upsert_frame]]].
  - intros p email name Hin Hpne. unfold resolve. cbn [fst].
    apply truthy_Some_ne in Hpne. rewrite Hpne.
    rewrite (index_hit_Some _ _ (id r.1) _ r.1); [done| |done|done].
    apply Hp. unfold phone_keys. apply list_elem_of_fmap. exists p.
    split; [done | by apply upsert_has_phones].
  - intros e phone name Hin Hene Hphone. unfold resolve. cbn [fst].
    assert (match phone with
            | Some p => if truthy phone
                        then index_hit (_phone_index r.2) (_normalize_phone p) r.2
                        else None
            | None => None
            end = None) as -> by (destruct phone; [by rewrite Hphone | done]).
    apply truthy_Some_ne in Hene. rewrite Hene.
    rewrite (index_hit_Some _ _ (id r.1) _ r.1); [done| |done|done].
    apply He. unfold email_keys. apply list_elem_of_fmap. exists e.
    split; [done | by apply upsert_has_emails].
Qed.

Lemma upsert_then_resolve_witness :
  let r := upsert (mkContactUpsert (Some (py "Jo")) [py "+1 (555) 123-4567"]
                                   [py "Jo@Example.com"] [])
                  (py "id-3") 3 two_johns_cache in
  id r.1 = py "id-1"
  /\ (resolve (Some (py "+1 (555) 123-4567")) None None r.2).1
     = mkResult ok (Some r.1) []
  /\ (resolve None (Some (py "Jo@Example.com")) None r.2).1
     = mkResult ok (Some r.1) [].
Proof.
  intros r.
  destruct (upsert_then_resolve two_johns_cache
              (mkContactUpsert (Some (py "Jo")) [py "+1 (555) 123-4567"]
                               [py "Jo@Example.com"] [])
              (py "id-3") 3 reachable_two_johns
              ltac:(by vm_compute) ltac:(by vm_compute)) as (Hp & He & _).
  split; [by vm_compute|]. split.
  - apply Hp; [left | by vm_compute].
  - apply He; [left | by vm_compute | reflexivity].
Defined.

(** ** Saving and loading *)

Lemma contacts_entries st :
  wf st -> _contacts st = entry_of <$> list_all st.
Proof.
  intros [Hnd Hids _ _]. unfold list_all, dict_values, dict_keys in *.
  induction (_contacts st) as [|[k c] d IH]; [done|].
  simpl in *. apply NoDup_cons in Hnd as [Hk Hnd].
  destruct (Hids k c) as [Hid _]; [by rewrite decide_True|].
  unfold entry_of at 1. rewrite Hid. f_equal. apply IH; [done|].
  intros cid c' Hg. apply Hids. destruct (decide (cid = k)) as [->|]; [|done].
  apply dict_get_None in Hk. congruence.
Qed.

Lemma dict_get_entry {V} (d : list (str * V)) k v :
  NoDup (dict_keys d) -> (k, v) ∈ d -> dict_get k d = Some v.
Proof.
  unfold dict_keys. induction d as [|[k0 v0] d IH]; simpl.
  - by intros _ ?%elem_of_nil.
  - intros [Hk Hnd]%NoDup_cons [[= -> ->] | Hin]%elem_of_cons.
    + by rewrite decide_True.
    + destruct (decide (k = k0)) as [->|]; [|by apply IH].
      exfalso. apply Hk. by apply (list_elem_of_fmap_2 fst) in Hin.
Qed.

Lemma load_step c st :
  wf st -> id c <> [] -> dict_get (id c) (_contacts st) = None ->
  wf (_index_contact c
        (mkCache (dict_set (id c) c (_contacts st))
                 (_phone_index st) (_email_index st))).
Proof.
  intros [Hnd Hids Hp He] Hne Hfresh. destruct st as [d pi ei]. simpl in *.
  split; simpl.
  - by apply dict_keys_set_NoDup.
  - intros j c2. destruct (decide (id c = j)) as [<-|Hj].
    + rewrite dict_get_set_eq. by intros [= <-].
    + rewrite dict_get_set_ne by done. apply Hids.
  - by eapply index_sound_create.
  - by eapply index_sound_create.
Qed.

Lemma load_spec items : forall st,
  wf st -> NoDup (id <$> items) ->
  (forall c, c ∈ items -> id c <> [] /\ dict_get (id c) (_contacts st) = None) ->
  wf (_load items st)
  /\ _contacts (_load items st) = _contacts st ++ (entry_of <$> items)
  /\ (forall k, is_Some (_phone_index st !! k)
                \/ (exists c, c ∈ items /\ k ∈ phone_keys c) ->
                is_Some (_phone_index (_load items st) !! k))
  /\ (forall k, is_Some (_email_index st !! k)
                \/ (exists c, c ∈ items /\ k ∈ email_keys c) ->
                is_Some (_email_index (_load items st) !! k)).
Proof.
  induction items as [|c items IH]; intros st Hwf Hnd Hitems.
  - simpl. rewrite app_nil_r. split; [done|]. split; [done|].
    split; intros k [H | (c & Hc%elem_of_nil & _)]; done.
  - cbn [_load fold_left]. rewrite fmap_cons in Hnd.
    apply NoDup_cons in Hnd as [Hc Hnd].
    destruct (Hitems c ltac:(left)) as [Hne Hfresh].
    set (st1 := _index_contact c
                  (mkCache (dict_set (id c) c (_contacts st))
                           (_phone_index st) (_email_index st))).
    destruct (IH st1) as (Hwf' & Hcs & Hp & He).
    + by apply load_step.
    + done.
    + intros c' Hc'. destruct (Hitems c' ltac:(by right)) as [Hne' Hfresh'].
      split; [done|]. simpl. rewrite dict_get_set_ne; [done|].
      intros Heq. apply Hc. rewrite Heq. by apply list_elem_of_fmap_2.
    + split; [exact Hwf'|]. split.
      { unfold _load in Hcs. rewrite Hcs. simpl.
        rewrite dict_keys_set_new by done. by rewrite <- app_assoc. }
      split; intros k Hk.
      * apply Hp. destruct Hk as [Hk | (c' & [->|Hc']%elem_of_cons & Hk)].
        -- left. simpl. rewrite lookup_index_keys. by case_decide.
        -- left. simpl. rewrite lookup_index_keys. by rewrite decide_True.
        -- right. by exists c'.
      * apply He. destruct Hk as [Hk | (c' & [->|Hc']%elem_of_cons & Hk)].
        -- left. simpl. rewrite lookup_index_keys. by case_decide.
        -- left. simpl. rewrite lookup_index_keys. by rewrite decide_True.
        -- right. by exists c'.
Qed.

(** X6: loading what a running cache saved gives back its contacts, in
    their order, with indices in which every entry names a stored contact
    that has the key, and in which every phone and every email of every
    stored contact has an entry. *)
Theorem load_saved st :
  reachable st ->
  let st' := _load (list_all st) empty_cache in
  _contacts st' = _contacts st
  /\ index_sound phone_keys (_phone_index st') st'
  /\ index_sound email_keys (_email_index st') st'
  /\ (forall c k, c ∈ list_all st -> k ∈ phone_keys c ->
        is_Some (_phone_index st' !! k))
  /\ (forall c k, c ∈ list_all st -> k ∈ email_keys c ->
        is_Some (_email_index st' !! k)).
Proof.
  intros Hwf%reachable_wf st'.
  pose proof (contacts_entries st Hwf) as Hentries.
  destruct (load_spec (list_all st) empty_cache wf_empty) as (Hwf' & Hcs & Hp & He).
  - pose proof (wf_nodup _ Hwf) as Hnd. unfold dict_keys in Hnd.
    rewrite Hentries, <- list_fmap_compose in Hnd. exact Hnd.
  - intros c Hc. split; [|done].
    assert (dict_get (id c) (_contacts st) = Some c) as Hg.
    { apply dict_get_entry; [apply Hwf|]. rewrite Hentries.
      by apply (list_elem_of_fmap_2 entry_of). }
    by destruct (wf_ids _ Hwf _ _ Hg).
  - fold st' in Hwf', Hcs, Hp, He. split; [by rewrite Hcs, Hentries|].
    split; [apply Hwf'|]. split; [apply Hwf'|].
    split; intros c k Hc Hk; [apply Hp | apply He]; right; by exists c.
Qed.

Lemma load_saved_witness :
  _contacts (_load (list_all three_upserts) empty_cache)
  = _contacts three_upserts.
Proof. by destruct (load_saved three_upserts reachable_three_upserts). Defined.
(** * More of the PII filter *)

Section PiiMore.
Import Re Pii.

Ltac rule_listed :=
  first [apply in_rules_ssn | apply in_rules_credit_card
        | apply in_rules_bank_account | apply in_rules_routing_number
        | apply in_rules_password | apply in_rules_api_key].

Lemma rules_cases (P : PIIPattern -> Prop) :
  P ssn -> P credit_card -> P bank_account -> P routing_number ->
  P password -> P api_key ->
  forall p, p ∈ _PII_PATTERNS -> P p.
Proof.
  intros H1 H2 H3 H4 H5 H6 p Hp. unfold _PII_PATTERNS in Hp.
  rewrite !elem_of_cons, elem_of_nil in Hp.
  destruct Hp as [-> | [-> | [-> | [-> | [-> | [-> | []]]]]]]; done.
Qed.

Lemma rule_nonempty p :
  p ∈ _PII_PATTERNS -> (1 <= min_len (expr (pattern p)))%nat.
Proof.
  intros Hp. pose proof rules_ok as Hok. rewrite Forall_forall in Hok.
  by destruct (Hok p Hp) as [H _].
Qed.

(** A rule that matches puts its token in the text. *)
Lemma rule_hit p s :
  p ∈ _PII_PATTERNS -> search (pattern p) s = true ->
  exists a b, apply_rule s p = a ++ replacement p ++ b.
Proof.
  intros Hp H. unfold apply_rule, sub.
  by apply (sub_from_hit _ (replacement p) (rule_nonempty p Hp)) in H.
Qed.

(** A rule that does not match leaves the text as it is. *)
Lemma rule_miss p s : search (pattern p) s = false -> apply_rule s p = s.
Proof. intros H. unfold apply_rule, sub. by apply sub_from_id. Qed.

(** A rule keeps a token of the text, or, when it is the password rule and
    takes it, puts its own. *)
Lemma rule_step_token p s :
  p ∈ _PII_PATTERNS ->
  (exists u, u ∈ _PII_PATTERNS /\ exists a b, s = a ++ replacement u ++ b) ->
  exists u, u ∈ _PII_PATTERNS
            /\ exists a b, apply_rule s p = a ++ replacement u ++ b.
Proof.
  intros Hp (u & Hu & Hs). revert p Hp.
  apply rules_cases;
    try (exists u; split; [done|];
         apply rule_keeps_token;
           [rule_listed | done | vm_compute; reflexivity | done]).
  destruct (search (pattern password) s) eqn:E.
  - exists password. split; [apply in_rules_password|].
    by apply rule_hit; [apply in_rules_password|].
  - exists u. split; [done|]. by rewrite rule_miss.
Qed.

Lemma rules_keep_token (rules : list PIIPattern) : forall s,
  (forall p, p ∈ rules -> p ∈ _PII_PATTERNS) ->
  (exists u, u ∈ _PII_PATTERNS /\ exists a b, s = a ++ replacement u ++ b) ->
  exists u, u ∈ _PII_PATTERNS
            /\ exists a b, fold_left apply_rule rules s = a ++ replacement u ++ b.
Proof.
  induction rules as [|p rules IH]; intros s Hsub Hs; [done|].
  cbn [fold_left]. apply IH; [intros q Hq; apply Hsub; by right|].
  apply rule_step_token; [apply Hsub; left | done].
Qed.

Lemma rules_show_token (rules : list PIIPattern) : forall s,
  (forall p, p ∈ rules -> p ∈ _PII_PATTERNS) ->
  (exists q, q ∈ rules /\ search (pattern q) s = true) ->
  exists u, u ∈ _PII_PATTERNS
            /\ exists a b, fold_left apply_rule rules s = a ++ replacement u ++ b.
Proof.
  induction rules as [|p rules IH]; intros s Hsub (q & Hq & Hm).
  - by apply elem_of_nil in Hq.
  - cbn [fold_left]. destruct (search (pattern p) s) eqn:E.
    + apply rules_keep_token; [intros r Hr; apply Hsub; by right|].
      exists p. split; [apply Hsub; left|].
      apply rule_hit; [apply Hsub; left | done].
    + rewrite rule_miss by done.
      apply IH; [intros r Hr; apply Hsub; by right|].
      exists q. split; [|done].
      apply elem_of_cons in Hq as [-> | Hq]; [congruence | done].
Qed.





End PiiMore.
(** * More of the imsg adapter *)

(** ** Stripping *)

Lemma lstrip_suffix (s : str) : exists k, lstrip s = drop k s.
Proof.
  induction s as [|c s [k IH]]; [by exists 0%nat|]. simpl.
  destruct (isspace c); [by exists (S k) | by exists 0%nat].
Qed.

Lemma lstrip_head_ok (s : str) c : head (lstrip s) = Some c -> isspace c = false.
Proof.
  induction s as [|x s IH]; [done|]. simpl.
  destruct (isspace x) eqn:E; [done|]. by intros [= <-].
Qed.

Lemma lstrip_app_keep (x z : str) c :
  isspace c = false -> exists y, lstrip (x ++ c :: z) = y ++ c :: z.
Proof.
  intros Hc. induction x as [|a x [y IH]]; simpl.
  - rewrite Hc. by exists [].
  - destruct (isspace a); [by exists y | by exists (a :: x)].
Qed.

Lemma rev_reverse {A} (l : list A) : rev l = reverse l.
Proof. apply rev_alt. Qed.

Lemma rstrip_last_ok (s : str) c : last (rstrip s) = Some c -> isspace c = false.
Proof.
  unfold rstrip. rewrite rev_reverse, last_reverse. apply lstrip_head_ok.
Qed.

Lemma rstrip_head_keep (s : str) c :
  head s = Some c -> isspace c = false -> head (rstrip s) = Some c.
Proof.
  destruct s as [|x s]; [done|]. intros [= ->] Hc. unfold rstrip.
  simpl rev. destruct (lstrip_app_keep (rev s) [] c Hc) as [y ->].
  by rewrite rev_app_distr.
Qed.

Lemma strip_head_ok (s : str) c : head (strip s) = Some c -> isspace c = false.
Proof.
  unfold strip. destruct (lstrip s) as [|x a] eqn:E; [done|].
  assert (isspace x = false) as Hx by (apply (lstrip_head_ok s); by rewrite E).
  rewrite (rstrip_head_keep (x :: a) x) by done. by intros [= <-].
Qed.

Lemma strip_last_ok (s : str) c : last (strip s) = Some c -> isspace c = false.
Proof. apply rstrip_last_ok. Qed.

(** A text that neither leads nor ends with whitespace is its own strip. *)
Lemma strip_fixed (s : str) :
  (forall c, head s = Some c -> isspace c = false) ->
  (forall c, last s = Some c -> isspace c = false) ->
  strip s = s.
Proof.
  intros Hh Hl. unfold strip, rstrip.
  rewrite (lstrip_head s) by (destruct s; [done | by apply Hh]).
  rewrite lstrip_head; [apply rev_involutive|].
  destruct (rev s) as [|c r] eqn:E; [done|]. apply Hl.
  rewrite <- (rev_involutive s), E, rev_reverse, last_reverse. done.
Qed.

Lemma strip_idempotent (s : str) : strip (strip s) = strip s.
Proof. apply strip_fixed; [apply strip_head_ok | apply strip_last_ok]. Qed.

Lemma Forall_strip (P : N -> Prop) (s : str) : Forall P s -> Forall P (strip s).
Proof.
  intros H. unfold strip, rstrip. apply Forall_rev.
  destruct (lstrip_suffix (rev (lstrip s))) as [k ->]. apply Forall_drop.
  apply Forall_rev. destruct (lstrip_suffix s) as [j ->]. by apply Forall_drop.
Qed.

(** ** Cleaning *)

Lemma clean_text_eq (text : str) :
  Imsg._clean_text text
  = strip (List.filter (fun c => negb (bool_decide (c ∈ Imsg._STRIP_CHARS))) text).
Proof. by destruct text. Qed.

Lemma Forall_filter_keep {A} (f : A -> bool) (l : list A) :
  Forall (fun x => f x = true) (List.filter f l).
Proof.
  induction l as [|x l IH]; [done|]. simpl.
  destruct (f x) eqn:E; [by constructor | done].
Qed.

Lemma filter_all {A} (f : A -> bool) (l : list A) :
  Forall (fun x => f x = true) l -> List.filter f l = l.
Proof. induction 1 as [|x l Hx _ IH]; [done|]. simpl. by rewrite Hx, IH. Qed.

(** X10: cleaning a text twice is cleaning it once; a cleaned text holds
    none of the characters to strip and neither leads nor ends with
    whitespace. *)
Theorem clean_text_idempotent (text : str) :
  Imsg._clean_text (Imsg._clean_text text) = Imsg._clean_text text
  /\ Forall (fun c => c ∉ Imsg._STRIP_CHARS) (Imsg._clean_text text)
  /\ (forall c, head (Imsg._clean_text text) = Some c -> isspace c = false)
  /\ (forall c, last (Imsg._clean_text text) = Some c -> isspace c = false).
Proof.
  rewrite !clean_text_eq.
  set (keep := fun c => negb (bool_decide (c ∈ Imsg._STRIP_CHARS))).
  assert (Forall (fun c => keep c = true) (strip (List.filter keep text))) as Hk
    by apply Forall_strip, Forall_filter_keep.
  split; [|split; [|split; [apply strip_head_ok | apply strip_last_ok]]].
  - rewrite (filter_all keep) by done. apply strip_idempotent.
  - eapply Forall_impl; [exact Hk|]. intros c Hc. unfold keep in Hc.
    apply negb_true_iff in Hc. by apply bool_decide_eq_false in Hc.
Qed.

(** ** Finding all matches *)

Section FindAll.
Import Re.
Variable pt : pattern.

(** What [findall] returns are matches of the pattern, each at its place in
    the text. *)
Lemma findall_from_sound s : forall prev skip u,
  u ∈ findall_from pt prev s skip ->
  exists a b, s = a ++ u ++ b
    /\ Mt (ignorecase pt) (expr pt) (lastp prev a) u b.
Proof.
  induction s as [|c s IH]; intros prev skip u; cbn [findall_from].
  - destruct skip; [|by intros ?%elem_of_nil].
    destruct (match_len pt prev []) as [n|] eqn:E; [|by intros ?%elem_of_nil].
    intros ->%list_elem_of_singleton. exists [], [].
    apply match_len_Some in E as [Hn HM]. simpl in Hn.
    assert (n = 0%nat) as -> by lia. done.
  - assert (forall k, u ∈ findall_from pt (Some c) s k ->
              exists a b, c :: s = a ++ u ++ b
                /\ Mt (ignorecase pt) (expr pt) (lastp prev a) u b) as Hrec.
    { intros k (a & b & -> & HM)%IH. exists (c :: a), b.
      by rewrite lastp_cons. }
    destruct skip as [|k]; [|apply Hrec].
    destruct (match_len pt prev (c :: s)) as [[|n]|] eqn:E; [| |apply Hrec].
    + intros [-> | Hu]%elem_of_cons; [|by apply (Hrec 0%nat)].
      exists [], (c :: s). apply match_len_Some in E as [_ HM]. done.
    + intros [-> | Hu]%elem_of_cons; [|by apply (Hrec n)].
      exists [], (drop (S n) (c :: s)). apply match_len_Some in E as [_ HM].
      split; [|done]. cbn [app]. by rewrite take_drop.
Qed.

End FindAll.

(** ** URLs *)

Section Urls.
Import Re.

Lemma lit_no_space c x :
  isspace c = false -> lit_eq true c x = true -> isspace x = false.
Proof.
  unfold lit_eq. intros Hc H%N.eqb_eq.
  by rewrite <- (isspace_lower x), <- H, isspace_lower.
Qed.

Lemma atom_no_space a x :
  match a with
  | Ch c => isspace c = false
  | Digit | Word => True
  | _ => False
  end ->
  atom_mem x a = true -> isspace x = false.
Proof.
  destruct a as [c| | | |]; simpl; try done.
  - intros Hc <-%N.eqb_eq. done.
  - intros _ H. apply is_word_not_space. unfold is_word. by rewrite H, orb_true_r.
  - intros _. apply is_word_not_space.
Qed.

Lemma set_no_space (l : list atom) x :
  Forall (fun a => match a with
                   | Ch c => isspace c = false
                   | Digit | Word => True
                   | _ => False
                   end) l ->
  in_set true l x = true -> isspace x = false.
Proof.
  intros Hl. unfold in_set. simpl.
  assert (forall y, existsb (atom_mem y) l = true -> isspace y = false) as H.
  { intros y (a & Ha & Hy)%existsb_exists. rewrite Forall_forall in Hl.
    apply (atom_no_space a); [|done]. apply Hl. by apply list_elem_of_In. }
  intros [Hx | [Hx | Hx]%orb_true_iff]%orb_true_iff.
  - by apply H.
  - rewrite <- isspace_lower. by apply H.
  - rewrite <- isspace_upper. by apply H.
Qed.

Lemma notset_no_space (l : list atom) x :
  Space ∈ l -> xorb true (in_set true l x) = true -> isspace x = false.
Proof.
  intros Hl H. apply negb_true_iff in H. unfold in_set in H.
  apply orb_false_iff in H as [H _].
  destruct (isspace x) eqn:E; [|done].
  assert (existsb (atom_mem x) l = true) as Hx; [|congruence].
  apply existsb_exists. exists Space. by rewrite <- list_elem_of_In.
Qed.

Lemma url_tests_no_space :
  Forall (fun t => forall x, test_ok true t x = true -> isspace x = false)
         (tests (expr Imsg._URL_PATTERN)).
Proof.
  repeat apply List.Forall_cons; try apply List.Forall_nil; intros x;
    cbn [test_ok].
  all: first
    [ apply lit_no_space; reflexivity
    | apply (set_no_space [Word; Ch 45]); by repeat constructor
    | apply notset_no_space; left ].
Qed.

(** A match of the URL pattern has no whitespace and opens with [http], in
    upper or lower case. *)
Lemma url_match_shape prev u b :
  Mt true (expr Imsg._URL_PATTERN) prev u b ->
  Forall (fun c => isspace c = false) u /\ lower (take 4 u) = py "http".
Proof.
  intros HM. split.
  - apply Mt_tests in HM. eapply Forall_impl; [exact HM|].
    intros x (t & Ht & Hx). pose proof url_tests_no_space as H.
    rewrite Forall_forall in H. by apply (H t).
  - destruct HM as (w1 & w2 & -> & H1 & _).
    change (Mt true (Cat (Lit 104) (Cat (Lit 116) (Cat (Lit 116) (Lit 112))))
               prev w1 (w2 ++ b)) in H1.
    destruct H1 as (? & ? & -> & (x1 & -> & E1) & ? & ? & -> & (x2 & -> & E2)
                    & ? & ? & -> & (x3 & -> & E3) & x4 & -> & E4).
    unfold lit_eq in *. apply N.eqb_eq in E1, E2, E3, E4.
    simpl. by rewrite <- E1, <- E2, <- E3, <- E4.
Qed.

Lemma extract_urls_sound text u :
  u ∈ Imsg._extract_urls text ->
  text <> []
  /\ exists a b, Imsg._clean_text text = a ++ u ++ b
       /\ Mt true (expr Imsg._URL_PATTERN) (lastp None a) u b.
Proof.
  unfold Imsg._extract_urls. destruct text as [|c t]; [by intros ?%elem_of_nil|].
  intros H. split; [done|]. unfold findall in H.
  by apply findall_from_sound in H.
Qed.

Lemma extracted_url_facts text u :
  u ∈ Imsg._extract_urls text ->
  (exists a b, Imsg._clean_text text = a ++ u ++ b)
  /\ Forall (fun c => isspace c = false) u
  /\ lower (take 4 u) = py "http"
  /\ contains (Imsg._get_link_context text u 50) u = true.
Proof.
  intros (Htext & a & b & Hc & [Hsp Hhttp]%url_match_shape)%extract_urls_sound.
  split; [by exists a, b|]. split; [done|]. split; [done|].
  pose proof (contains_app a u b) as Hin. rewrite <- Hc in Hin.
  apply bool_decide_eq_true in Hin as [idx Hidx].
  rewrite (get_link_context_found text u 50 idx Htext Hidx). cbv zeta.
  pose proof (find_Some _ _ _ Hidx) as Hsplit.
  pose proof (find_Some_le _ _ _ Hidx) as Hle.
  set (cleaned := Imsg._clean_text text) in *.
  set (A := take idx cleaned) in *.
  set (B := drop (idx + length u) cleaned) in *.
  assert (length A = idx) as HA by (subst A; rewrite length_take; lia).
  rewrite Hsplit at 1 2 3. rewrite <- HA at 1 2 3.
  rewrite (slice_window A u B 50).
  match goal with
  | |- contains (?pre ++ (?x ++ u ++ ?y) ++ ?post) u = true =>
      replace (pre ++ (x ++ u ++ y) ++ post)
        with ((pre ++ x) ++ u ++ (y ++ post))
        by (by rewrite <- !app_assoc)
  end.
  apply contains_app.
Qed.



End Urls.

(** ** Links, threads, sending and replying *)

Section AdapterMore.
Context {datetime float World : Type}.
Context (str_of_float : float -> str).
Context (thirty_seconds : float).
Context (shlex_join : list str -> str).
Context (imsg_path : str).
Context (run : list str -> float -> @Imsg.M World Imsg.proc_outcome).
Context (list_threads : Z -> @Imsg.M World (list (@Imsg.Thread datetime))).
Context (get_messages :
  Z -> Z -> option datetime -> option datetime -> option (list str) -> bool ->
  @Imsg.M World (list (@Imsg.Message datetime))).
Context (default_region : str).
Context (get_thread : Z -> @Imsg.M World (option (@Imsg.Thread datetime))).

Local Abbreviation Message := (@Imsg.Message datetime).
Local Abbreviation extract_links := (Imsg.extract_links list_threads get_messages).
Local Abbreviation find_thread :=
  (Imsg.find_thread_by_recipient list_threads get_messages).
Local Abbreviation probe := (Imsg.probe_threads get_messages).
Local Abbreviation build := (Imsg.build_send_command imsg_path default_region).
Local Abbreviation run_raw :=
  (Imsg._run_imsg_raw str_of_float shlex_join imsg_path run).
Local Abbreviation send :=
  (Imsg.send_message_v2 str_of_float thirty_seconds shlex_join imsg_path run
     default_region).
Local Abbreviation reply :=
  (Imsg.reply_to_thread str_of_float thirty_seconds shlex_join imsg_path run
     get_messages default_region get_thread).

(** *** Links *)

Lemma add_links_spec limit (msg : Message) urls : forall links,
  Imsg.add_links limit msg urls links
  = links ++ take (Z.to_nat limit - length links)
      ((fun u =>
          Imsg.mkExtractedLink u (Imsg.id msg)
            (if Imsg.is_from_me msg then Some (py "me") else Imsg.sender msg)
            (Imsg.created_at msg)
            (Some (Imsg._get_link_context (default [] (Imsg.text msg)) u 50)))
       <$> urls).
Proof.
  induction urls as [|u urls IH]; intros links.
  - simpl. by rewrite take_nil, app_nil_r.
  - cbn [Imsg.add_links].
    destruct (Z.leb_spec limit (Z.of_nat (length links))) as [Hle|Hgt].
    + replace (Z.to_nat limit - length links)%nat with 0%nat by lia.
      by rewrite take_0, app_nil_r.
    + rewrite IH, length_app, fmap_cons. simpl. rewrite <- app_assoc. f_equal.
      replace (Z.to_nat limit - length links)%nat
        with (S (Z.to_nat limit - (length links + 1)))%nat by lia.
      done.
Qed.

Lemma take_app_take {A} (n : nat) (x y : list A) :
  take n x ++ take (n - length (take n x)) y = take n (x ++ y).
Proof.
  rewrite take_app. f_equal. rewrite length_take.
  destruct (decide (n <= length x)%nat).
  - replace (n - n `min` length x)%nat with 0%nat by lia.
    replace (n - length x)%nat with 0%nat by lia. done.
  - f_equal. lia.
Qed.

Lemma collect_links_spec limit from_me (messages : list Message) :
  forall links,
  Imsg.collect_links limit from_me messages links
  = links ++ take (Z.to_nat limit - length links)
                  (messages ≫= Imsg.links_of from_me).
Proof.
  induction messages as [|msg messages IH]; intros links.
  - simpl. by rewrite take_nil, app_nil_r.
  - cbn [Imsg.collect_links]. rewrite bind_cons.
    destruct (Z.leb_spec limit (Z.of_nat (length links))) as [Hle|Hgt].
    { replace (Z.to_nat limit - length links)%nat with 0%nat by lia.
      by rewrite take_0, app_nil_r. }
    set (rest := messages ≫= Imsg.links_of from_me) in *.
    unfold Imsg.links_of.
    destruct (Imsg.wrong_side from_me msg); [apply IH|].
    destruct (negb (truthy (Imsg.text msg))); [apply IH|]. cbn [orb].
    rewrite IH, add_links_spec, <- app_assoc. f_equal.
    rewrite length_app, <- take_app_take. f_equal. f_equal. lia.
Qed.

Lemma links_of_inv from_me (msg : Message) l :
  l ∈ Imsg.links_of from_me msg ->
  Imsg.wrong_side from_me msg = false
  /\ Imsg.url l ∈ Imsg._extract_urls (default [] (Imsg.text msg))
  /\ Imsg.message_id l = Imsg.id msg
  /\ Imsg.link_sender l
     = (if Imsg.is_from_me msg then Some (py "me") else Imsg.sender msg)
  /\ Imsg.context l
     = Some (Imsg._get_link_context (default [] (Imsg.text msg))
               (Imsg.url l) 50).
Proof.
  unfold Imsg.links_of. destruct (Imsg.wrong_side from_me msg).
  - by intros ?%elem_of_nil.
  - destruct (negb (truthy (Imsg.text msg))); [by intros ?%elem_of_nil|].
    cbn [orb]. intros (u & -> & Hu)%list_elem_of_fmap. done.
Qed.


(** *** Looking a thread up *)

Lemma probe_threads_spec recipient threads : forall w,
  exists r w', probe recipient threads w = (r, w')
    /\ (forall e, r <> Imsg.Raise (Imsg.ImsgErr e))
    /\ (forall t, r = Imsg.Ok (Some t) ->
          exists th, th ∈ threads /\ Imsg.thread_id_of th = t).
Proof.
  induction threads as [|th threads IH]; intros w.
  - exists (Imsg.Ok None), w. split; [done|]. split; [done|]. by intros t [=].
  - cbn [Imsg.probe_threads]. unfold Imsg.catch_imsg, Imsg.bind.
    assert (forall w1, exists r w',
              probe recipient threads w1 = (r, w')
              /\ (forall e, r <> Imsg.Raise (Imsg.ImsgErr e))
              /\ (forall t, r = Imsg.Ok (Some t) ->
                    exists th', th' ∈ th :: threads
                                /\ Imsg.thread_id_of th' = t)) as IH'.
    { intros w1. destruct (IH w1) as (r & w' & E & Hne & Hin).
      exists r, w'. split; [done|]. split; [done|].
      intros t Ht. destruct (Hin t Ht) as (th' & ? & ?). exists th'.
      split; [by right | done]. }
    destruct (get_messages (Imsg.thread_id_of th) 1 None None
                           (Some [recipient]) false w)
      as [[[|m messages]|[e|]] w1] eqn:Hg.
    + destruct (IH' w1) as (r & w' & E & Hne & Hin). rewrite E.
      exists r, w'. split; [|done].
      destruct r as [a|[e|]]; [done| |done]. by destruct (Hne e).
    + exists (Imsg.Ok (Some (Imsg.thread_id_of th))), w1.
      split; [done|]. split; [done|]. intros t [= <-]. exists th.
      split; [left | done].
    + apply IH'.
    + exists (Imsg.Raise Imsg.OtherExn), w1. split; [done|]. split; [done|].
      by intros t [=].
Qed.

(** X13: when the threads can be listed, [find_thread_by_recipient] does
    not raise an [ImsgError], whatever the reads of the threads do, and a
    thread identifier it returns is that of a thread listed. *)
Theorem find_thread_keeps_errors recipient max_threads w threads w1 :
  list_threads max_threads w = (Imsg.Ok threads, w1) ->
  exists r w2,
    Imsg.find_thread_by_recipient list_threads get_messages recipient
      max_threads w = (r, w2)
    /\ (forall e, r <> Imsg.Raise (Imsg.ImsgErr e))
    /\ (forall t, r = Imsg.Ok (Some t) ->
          exists th, th ∈ threads /\ Imsg.thread_id_of th = t).
Proof.
  intros Hl. unfold Imsg.find_thread_by_recipient, Imsg.bind. rewrite Hl.
  apply probe_threads_spec.
Qed.

Lemma probe_threads_found recipient threads : forall w r w',
  probe recipient threads w = (r, w') ->
  r = Imsg.Ok None \/ r = Imsg.Raise Imsg.OtherExn
  \/ exists th w0 m ms,
       th ∈ threads /\ r = Imsg.Ok (Some (Imsg.thread_id_of th))
       /\ get_messages (Imsg.thread_id_of th) 1 None None (Some [recipient])
                       false w0 = (Imsg.Ok (m :: ms), w').
Proof.
  induction threads as [|th threads IH]; intros w r w' E.
  - left. by injection E as <- <-.
  - assert (forall w1, probe recipient threads w1 = (r, w') ->
              r = Imsg.Ok None \/ r = Imsg.Raise Imsg.OtherExn
              \/ exists th' w0 m ms,
                   th' ∈ th :: threads
                   /\ r = Imsg.Ok (Some (Imsg.thread_id_of th'))
                   /\ get_messages (Imsg.thread_id_of th') 1 None None
                        (Some [recipient]) false w0
                      = (Imsg.Ok (m :: ms), w')) as IH'.
    { intros w1 E1.
      destruct (IH w1 r w' E1) as [?|[?|(th' & w0 & m & ms & ? & ? & ?)]];
        [by left | by right; left |].
      right; right. exists th', w0, m, ms. split; [by right | done]. }
    cbn [Imsg.probe_threads] in E. unfold Imsg.catch_imsg, Imsg.bind in E.
    destruct (get_messages (Imsg.thread_id_of th) 1 None None
                           (Some [recipient]) false w)
      as [[[|m messages]|[e|]] w1] eqn:Hg.
    + destruct (probe_threads_spec recipient threads w1)
        as (r1 & w1' & E1 & Hne & _).
      rewrite E1 in E. apply (IH' w1). rewrite E1.
      destruct r1 as [a|[e|]]; [done| |done]. by destruct (Hne e).
    + cbn in E. injection E as <- <-. right; right.
      exists th, w, m, messages. split; [left | done].
    + by apply (IH' w1).
    + cbn in E. injection E as <- <-. by right; left.
Qed.

(** X21: when the threads can be listed, [get_messages_by_recipient] gives
    the empty list, or lets an exception other than an [ImsgError] of the
    search for the thread pass, or is the read, with no filter on the
    participants, of a thread that is listed, whose identifier is not zero
    and in which a read of one message with the recipient as participant
    found a message; the read is made in the state that the search for the
    thread left. *)
Theorem history_of_found_thread recipient limit start end_ incl w threads w1 :
  list_threads 50 w = (Imsg.Ok threads, w1) ->
  exists r w3,
    Imsg.get_messages_by_recipient list_threads get_messages recipient limit
      start end_ incl w = (r, w3)
    /\ (r = Imsg.Ok [] \/ r = Imsg.Raise Imsg.OtherExn
        \/ exists th w0 m ms w2,
             th ∈ threads /\ Imsg.thread_id_of th <> 0%Z
             /\ get_messages (Imsg.thread_id_of th) 1 None None
                             (Some [recipient]) false w0
                = (Imsg.Ok (m :: ms), w2)
             /\ get_messages (Imsg.thread_id_of th) limit start end_ None
                             incl w2 = (r, w3)).
Proof.
  intros Hl.
  unfold Imsg.get_messages_by_recipient, Imsg.find_thread_by_recipient.
  unfold Imsg.bind at 1 2. rewrite Hl.
  destruct (probe recipient threads w1) as [r0 w2] eqn:Hp.
  destruct (probe_threads_found _ _ _ _ _ Hp)
    as [->|[->|(th & w0 & m & ms & Hin & -> & Hg)]].
  - exists (Imsg.Ok []), w2. split; [done | by left].
  - exists (Imsg.Raise Imsg.OtherExn), w2. split; [done | by right; left].
  - destruct (Z.eqb_spec (Imsg.thread_id_of th) 0) as [E0|Hne].
    + exists (Imsg.Ok []), w2. split; [done | by left].
    + destruct (get_messages (Imsg.thread_id_of th) limit start end_ None
                             incl w2) as [r w3] eqn:Hr.
      exists r, w3. split; [done|]. right; right.
      by exists th, w0, m, ms, w2.
Qed.

(** *** Sending *)

Lemma build_send_command_head data region_arg :
  imsg_path :: tail (build data region_arg) = build data region_arg.
Proof.
  unfold Imsg.build_send_command.
  set (args0 := [imsg_path; py "send"; py "--to"; Imsg.to data]).
  set (args1 := if truthy (Imsg.msg_text data) then _ else _).
  assert (exists r, args1 = imsg_path :: r) as [r1 E1]
    by (subst args1; destruct (truthy _); by eexists).
  set (args2 := fold_left _ _ _).
  assert (exists r, args2 = imsg_path :: r) as [r2 E2].
  { subst args2. rewrite E1. clear. revert r1.
    induction (Imsg.files data) as [|f fs IH]; intros r; [by eexists|].
    simpl. apply IH. }
  rewrite E2. by destruct (_ && _).
Qed.

(** X14: a dry run of [send_message_v2] runs nothing and reports the
    command line; a real send runs that command line, with a time-out of
    thirty seconds, and answers ok when the binary exits with code zero and
    not ok, with the error text, in every other case; no [ImsgError] leaves
    [send_message_v2]. *)
Theorem send_runs_reported_command data w :
  let cmd := build data None in
  send data true w
  = (Imsg.Ok (Imsg.mkMessageSendResponse true (Some (Imsg.to data))
                (Some (shlex_join cmd)) None), w)
  /\ (forall out err w',
        run cmd thirty_seconds w = (Imsg.Ok (Imsg.Exited 0 out err), w') ->
        send data false w
        = (Imsg.Ok (Imsg.mkMessageSendResponse true (Some (Imsg.to data))
                      None None), w'))
  /\ (forall o w',
        run cmd thirty_seconds w = (Imsg.Ok o, w') ->
        (forall out err, o <> Imsg.Exited 0 out err) ->
        exists e,
          run_raw (tail cmd) thirty_seconds w
          = (Imsg.Raise (Imsg.ImsgErr e), w')
          /\ send data false w
             = (Imsg.Ok (Imsg.mkMessageSendResponse false
                           (Some (Imsg.to data)) None
                           (Some (Imsg.send_error e))), w'))
  /\ (forall dry_run e w', send data dry_run w
                           <> (Imsg.Raise (Imsg.ImsgErr e), w')).
Proof.
  intros cmd. split; [done|].
  assert (forall o w', run cmd thirty_seconds w = (Imsg.Ok o, w') ->
            run_raw (tail cmd) thirty_seconds w
            = match o with
              | Imsg.FileNotFound =>
                  (Imsg.Raise (Imsg.ImsgErr
                     (Imsg.not_found_error (shlex_join cmd))), w')
              | Imsg.TimedOut =>
                  (Imsg.Raise (Imsg.ImsgErr
                     (Imsg.timeout_error str_of_float thirty_seconds
                        (shlex_join cmd))), w')
              | Imsg.Exited returncode out err =>
                  if negb (returncode =? 0)%Z then
                    (Imsg.Raise (Imsg.ImsgErr
                       (Imsg.mkImsgError (Imsg.failed_message returncode)
                          (Imsg.code_or returncode)
                          (if truthy (Some (strip err)) then strip err
                           else strip out)
                          (Some (shlex_join cmd)))), w')
                  else (Imsg.Ok out, w')
              end) as Hraw.
  { intros o w' Hrun. unfold Imsg._run_imsg_raw, Imsg.bind.
    subst cmd. rewrite build_send_command_head, Hrun.
    destruct o as [| |rc out err]; try done. by destruct (negb _). }
  split; [|split].
  - intros out err w' Hrun. unfold Imsg.send_message_v2.
    unfold Imsg.catch_imsg_as, Imsg.bind. fold cmd.
    by rewrite (Hraw _ _ Hrun).
  - intros o w' Hrun Hne. specialize (Hraw _ _ Hrun).
    assert (exists e, run_raw (tail cmd) thirty_seconds w
                      = (Imsg.Raise (Imsg.ImsgErr e), w')) as [e He].
    { rewrite Hraw. destruct o as [| |rc out err]; [by eexists..|].
      destruct (Z.eqb_spec rc 0) as [->|]; [by destruct (Hne out err)|].
      by eexists. }
    exists e. split; [done|]. unfold Imsg.send_message_v2.
    unfold Imsg.catch_imsg_as, Imsg.bind. fold cmd. by rewrite He.
  - intros [|] e w'; [done|]. unfold Imsg.send_message_v2.
    unfold Imsg.catch_imsg_as, Imsg.bind. fold cmd.
    destruct (run_raw (tail cmd) thirty_seconds w) as [[a|[e0|]] w0]; done.
Qed.

(** *** Replying *)

Lemma last_inbound_skip (x y : list Message) :
  Forall (fun m => Imsg.is_from_me m = true \/ truthy (Imsg.sender m) = false) x ->
  Imsg.last_inbound_sender (x ++ y) = Imsg.last_inbound_sender y.
Proof.
  induction 1 as [|m x [Hm | Hm] _ IH]; [done| |]; simpl; rewrite Hm;
    rewrite ?andb_false_r; done.
Qed.

Lemma last_inbound_found (msgs before after : list Message) m s :
  msgs = before ++ m :: after ->
  Imsg.is_from_me m = false -> Imsg.sender m = Some s -> s <> [] ->
  Forall (fun m' => Imsg.is_from_me m' = true
                    \/ truthy (Imsg.sender m') = false) after ->
  Imsg.last_inbound_sender (rev msgs) = Some s.
Proof.
  intros -> Hm Hs Hne Hafter. rewrite rev_app_distr. simpl.
  rewrite <- app_assoc. rewrite last_inbound_skip by (by apply Forall_rev).
  simpl. rewrite Hm, Hs. apply truthy_Some_ne in Hne. by rewrite Hne.
Qed.

Lemma last_inbound_none (msgs : list Message) :
  Forall (fun m' => Imsg.is_from_me m' = true
                    \/ truthy (Imsg.sender m') = false) msgs ->
  Imsg.last_inbound_sender (rev msgs) = None.
Proof.
  intros H. rewrite <- (app_nil_r (rev msgs)).
  rewrite last_inbound_skip by (by apply Forall_rev). done.
Qed.

Lemma reply_to_inbound_sender text recipient w t msgs w1 before m after s :
  truthy recipient = false -> t <> 0%Z ->
  get_messages t 10 None None None false w = (Imsg.Ok msgs, w1) ->
  msgs = before ++ m :: after ->
  Imsg.is_from_me m = false -> Imsg.sender m = Some s -> s <> [] ->
  Forall (fun m' => Imsg.is_from_me m' = true
                    \/ truthy (Imsg.sender m') = false) after ->
  reply text (Some t) recipient w = send (Imsg.reply_message s text) false w1.
Proof.
  intros Hr Ht Hg Hmsgs Hm Hs Hne Hafter. unfold Imsg.reply_to_thread.
  rewrite Hr. destruct (Z.eqb_spec t 0) as [|_]; [done|].
  unfold Imsg.bind at 1. rewrite Hg.
  rewrite (last_inbound_found msgs before after m s) by done.
  apply truthy_Some_ne in Hne. rewrite Hne.
  unfold Imsg.bind, Imsg.ret. by rewrite Hne.
Qed.

(** X15: a reply without a recipient and without a thread (none, or thread
    zero) runs nothing and answers not ok.  A reply to a thread goes to the
    sender of the last of the ten messages read that is not from me and has
    a sender; when there is none it goes to the first participant of the
    thread, and when there is no thread, no participant or an empty handle,
    nothing is sent and the answer is not ok. *)
Theorem reply_recipient text thread_id recipient w :
  truthy recipient = false ->
  (thread_id = None \/ thread_id = Some 0%Z ->
   reply text thread_id recipient w
   = (Imsg.Ok (Imsg.mkMessageSendResponse false None None
                 (Some Imsg.no_scope_error)), w))
  /\ (forall t msgs w1 before m after s,
        thread_id = Some t -> t <> 0%Z ->
        get_messages t 10 None None None false w = (Imsg.Ok msgs, w1) ->
        msgs = before ++ m :: after ->
        Imsg.is_from_me m = false -> Imsg.sender m = Some s -> s <> [] ->
        Forall (fun m' => Imsg.is_from_me m' = true
                          \/ truthy (Imsg.sender m') = false) after ->
        reply text thread_id recipient w
        = send (Imsg.reply_message s text) false w1)
  /\ (forall t msgs w1 thread w2,
        thread_id = Some t -> t <> 0%Z ->
        get_messages t 10 None None None false w = (Imsg.Ok msgs, w1) ->
        Forall (fun m' => Imsg.is_from_me m' = true
                          \/ truthy (Imsg.sender m') = false) msgs ->
        get_thread t w1 = (Imsg.Ok thread, w2) ->
        reply text thread_id recipient w
        = match thread with
          | Some th =>
              match Imsg.participants th with
              | p :: _ =>
                  if truthy (Some (Imsg.handle p))
                  then send (Imsg.reply_message (Imsg.handle p) text) false w2
                  else (Imsg.Ok (Imsg.mkMessageSendResponse false None None
                                   (Some (Imsg.no_recipient_error t))), w2)
              | [] => (Imsg.Ok (Imsg.mkMessageSendResponse false None None
                                  (Some (Imsg.no_recipient_error t))), w2)
              end
          | None => (Imsg.Ok (Imsg.mkMessageSendResponse false None None
                                (Some (Imsg.no_recipient_error t))), w2)
          end).
Proof.
  intros Hr. unfold Imsg.reply_to_thread. rewrite Hr. split; [|split].
  - by intros [-> | ->].
  - intros t msgs w1 before m after s -> Ht Hg Hmsgs Hm Hs Hne Hafter.
    rewrite <- (reply_to_inbound_sender text recipient w t msgs w1 before m
                  after s) by done.
    unfold Imsg.reply_to_thread. by rewrite Hr.
  - intros t msgs w1 thread w2 -> Ht Hg Hmsgs Hth.
    destruct (Z.eqb_spec t 0) as [|_]; [done|].
    unfold Imsg.bind at 1. rewrite Hg. rewrite last_inbound_none by done.
    change (truthy (@None str)) with false. cbv iota.
    unfold Imsg.bind, Imsg.ret. rewrite Hth.
    destruct thread as [th|]; [|done].
    destruct (Imsg.participants th) as [|p ps]; [done|].
    by destruct (truthy (Some (Imsg.handle p))).
Qed.

End AdapterMore.


Lemma find_thread_keeps_errors_witness :
  exists r w2,
    Imsg.find_thread_by_recipient (@Imsg.one_thread unit) Imsg.failing_history
      (py "+15551234567") 50 tt = (r, w2)
    /\ forall e, r <> Imsg.Raise (Imsg.ImsgErr e).
Proof.
  destruct (find_thread_keeps_errors (@Imsg.one_thread unit)
              Imsg.failing_history (py "+15551234567") 50 tt
              [Imsg.some_thread] tt eq_refl) as (r & w2 & H1 & H2 & _).
  by exists r, w2.
Defined.

Lemma history_of_found_thread_witness :
  exists r w3,
    Imsg.get_messages_by_recipient (@Imsg.one_thread unit) (@Imsg.link_history unit)
      (py "+15551234567") 50 None None false tt = (r, w3)
    /\ (r = Imsg.Ok [] \/ r = Imsg.Raise Imsg.OtherExn
        \/ exists th w0 m ms w2,
             th ∈ [@Imsg.some_thread unit] /\ Imsg.thread_id_of th <> 0%Z
             /\ @Imsg.link_history unit (Imsg.thread_id_of th) 1 None None
                  (Some [py "+15551234567"]) false w0
                = (Imsg.Ok (m :: ms), w2)
             /\ @Imsg.link_history unit (Imsg.thread_id_of th) 50 None None None
                  false w2 = (r, w3)).
Proof.
  exact (history_of_found_thread (@Imsg.one_thread unit) (@Imsg.link_history unit)
           (py "+15551234567") 50 None None false tt [Imsg.some_thread] tt
           eq_refl).
Defined.

Lemma send_runs_reported_command_witness :
  let data := Imsg.mkMessageSend (py "+15551234567") (Some (py "hi")) []
                                 (py "auto") None in
  Imsg.send_message_v2 (fun _ : unit => py "30.0") tt Imsg.plain_join
    (py "imsg") Imsg.ok_run (py "US") data false tt
  = (Imsg.Ok (Imsg.mkMessageSendResponse true (Some (py "+15551234567"))
                None None), tt).
Proof.
  intros data.
  destruct (send_runs_reported_command (fun _ : unit => py "30.0") tt
              Imsg.plain_join (py "imsg") Imsg.ok_run (py "US") data tt)
    as (_ & Hok & _).
  by apply (Hok [] [] tt).
Defined.

Lemma reply_recipient_witness :
  Imsg.reply_to_thread (fun _ : unit => py "30.0") tt Imsg.plain_join
    (py "imsg") Imsg.ok_run (@Imsg.link_history unit) (py "US")
    Imsg.no_thread (py "hello") (Some 42%Z) None tt
  = Imsg.send_message_v2 (fun _ : unit => py "30.0") tt Imsg.plain_join
      (py "imsg") Imsg.ok_run (py "US")
      (Imsg.reply_message (py "+15551234567") (py "hello")) false tt.
Proof.
  destruct (reply_recipient (fun _ : unit => py "30.0") tt Imsg.plain_join
              (py "imsg") Imsg.ok_run (@Imsg.link_history unit) (py "US")
              Imsg.no_thread (py "hello") (Some 42%Z) None tt eq_refl)
    as (_ & H & _).
  apply (H 42%Z [Imsg.link_message; Imsg.sent_message] tt []
           Imsg.link_message [Imsg.sent_message] (py "+15551234567"));
    try done.
  constructor; [by left | done].
Defined.

(** ** More of the scan *)

Section SearchMore.
Context {datetime : Type}.
Context (fromisoformat : str -> option datetime).
Context (pii_filter : str).

Local Abbreviation parse := (Imsg._parse_text_message fromisoformat pii_filter).
Local Abbreviation scan := (Imsg.scan_lines fromisoformat pii_filter).
Local Abbreviation line_match := (Imsg.line_match fromisoformat pii_filter).
Local Abbreviation matches_of := (Imsg.all_matches fromisoformat pii_filter).

(** With a limit of zero or less the scan stops at its first match. *)
Lemma scan_lines_low query_lower thread_id result_limit lines : forall line_idx,
  (result_limit <= 0)%Z ->
  scan query_lower thread_id result_limit lines line_idx []
  = take 1 (omap (line_match query_lower thread_id)
                 (Imsg.number_from line_idx (Imsg.kept_lines lines))).
Proof.
  induction lines as [|line lines IH]; intros line_idx Hlim; [done|].
  cbn [Imsg.scan_lines]. rewrite kept_lines_cons.
  destruct (negb (truthy (Some (strip line)))
            || startswith (strip line) (py "(")); [by apply IH|].
  cbn [Imsg.number_from omap list_omap]. unfold Imsg.line_match at 1.
  cbn [fst snd]. change (list_omap ?f ?l) with (omap f l).
  destruct (contains (lower (strip line)) query_lower); cbn [negb];
    [|by apply IH].
  destruct (parse (strip line) thread_id line_idx) as [msg|]; [|by apply IH].
  destruct (truthy (Imsg.text msg)
            && contains (lower (default [] (Imsg.text msg))) query_lower);
    [|by apply IH].
  cbn [app length].
  destruct (Z.leb_spec result_limit (Z.of_nat 1)) as [_|H]; [done | lia].
Qed.

Lemma scan_all_limits query_lower thread_id result_limit lines :
  scan query_lower thread_id result_limit lines 0 []
  = take (Z.to_nat (Z.max 1 result_limit))
         (matches_of query_lower thread_id lines).
Proof.
  destruct (Z.le_gt_cases result_limit 0) as [Hlow | Hhigh].
  - rewrite scan_lines_low by done.
    by replace (Z.to_nat (Z.max 1 result_limit)) with 1%nat by lia.
  - rewrite scan_lines_from by (simpl; lia). simpl. unfold Imsg.all_matches.
    f_equal. lia.
Qed.

Lemma parse_fields line thread_id line_idx m :
  parse line thread_id line_idx = Some m ->
  Imsg.id m = Some line_idx /\ Imsg.chat_id m = thread_id
  /\ Imsg.guid m = py "search-" ++ Imsg.str_of_Z thread_id ++ py "-"
                   ++ Imsg.str_of_Z line_idx
  /\ Imsg.attachments m = [].
Proof.
  unfold Imsg._parse_text_message.
  destruct (Re.match_ Imsg._TEXT_LINE_PATTERN line); [|done].
  by intros [= <-].
Qed.

Lemma line_match_fields query_lower thread_id e m :
  line_match query_lower thread_id e = Some m ->
  Imsg.id m = Some e.1 /\ Imsg.chat_id m = thread_id
  /\ Imsg.guid m = py "search-" ++ Imsg.str_of_Z thread_id ++ py "-"
                   ++ Imsg.str_of_Z e.1
  /\ Imsg.attachments m = []
  /\ exists t, Imsg.text m = Some t /\ t <> []
               /\ contains (lower t) query_lower = true.
Proof.
  unfold Imsg.line_match.
  destruct (contains (lower e.2) query_lower); [|done].
  destruct (parse e.2 thread_id e.1) as [msg|] eqn:Hp; [|done].
  destruct (truthy (Imsg.text msg)) eqn:Ht; [|done]. cbn [andb].
  destruct (contains (lower (default [] (Imsg.text msg))) query_lower) eqn:Hc;
    [|done].
  intros [= <-]. apply parse_fields in Hp as (H1 & H2 & H3 & H4).
  do 4 (split; [done|]).
  destruct (Imsg.text msg) as [[|c t]|]; try done. by exists (c :: t).
Qed.

Lemma number_from_bounds kept : forall i k l,
  (k, l) ∈ Imsg.number_from i kept ->
  (i <= k < i + Z.of_nat (length kept))%Z.
Proof.
  induction kept as [|x kept IH]; intros i k l; simpl.
  - by intros ?%elem_of_nil.
  - intros [[= -> ->] | H%IH]%elem_of_cons; lia.
Qed.

Lemma matches_ordered query_lower thread_id kept : forall i r1 a r2 b r3,
  omap (line_match query_lower thread_id) (Imsg.number_from i kept)
  = r1 ++ a :: r2 ++ b :: r3 ->
  exists j k, Imsg.id a = Some j /\ Imsg.id b = Some k /\ (i <= j < k)%Z.
Proof.
  induction kept as [|x kept IH]; intros i r1 a r2 b r3.
  - simpl. by destruct r1.
  - cbn [Imsg.number_from omap list_omap].
    change (list_omap ?f ?l) with (omap f l).
    destruct (line_match query_lower thread_id (i, x)) as [m|] eqn:Hm.
    + destruct r1 as [|m' r1]; cbn [app]; intros [= <- Hrest].
      * apply line_match_fields in Hm as (Hid & _). cbn [fst] in Hid.
        assert (b ∈ omap (line_match query_lower thread_id)
                         (Imsg.number_from (i + 1) kept)) as Hb.
        { rewrite Hrest. apply elem_of_app. right. left. }
        apply list_elem_of_omap in Hb as ([k l] & Hin & Hb).
        apply line_match_fields in Hb as (Hidb & _). cbn [fst] in Hidb.
        apply number_from_bounds in Hin. exists i, k.
        split; [done|]. split; [done | lia].
      * destruct (IH _ _ _ _ _ _ Hrest) as (j & k & Hj & Hk & Hlt).
        exists j, k. split; [done|]. split; [done | lia].
    + intros Hrest. destruct (IH _ _ _ _ _ _ Hrest) as (j & k & Hj & Hk & Hlt).
      exists j, k. split; [done|]. split; [done | lia].
Qed.

(** X20: whatever the limit, the scan returns the first matches in the
    order of the lines, as many as the limit says but at least one when
    there is one: a limit of zero or less gives the first match.  Each
    message returned is numbered by its line among the lines looked at,
    belongs to the thread, has the identifier made of the thread and that
    number, no attachment and a text that holds the query; and the numbers
    grow along the result. *)
Theorem scan_numbers_grow query thread_id result_limit lines :
  let results := scan (lower query) thread_id result_limit lines 0 [] in
  results = take (Z.to_nat (Z.max 1 result_limit))
                 (matches_of (lower query) thread_id lines)
  /\ (forall m, m ∈ results ->
        exists i t,
          Imsg.id m = Some i
          /\ (0 <= i < Z.of_nat (length (Imsg.kept_lines lines)))%Z
          /\ Imsg.chat_id m = thread_id
          /\ Imsg.guid m = py "search-" ++ Imsg.str_of_Z thread_id ++ py "-"
                           ++ Imsg.str_of_Z i
          /\ Imsg.attachments m = []
          /\ Imsg.text m = Some t /\ t <> []
          /\ contains (lower t) (lower query) = true)
  /\ (forall r1 a r2 b r3, results = r1 ++ a :: r2 ++ b :: r3 ->
        exists j k, Imsg.id a = Some j /\ Imsg.id b = Some k /\ (j < k)%Z).
Proof.
  intros results. pose proof (scan_all_limits (lower query) thread_id
                                result_limit lines) as E.
  fold results in E. split; [done|]. rewrite E. split.
  - intros m (n & Hm%list_elem_of_lookup_2 & _)%elem_of_take.
    unfold Imsg.all_matches in Hm.
    apply list_elem_of_omap in Hm as ([i l] & Hin & Hm).
    apply line_match_fields in Hm as (H1 & H2 & H3 & H4 & t & H5 & H6 & H7).
    apply number_from_bounds in Hin. exists i, t. cbn [fst] in *.
    repeat (split; [done || lia|]). done.
  - intros r1 a r2 b r3 Hsplit.
    set (n := Z.to_nat (Z.max 1 result_limit)) in *.
    pose proof (take_drop n (matches_of (lower query) thread_id lines)) as Hall.
    rewrite Hsplit in Hall. unfold Imsg.all_matches in Hall.
    repeat rewrite <- app_assoc in Hall. cbn [app] in Hall.
    rewrite <- app_assoc in Hall. cbn [app] in Hall. symmetry in Hall.
    destruct (matches_ordered _ _ _ _ _ _ _ _ _ Hall) as (j & k & Hj & Hk & Hlt).
    exists j, k. split; [done|]. split; [done | lia].
Qed.

End SearchMore.
(** * The send allowlist and the send and reply routes *)

(** ** Splitting *)

Lemma split_on_ne sep s : Imsg.split_on sep s <> [].
Proof.
  destruct s as [|c s]; [done|]. simpl.
  destruct (c =? sep); [done|]. by destruct (Imsg.split_on sep s).
Qed.

Lemma split_on_Forall (P : N -> Prop) sep s :
  Forall P s -> Forall (Forall P) (Imsg.split_on sep s).
Proof.
  induction 1 as [|c s Hc _ IH]; [by repeat constructor|]. simpl.
  destruct (c =? sep); [by constructor|].
  destruct (Imsg.split_on sep s) as [|w ws]; [by repeat constructor|].
  apply Forall_cons in IH as [Hw Hws]. by repeat constructor.
Qed.

Lemma split_on_no_sep sep s :
  Forall (fun piece => sep ∉ piece) (Imsg.split_on sep s).
Proof.
  induction s as [|c s IH]; simpl.
  - constructor; [apply not_elem_of_nil | done].
  - destruct (N.eqb_spec c sep) as [->|Hne].
    + constructor; [apply not_elem_of_nil | done].
    + destruct (Imsg.split_on sep s) as [|w ws].
      * constructor; [|done]. by intros ->%list_elem_of_singleton.
      * apply Forall_cons in IH as [Hw Hws]. constructor; [|done].
        by intros [-> | ?]%elem_of_cons.
Qed.

Lemma split_on_no_sep_id sep s : sep ∉ s -> Imsg.split_on sep s = [s].
Proof.
  induction s as [|c s IH]; [done|]. intros [Hc Hs]%not_elem_of_cons.
  simpl. destruct (N.eqb_spec c sep) as [->|_]; [done|]. by rewrite IH.
Qed.

Lemma split_on_app sep (a b : str) :
  sep ∉ a -> Imsg.split_on sep (a ++ sep :: b) = a :: Imsg.split_on sep b.
Proof.
  induction a as [|c a IH]; simpl.
  - by rewrite N.eqb_refl.
  - intros [Hc Ha]%not_elem_of_cons.
    destruct (N.eqb_spec c sep) as [->|_]; [done|]. by rewrite IH.
Qed.

Lemma split_join (rs : list str) :
  rs <> [] -> Forall (fun r => 44 ∉ r) rs ->
  Imsg.split_on 44 (Config.join_commas rs) = rs.
Proof.
  induction rs as [|r rs IH]; [done|]. intros _ [Hr Hrs]%Forall_cons.
  destruct rs as [|r' rs].
  - simpl. by apply split_on_no_sep_id.
  - change (Config.join_commas (r :: r' :: rs))
      with (r ++ 44 :: Config.join_commas (r' :: rs)).
    rewrite split_on_app by done. f_equal. by apply IH.
Qed.

(** ** Texts of whitespace *)

Lemma lstrip_nil_inv (s : str) :
  lstrip s = [] -> Forall (fun c => isspace c = true) s.
Proof.
  induction s as [|c s IH]; [done|]. simpl.
  destruct (isspace c) eqn:E; [|done]. intros H. constructor; auto.
Qed.

Lemma lstrip_all_space (s : str) :
  Forall (fun c => isspace c = true) s -> lstrip s = [].
Proof. induction 1 as [|c s Hc _ IH]; [done|]. simpl. by rewrite Hc. Qed.

Lemma strip_nil_inv (s : str) :
  strip s = [] -> Forall (fun c => isspace c = true) s.
Proof.
  intros H. apply lstrip_nil_inv. unfold strip in H.
  destruct (lstrip s) as [|c a] eqn:E; [done|].
  assert (isspace c = false) as Hc by (apply (lstrip_head_ok s); by rewrite E).
  pose proof (rstrip_head_keep (c :: a) c eq_refl Hc) as Hh.
  by rewrite H in Hh.
Qed.

Lemma strip_all_space (s : str) :
  Forall (fun c => isspace c = true) s -> strip s = [].
Proof. intros H. unfold strip. by rewrite lstrip_all_space. Qed.

(** ** The allowlist *)

Lemma fold_add_recipient (l : list str) : forall (acc : gset str) (r : str),
  r ∈ fold_left Config.add_recipient l acc
  <-> r ∈ acc \/ (r <> [] /\ exists piece, piece ∈ l /\ strip piece = r).
Proof.
  induction l as [|p l IH]; intros acc r.
  - simpl. split; [by left|]. by intros [? | (_ & ? & ?%elem_of_nil & _)].
  - cbn [fold_left]. rewrite IH. unfold Config.add_recipient.
    destruct (truthy (Some (strip p))) eqn:E.
    + apply truthy_Some_ne in E. rewrite elem_of_union, elem_of_singleton.
      split.
      * intros [[-> | H] | (Hr & piece & Hp & Hs)].
        -- right. split; [done|]. exists p. split; [left | done].
        -- by left.
        -- right. split; [done|]. exists piece. split; [by right | done].
      * intros [H | (Hr & piece & [-> | Hp]%elem_of_cons & Hs)].
        -- left. by right.
        -- left. by left.
        -- right. split; [done|]. by exists piece.
    + assert (strip p = []) as Hp.
      { destruct (strip p); [done | discriminate]. }
      split.
      * intros [H | (Hr & piece & Hpiece & Hs)]; [by left|].
        right. split; [done|]. exists piece. split; [by right | done].
      * intros [H | (Hr & piece & [-> | Hpiece]%elem_of_cons & Hs)].
        -- by left.
        -- congruence.
        -- right. split; [done|]. by exists piece.
Qed.

Lemma allowlist_spec settings r :
  r ∈ Config.get_send_allowlist settings
  <-> r <> []
      /\ exists piece,
           piece ∈ Imsg.split_on 44 (Config.messages_send_allowlist settings)
           /\ strip piece = r.
Proof.
  unfold Config.get_send_allowlist.
  set (raw := Config.messages_send_allowlist settings).
  destruct (truthy (Some (strip raw))) eqn:E; cbn [negb].
  - rewrite fold_add_recipient. split; [by intros [?%elem_of_empty | ?] | by right].
  - assert (strip raw = []) as Hraw
      by (destruct (strip raw); [done | discriminate]).
    split; [by intros ?%elem_of_empty|]. intros (Hr & piece & Hp & Hs).
    exfalso. apply Hr. rewrite <- Hs. apply strip_all_space.
    apply strip_nil_inv in Hraw.
    pose proof (split_on_Forall _ 44 raw Hraw) as H.
    rewrite Forall_forall in H. by apply H.
Qed.

(** X16: a recipient is in the send allowlist exactly when it is not empty
    and is, stripped of surrounding whitespace, one of the pieces of the
    setting between commas; so every recipient of the allowlist is
    non-empty, has no comma and neither leads nor ends with whitespace, and
    it is listed as it is written, in upper and lower case. *)
Theorem allowlist_members settings r :
  (r ∈ Config.get_send_allowlist settings
   <-> r <> []
       /\ exists piece,
            piece ∈ Imsg.split_on 44 (Config.messages_send_allowlist settings)
            /\ strip piece = r)
  /\ (r ∈ Config.get_send_allowlist settings ->
      (44 ∉ r)
      /\ (forall c, head r = Some c -> isspace c = false)
      /\ (forall c, last r = Some c -> isspace c = false)).
Proof.
  split; [apply allowlist_spec|].
  intros (_ & piece & Hp & <-)%allowlist_spec. split.
  - pose proof (split_on_no_sep 44 (Config.messages_send_allowlist settings))
      as H. rewrite Forall_forall in H. specialize (H piece Hp).
    assert (Forall (fun c => c <> 44) (strip piece)) as Hs.
    { apply Forall_strip. apply Forall_forall. by intros c Hc ->. }
    rewrite Forall_forall in Hs. intros Hin. by apply (Hs 44).
  - split; [apply strip_head_ok | apply strip_last_ok].
Qed.

(** X17: a setting that is a list of recipients joined by commas, each of
    them non-empty, without a comma and without whitespace around it, gives
    the allowlist of exactly these recipients. *)
Theorem allowlist_of_join settings (rs : list str) :
  Forall (fun r => r <> [] /\ (44 ∉ r) /\ strip r = r) rs ->
  Config.messages_send_allowlist settings = Config.join_commas rs ->
  Config.get_send_allowlist settings = list_to_set rs.
Proof.
  intros Hrs Hraw. apply set_eq. intros r.
  rewrite allowlist_spec, elem_of_list_to_set, Hraw.
  destruct rs as [|r0 rs'].
  - simpl. split; [|by intros ?%elem_of_nil].
    intros (Hr & piece & ->%list_elem_of_singleton & Hs). done.
  - rewrite split_join; [|done|].
    + rewrite Forall_forall in Hrs. split.
      * intros (Hr & piece & Hp & <-). destruct (Hrs piece Hp) as (_ & _ & ->).
        done.
      * intros Hr. destruct (Hrs r Hr) as (Hne & _ & Hs). split; [done|].
        by exists r.
    + eapply Forall_impl; [exact Hrs|]. by intros x (_ & ? & _).
Qed.

Lemma allowlist_of_join_witness :
  Config.get_send_allowlist
    (Config.with_allowlist (py "+15551234567,bob@example.com"))
  = list_to_set [py "+15551234567"; py "bob@example.com"].
Proof.
  apply allowlist_of_join; [|reflexivity].
  apply List.Forall_cons; [|apply List.Forall_cons; [|apply List.Forall_nil]];
    (split; [done|];
     split; [apply (bool_decide_unpack _); by vm_compute | by vm_compute]).
Defined.

(** ** The routes *)

Section RoutesMore.
Context {datetime float World : Type}.
Context (str_of_float : float -> str).
Context (thirty_seconds : float).
Context (shlex_join : list str -> str).
Context (run : list str -> float -> @Imsg.M World Imsg.proc_outcome).
Context (get_messages :
  Z -> Z -> option datetime -> option datetime -> option (list str) -> bool ->
  @Imsg.M World (list (@Imsg.Message datetime))).
Context (get_thread : Z -> @Imsg.M World (option (@Imsg.Thread datetime))).
Context (check_attachment_paths : list str -> option Router.HTTPException).

Local Abbreviation send_v2 settings :=
  (Imsg.send_message_v2 str_of_float thirty_seconds shlex_join
     (Config.imsg_path settings) run (Config.default_region settings)).
Local Abbreviation route_send :=
  (Router.send_message str_of_float thirty_seconds shlex_join run
     check_attachment_paths).
Local Abbreviation route_reply :=
  (Router.reply_to_thread str_of_float thirty_seconds shlex_join run
     get_messages get_thread).

Lemma send_v2_no_imsg_error settings data dry_run w e w' :
  send_v2 settings data dry_run w <> (Imsg.Raise (Imsg.ImsgErr e), w').
Proof.
  destruct dry_run; [done|]. unfold Imsg.send_message_v2.
  unfold Imsg.catch_imsg_as, Imsg.bind.
  destruct (Imsg._run_imsg_raw _ _ _ _ _ _ w) as [[a|[e0|]] w0]; done.
Qed.

Lemma or_cli_error_send settings data dry_run w :
  Router.or_cli_error (send_v2 settings data dry_run) w
  = match send_v2 settings data dry_run w with
    | (Imsg.Ok a, w') => (Router.Returned a, w')
    | (_, w') => (Router.Passed, w')
    end.
Proof.
  unfold Router.or_cli_error.
  pose proof (send_v2_no_imsg_error settings data dry_run w) as H.
  destruct (send_v2 settings data dry_run w) as [[a|[e|]] w']; [done| |done].
  by destruct (H e w').
Qed.

(** X18: the send route answers with a response only when the send
    capability is on, the attachments pass, the recipient is in the
    allowlist or the allowlist is empty, and the recipient is known to the
    contact cache or unknown recipients are allowed; the response is then
    that of [send_message_v2].  When it raises an [HTTPException], nothing
    was run, and the exception is that of one of these four checks: a
    failure of the binary is never raised as an error of the gateway. *)
Theorem send_route_outcomes settings cache data dry_run w r w' :
  route_send settings cache data dry_run w = (r, w') ->
  (forall a, r = Router.Returned a ->
     Config.messages_send settings = true
     /\ Router._validate_attachment_paths check_attachment_paths
          (Imsg.files data) = None
     /\ (Config.get_send_allowlist settings = ∅
         \/ Imsg.to data ∈ Config.get_send_allowlist settings)
     /\ (Config.allow_unknown_recipients settings = true
         \/ status (resolve (Some (Imsg.to data)) (Some (Imsg.to data))
                            None cache).1 <> not_found)
     /\ send_v2 settings data dry_run w = (Imsg.Ok a, w'))
  /\ (forall e, r = Router.HttpRaised e ->
        w' = w
        /\ (Router._require_capability settings (py "send") = Some e
            \/ Router._validate_attachment_paths check_attachment_paths
                 (Imsg.files data) = Some e
            \/ (e = Router.not_in_allowlist (Imsg.to data)
                /\ Imsg.to data ∉ Config.get_send_allowlist settings)
            \/ (e = Router.unknown_recipient
                /\ status (resolve (Some (Imsg.to data)) (Some (Imsg.to data))
                                   None cache).1 = not_found))).
Proof.
  unfold Router.send_message.
  assert (Router._require_capability settings (py "send") = None
          -> Config.messages_send settings = true) as Hcap.
  { unfold Router._require_capability, Router.capability_enabled.
    rewrite decide_False by done. rewrite decide_False by done.
    rewrite decide_True by done. by destruct (Config.messages_send settings). }
  destruct (Router._require_capability settings (py "send")) as [e1|] eqn:E1.
  { intros [= <- <-]. split; [done|]. intros e [= <-]. split; [done|]. by left. }
  destruct (Router._validate_attachment_paths _ _) as [e2|] eqn:E2.
  { intros [= <- <-]. split; [done|]. intros e [= <-]. split; [done|].
    right. by left. }
  cbv zeta.
  destruct (decide (Config.get_send_allowlist settings = ∅)) as [Hempty|Hne].
  - rewrite (bool_decide_eq_true_2 _ Hempty). cbn [negb andb].
    destruct (Config.allow_unknown_recipients settings) eqn:E3; cbn [negb andb].
    + rewrite or_cli_error_send. intros H. split.
      * intros a ->. destruct (send_v2 settings data dry_run w) as [[a'|?] w0];
          [|done]. injection H as <- <-. auto 10.
      * intros e ->. by destruct (send_v2 settings data dry_run w) as [[a'|?] w0].
    + destruct (status _) eqn:E4; cbn [Router.is_not_found].
      * rewrite or_cli_error_send. intros H. split.
        -- intros a ->.
           destruct (send_v2 settings data dry_run w) as [[a'|?] w0]; [|done].
           injection H as <- <-. split; [auto|]. split; [done|].
           split; [by left|]. split; [by right | done].
        -- intros e ->.
           by destruct (send_v2 settings data dry_run w) as [[a'|?] w0].
      * rewrite or_cli_error_send. intros H. split.
        -- intros a ->.
           destruct (send_v2 settings data dry_run w) as [[a'|?] w0]; [|done].
           injection H as <- <-. split; [auto|]. split; [done|].
           split; [by left|]. split; [by right | done].
        -- intros e ->.
           by destruct (send_v2 settings data dry_run w) as [[a'|?] w0].
      * intros [= <- <-]. split; [done|]. intros e [= <-]. split; [done|].
        right. right. right. done.
  - rewrite (bool_decide_eq_false_2 _ Hne). cbn [negb andb].
    destruct (decide (Imsg.to data ∈ Config.get_send_allowlist settings))
      as [Hin|Hnin].
    + rewrite (bool_decide_eq_true_2 _ Hin). cbn [negb].
      destruct (Config.allow_unknown_recipients settings) eqn:E3;
        cbn [negb andb].
      * rewrite or_cli_error_send. intros H. split.
        -- intros a ->.
           destruct (send_v2 settings data dry_run w) as [[a'|?] w0]; [|done].
           injection H as <- <-. auto 10.
        -- intros e ->.
           by destruct (send_v2 settings data dry_run w) as [[a'|?] w0].
      * destruct (status _) eqn:E4; cbn [Router.is_not_found].
        -- rewrite or_cli_error_send. intros H. split.
           ++ intros a ->.
              destruct (send_v2 settings data dry_run w) as [[a'|?] w0]; [|done].
              injection H as <- <-. split; [auto|]. split; [done|].
              split; [by right|]. split; [by right | done].
           ++ intros e ->.
              by destruct (send_v2 settings data dry_run w) as [[a'|?] w0].
        -- rewrite or_cli_error_send. intros H. split.
           ++ intros a ->.
              destruct (send_v2 settings data dry_run w) as [[a'|?] w0]; [|done].
              injection H as <- <-. split; [auto|]. split; [done|].
              split; [by right|]. split; [by right | done].
           ++ intros e ->.
              by destruct (send_v2 settings data dry_run w) as [[a'|?] w0].
        -- intros [= <- <-]. split; [done|]. intros e [= <-]. split; [done|].
           right. right. right. done.
    + rewrite (bool_decide_eq_false_2 _ Hnin). cbn [negb].
      intros [= <- <-]. split; [done|]. intros e [= <-]. split; [done|].
      right. right. left. done.
Qed.

(** X19: with the send capability on, a reply that names a thread and no
    recipient is not checked against the allowlist: it goes to the sender of
    the last of the ten messages read that is not from me and has a sender,
    whatever the allowlist holds. *)
Theorem reply_by_thread_skips_allowlist settings data w t msgs w1 before m
    after s :
  Config.messages_send settings = true ->
  truthy (Router.recipient data) = false ->
  Router.thread_id data = Some t -> t <> 0%Z ->
  get_messages t 10 None None None false w = (Imsg.Ok msgs, w1) ->
  msgs = before ++ m :: after ->
  Imsg.is_from_me m = false -> Imsg.sender m = Some s -> s <> [] ->
  Forall (fun m' => Imsg.is_from_me m' = true
                    \/ truthy (Imsg.sender m') = false) after ->
  route_reply settings data w
  = Router.or_cli_error
      (send_v2 settings (Imsg.reply_message s (Router.text data)) false) w1.
Proof.
  intros Hcap Hrec Ht Hne Hg Hmsgs Hm Hs Hsne Hafter.
  unfold Router.reply_to_thread.
  assert (Router._require_capability settings (py "send") = None) as ->.
  { unfold Router._require_capability, Router.capability_enabled.
    rewrite decide_False by done. rewrite decide_False by done.
    rewrite decide_True by done. by rewrite Hcap. }
  rewrite Hrec, Ht. cbn [Router.no_thread_id].
  destruct (Z.eqb_spec t 0) as [|_]; [done|]. cbn [andb negb].
  rewrite andb_false_r. cbn [andb].
  unfold Router.or_cli_error.
  by rewrite (reply_to_inbound_sender str_of_float thirty_seconds shlex_join
                (Config.imsg_path settings) run get_messages
                (Config.default_region settings) get_thread
                (Router.text data) (Router.recipient data) w t msgs w1 before
                m after s).
Qed.

End RoutesMore.

Lemma send_route_outcomes_witness :
  let settings := Config.with_allowlist (py "bob@example.com") in
  let data := Imsg.mkMessageSend (py "+15551234567") (Some (py "hi")) []
                                 (py "auto") None in
  Router._require_capability settings (py "send")
  = Some (Router.not_in_allowlist (Imsg.to data))
  \/ Router._validate_attachment_paths (fun _ => None) (Imsg.files data)
     = Some (Router.not_in_allowlist (Imsg.to data))
  \/ (Router.not_in_allowlist (Imsg.to data)
      = Router.not_in_allowlist (Imsg.to data)
      /\ Imsg.to data ∉ Config.get_send_allowlist settings)
  \/ (Router.not_in_allowlist (Imsg.to data) = Router.unknown_recipient
      /\ status (resolve (Some (Imsg.to data)) (Some (Imsg.to data)) None
                         empty_cache).1 = not_found).
Proof.
  intros settings data.
  destruct (send_route_outcomes (fun _ : unit => py "30.0") tt Imsg.plain_join
              Imsg.ok_run (fun _ => None) settings empty_cache data false tt
              (Router.HttpRaised (Router.not_in_allowlist (Imsg.to data))) tt
              ltac:(by vm_compute)) as [_ H].
  by destruct (H _ eq_refl) as [_ H'].
Defined.

Lemma reply_by_thread_skips_allowlist_witness :
  let settings := Config.with_allowlist (py "bob@example.com") in
  let data := Router.mkMessageReply (Some 42%Z) None (py "hello") in
  Router.reply_to_thread (fun _ : unit => py "30.0") tt Imsg.plain_join
    Imsg.ok_run (@Imsg.link_history unit) Imsg.no_thread settings data tt
  = Router.or_cli_error
      (Imsg.send_message_v2 (fun _ : unit => py "30.0") tt Imsg.plain_join
         (py "imsg") Imsg.ok_run (py "US")
         (Imsg.reply_message (py "+15551234567") (py "hello")) false) tt.
Proof.
  intros settings data.
  apply (reply_by_thread_skips_allowlist (fun _ : unit => py "30.0") tt
           Imsg.plain_join Imsg.ok_run (@Imsg.link_history unit) Imsg.no_thread
           settings data tt 42%Z [Imsg.link_message; Imsg.sent_message] tt []
           Imsg.link_message [Imsg.sent_message] (py "+15551234567"));
    try done.
  constructor; [by left | done].
Defined.
(** * Parsing a line of a history *)

(** ** The match the search reports first *)

Section First.
Import Re.

Lemma head_bind_first {A B} (f : A -> list B) (l : list A) x y :
  head l = Some x -> head (f x) = Some y -> head (l ≫= f) = Some y.
Proof.
  destruct l as [|x' l]; [done|]. intros [= ->]. rewrite bind_cons.
  by destruct (f x).
Qed.

Lemma head_app_first {A} (a b : list A) x :
  head a = Some x -> head (a ++ b) = Some x.
Proof. by destruct a. Qed.

Lemma first_cat ic r1 r2 p q1 q2 :
  head (ends ic r1 p) = Some q1 -> head (ends ic r2 q1) = Some q2 ->
  head (ends ic (Cat r1 r2) p) = Some q2.
Proof. cbn [ends]. apply head_bind_first. Qed.

Lemma first_grp w ic i r p q :
  head (ends ic r p) = Some q -> after p = w ++ after q ->
  head (ends ic (Grp i r) p)
  = Some (mkPos (before q) (after q) ((i, w) :: groups q)).
Proof.
  intros H Ha. cbn [ends]. destruct (ends ic r p) as [|q' l]; [done|].
  injection H as ->. rewrite fmap_cons. cbn [head]. do 4 f_equal.
  rewrite Ha, length_app.
  replace (length w + length (after q) - length (after q))%nat
    with (length w) by lia.
  apply take_app_length.
Qed.

Lemma first_lit c prev s g :
  head (ends false (Lit c) (mkPos prev (c :: s) g)) = Some (mkPos (Some c) s g).
Proof. cbn. unfold lit_eq. by rewrite N.eqb_refl. Qed.

Lemma eat_cons test prev c s g :
  test c = true ->
  eat test (mkPos prev (c :: s) g) = [mkPos (Some c) s g].
Proof. intros H. unfold eat. cbn [after groups]. by rewrite H. Qed.

(** A greedy repetition of a test takes first the longest run that passes
    it. *)
Lemma rep_upto_run test run : forall extra prev rest g,
  Forall (fun c => test c = true) run ->
  (length run <= extra)%nat ->
  (length run = extra
   \/ match rest with [] => True | y :: _ => test y = false end) ->
  head (rep_upto (eat test) extra (mkPos prev (run ++ rest) g))
  = Some (mkPos (lastp prev run) rest g).
Proof.
  induction run as [|c run IH]; intros extra prev rest g Hall Hlen Hstop.
  - destruct extra as [|e]; [done|]. destruct Hstop as [?|Hstop]; [done|].
    cbn [rep_upto app]. unfold eat. cbn [after].
    destruct rest as [|y rest]; [done|]. by rewrite Hstop.
  - destruct extra as [|e]; [simpl in Hlen; lia|].
    apply Forall_cons in Hall as [Hc Hall]. cbn [rep_upto].
    change ((c :: run) ++ rest) with (c :: run ++ rest).
    rewrite (eat_cons _ _ _ _ _ Hc), bind_singleton.
    rewrite lastp_cons. apply head_app_first, IH; [done | simpl in Hlen; lia |].
    destruct Hstop as [Hstop|Hstop]; [left; simpl in Hstop; lia | by right].
Qed.

Lemma rep_run test run : forall lo extra prev rest g,
  Forall (fun c => test c = true) run ->
  (lo <= length run <= lo + extra)%nat ->
  (length run = (lo + extra)%nat
   \/ match rest with [] => True | y :: _ => test y = false end) ->
  head (rep (eat test) lo extra (mkPos prev (run ++ rest) g))
  = Some (mkPos (lastp prev run) rest g).
Proof.
  induction run as [|c run IH]; intros lo extra prev rest g Hall Hlen Hstop.
  - destruct lo as [|lo]; [|simpl in Hlen; lia].
    by apply (rep_upto_run test []); [|simpl in *; lia|].
  - destruct lo as [|lo].
    + by apply (rep_upto_run test (c :: run)); [|simpl in *; lia|].
    + apply Forall_cons in Hall as [Hc Hall]. cbn [rep].
      change ((c :: run) ++ rest) with (c :: run ++ rest).
    rewrite (eat_cons _ _ _ _ _ Hc), bind_singleton.
      rewrite lastp_cons. apply IH; [done | simpl in Hlen; lia |].
      destruct Hstop as [Hstop|Hstop]; [left; simpl in Hstop; lia | by right].
Qed.

(** [e{n}] for a set [e], on [n] characters of the set. *)
Lemma first_times n neg l run prev rest g :
  length run = n ->
  Forall (fun c => xorb neg (in_set false l c) = true) run ->
  head (ends false (Rep (Set_ neg l) n (Some n)) (mkPos prev (run ++ rest) g))
  = Some (mkPos (lastp prev run) rest g).
Proof.
  intros Hn Hall. cbn [ends after].
  apply (rep_run (fun c => xorb neg (in_set false l c))); [done | lia |].
  left. lia.
Qed.

(** [e*] and [e+] for a set [e], on a run of the set that a character out
    of the set, or the end of the text, follows. *)
Lemma first_many lo neg l run prev rest g :
  (lo <= length run)%nat ->
  Forall (fun c => xorb neg (in_set false l c) = true) run ->
  match rest with
  | [] => True
  | y :: _ => xorb neg (in_set false l y) = false
  end ->
  head (ends false (Rep (Set_ neg l) lo None) (mkPos prev (run ++ rest) g))
  = Some (mkPos (lastp prev run) rest g).
Proof.
  intros Hlo Hall Hstop. cbn [ends after].
  apply (rep_run (fun c => xorb neg (in_set false l c))); [done| |by right].
  rewrite length_app. lia.
Qed.

(** The dot, starred, on a text without a line feed. *)
Lemma first_dots run prev g :
  Forall (fun c => c <> 10) run ->
  head (ends false (Rep Dot 0 None) (mkPos prev (run ++ []) g))
  = Some (mkPos (lastp prev run) [] g).
Proof.
  intros Hall. cbn [ends after].
  apply (rep_run (fun c => negb (c =? 10))); [| rewrite length_app; lia
                                              | by right].
  eapply Forall_impl; [exact Hall|]. intros c Hc. cbn beta.
  by destruct (N.eqb_spec c 10).
Qed.

Lemma first_direction dir prev rest g :
  dir = py "sent" \/ dir = py "recv" ->
  head (ends false (alt [Str "sent"; Str "recv"]) (mkPos prev (dir ++ rest) g))
  = Some (mkPos (last dir) rest g).
Proof. by intros [-> | ->]. Qed.

End First.

(** ** A line in the format of the history *)

Section ParseLine.
Context {datetime : Type}.
Context (fromisoformat : str -> option datetime).
Context (pii_filter : str).

Local Abbreviation parse := (Imsg._parse_text_message fromisoformat pii_filter).

Lemma length_ne {A} (l : list A) : l <> [] -> (1 <= length l)%nat.
Proof. destruct l; [done | simpl; lia]. Qed.

Lemma Forall_digit_set (s : str) :
  Forall (fun c => isdigit c = true) s ->
  Forall (fun c => xorb false (Re.in_set false [Re.Digit] c) = true) s.
Proof.
  intros H. eapply Forall_impl; [exact H|]. intros c Hc.
  unfold Re.in_set. cbn. by rewrite Hc.
Qed.

Lemma Forall_space_set (s : str) :
  Forall (fun c => isspace c = true) s ->
  Forall (fun c => xorb false (Re.in_set false [Re.Space] c) = true) s.
Proof.
  intros H. eapply Forall_impl; [exact H|]. intros c Hc.
  unfold Re.in_set. cbn. by rewrite Hc.
Qed.

Lemma head_space_stop (s : str) :
  (forall c, head s = Some c -> isspace c = false) ->
  match s with
  | [] => True
  | y :: _ => xorb false (Re.in_set false [Re.Space] y) = false
  end.
Proof.
  intros H. destruct s as [|y s]; [done|]. unfold Re.in_set. cbn.
  by rewrite (H y eq_refl).
Qed.

(** The groups of the match of [_TEXT_LINE_PATTERN] on a line made of a
    date, a direction, a sender and a text. *)
Lemma match_history_line y m d tm ws1 dir ws2 sender ws3 text :
  length y = 4%nat -> Forall (fun c => isdigit c = true) y ->
  length m = 2%nat -> Forall (fun c => isdigit c = true) m ->
  length d = 2%nat -> Forall (fun c => isdigit c = true) d ->
  tm <> [] -> Forall (fun c => isdigit c = true \/ c ∈ py ":.") tm ->
  ws1 <> [] -> Forall (fun c => isspace c = true) ws1 ->
  dir = py "sent" \/ dir = py "recv" ->
  ws2 <> [] -> Forall (fun c => isspace c = true) ws2 ->
  sender <> [] -> (forall c, head sender = Some c -> isspace c = false) ->
  Re.chr ":" ∉ sender ->
  Forall (fun c => isspace c = true) ws3 ->
  (forall c, head text = Some c -> isspace c = false) ->
  10 ∉ text ->
  let date := y ++ py "-" ++ m ++ py "-" ++ d ++ py "T" ++ tm ++ py "Z" in
  Re.match_ Imsg._TEXT_LINE_PATTERN
    (date ++ ws1 ++ py "[" ++ dir ++ py "]" ++ ws2 ++ sender ++ py ":"
          ++ ws3 ++ text)
  = Some [(4%nat, text); (3%nat, sender); (2%nat, dir); (1%nat, date)].
Proof.
  intros Hy1 Hy2 Hm1 Hm2 Hd1 Hd2 Htm1 Htm2 Hw1 Hw1' Hdir Hw2 Hw2' Hs1 Hs2 Hs3
         Hw3 Ht1 Ht2 date.
  set (line := date ++ _).
  assert (line = y ++ 45 :: m ++ 45 :: d ++ 84 :: tm ++ 90 :: ws1 ++ 91 :: dir
                   ++ 93 :: ws2 ++ sender ++ 58 :: ws3 ++ text ++ []) as ->.
  { subst line date. rewrite app_nil_r, <- !app_assoc. reflexivity. }
  assert (date = y ++ 45 :: m ++ 45 :: d ++ 84 :: tm ++ [90]) as Hdate
    by reflexivity.
  clearbody date. subst date.
  cut (exists b,
         head (Re.ends false (Re.expr Imsg._TEXT_LINE_PATTERN)
                 (Re.mkPos None
                    (y ++ 45 :: m ++ 45 :: d ++ 84 :: tm ++ 90 :: ws1 ++ 91
                       :: dir ++ 93 :: ws2 ++ sender ++ 58 :: ws3 ++ text
                       ++ []) []))
         = Some (Re.mkPos b []
                   [(4%nat, text); (3%nat, sender); (2%nat, dir);
                    (1%nat, y ++ 45 :: m ++ 45 :: d ++ 84 :: tm ++ [90])])).
  { intros [b Hb]. unfold Re.match_, Re.match_at.
    change (Re.ignorecase Imsg._TEXT_LINE_PATTERN) with false.
    by rewrite Hb. }
  eexists. unfold Imsg._TEXT_LINE_PATTERN.
  cbn [Re.expr Re.cat]. unfold Re.Times, Re.Plus, Re.Star, Re.In_, Re.NotIn.
  change (Re.chr "-") with 45. change (Re.chr "T") with 84.
  change (Re.chr "Z") with 90. change (Re.chr "[") with 91.
  change (Re.chr "]") with 93. change (Re.chr ":") with 58 in *.
  change (Re.chr ".") with 46.
  eapply first_cat; [reflexivity|].
  eapply first_cat.
  { eapply (first_grp (y ++ 45 :: m ++ 45 :: d ++ 84 :: tm ++ [90])).
    - eapply first_cat; [by apply first_times, Forall_digit_set|].
      eapply first_cat; [apply first_lit|].
      eapply first_cat; [by apply first_times, Forall_digit_set|].
      eapply first_cat; [apply first_lit|].
      eapply first_cat; [by apply first_times, Forall_digit_set|].
      eapply first_cat; [apply first_lit|].
      eapply first_cat; [|apply first_lit].
      apply first_many; [by apply length_ne | | done].
      eapply Forall_impl; [exact Htm2|]. intros c [Hc|Hc].
      + unfold Re.in_set. cbn. by rewrite Hc.
      + unfold Re.in_set. cbn.
        apply elem_of_cons in Hc as [->|Hc]; [done|].
        apply list_elem_of_singleton in Hc as ->. done.
    - cbn [Re.after].
      by repeat (rewrite <- app_assoc || rewrite <- app_comm_cons). }
  cbn [Re.after Re.before Re.groups].
  eapply first_cat;
    [by apply first_many; [by apply length_ne | apply Forall_space_set |]|].
  eapply first_cat; [apply first_lit|].
  eapply first_cat.
  { eapply (first_grp dir); [by apply first_direction | done]. }
  cbn [Re.after Re.before Re.groups].
  eapply first_cat; [apply first_lit|].
  eapply first_cat.
  { apply first_many; [by apply length_ne | by apply Forall_space_set |].
    destruct sender as [|c0 sender']; [done|].
    by apply (head_space_stop (c0 :: sender')). }
  eapply first_cat.
  { eapply (first_grp sender).
    - apply first_many; [by apply length_ne | | done].
      apply Forall_forall. intros c Hc. unfold Re.in_set. cbn.
      destruct (N.eqb_spec c 58) as [->|]; [by destruct Hs3 | done].
    - done. }
  cbn [Re.after Re.before Re.groups].
  eapply first_cat; [apply first_lit|].
  eapply first_cat.
  { apply first_many; [lia | by apply Forall_space_set |].
    rewrite app_nil_r. by apply head_space_stop. }
  eapply first_cat.
  { eapply (first_grp text).
    - apply first_dots. apply Forall_forall. by intros c Hc ->.
    - done. }
  reflexivity.
Qed.

(** X22: a line made of a date [YYYY-MM-DDT<time>Z], white space, the
    direction in brackets, white space, a sender without a colon that does
    not start with white space, a colon, optional white space and a text
    without a line feed that does not start with white space is parsed by
    [_parse_text_message] into the message with the line index as id, the
    sender stripped, the direction read from the brackets, and the text
    cleaned and filtered. *)
Theorem parse_history_line y m d tm ws1 dir ws2 sender ws3 text chat_id
    line_idx :
  length y = 4%nat -> Forall (fun c => isdigit c = true) y ->
  length m = 2%nat -> Forall (fun c => isdigit c = true) m ->
  length d = 2%nat -> Forall (fun c => isdigit c = true) d ->
  tm <> [] -> Forall (fun c => isdigit c = true \/ c ∈ py ":.") tm ->
  ws1 <> [] -> Forall (fun c => isspace c = true) ws1 ->
  dir = py "sent" \/ dir = py "recv" ->
  ws2 <> [] -> Forall (fun c => isspace c = true) ws2 ->
  sender <> [] -> (forall c, head sender = Some c -> isspace c = false) ->
  Re.chr ":" ∉ sender ->
  Forall (fun c => isspace c = true) ws3 ->
  (forall c, head text = Some c -> isspace c = false) ->
  10 ∉ text ->
  let date := y ++ py "-" ++ m ++ py "-" ++ d ++ py "T" ++ tm ++ py "Z" in
  parse (date ++ ws1 ++ py "[" ++ dir ++ py "]" ++ ws2 ++ sender ++ py ":"
              ++ ws3 ++ text) chat_id line_idx
  = Some (Imsg.mkMessage (Some line_idx) chat_id
            (py "search-" ++ Imsg.str_of_Z chat_id ++ py "-"
                ++ Imsg.str_of_Z line_idx)
            None (Some (strip sender)) (bool_decide (dir = py "sent"))
            (Imsg.filter_text pii_filter (Imsg._clean_text text))
            (match fromisoformat
                     (Imsg.replace_char (Re.chr "Z") (py "+00:00") date) with
             | Some t => Imsg.At t
             | None => Imsg.Now
             end)
            [] None).
Proof.
  intros Hy1 Hy2 Hm1 Hm2 Hd1 Hd2 Htm1 Htm2 Hw1 Hw1' Hdir Hw2 Hw2' Hs1 Hs2 Hs3
         Hw3 Ht1 Ht2 date.
  pose proof (match_history_line y m d tm ws1 dir ws2 sender ws3 text
                Hy1 Hy2 Hm1 Hm2 Hd1 Hd2 Htm1 Htm2 Hw1 Hw1' Hdir Hw2 Hw2' Hs1
                Hs2 Hs3 Hw3 Ht1 Ht2) as E.
  cbv zeta in E. subst date. unfold Imsg._parse_text_message. by rewrite E.
Qed.

End ParseLine.

Lemma parse_history_line_witness :
  Imsg._parse_text_message (fun _ : str => @None unit) (py "regex")
    (py "2024-01-15T10:30:00.000Z [recv] +15551234567 : hello there") 42 0
  = Some (Imsg.mkMessage (Some 0%Z) 42%Z (py "search-42-0") None
            (Some (py "+15551234567")) false (Some (py "hello there"))
            Imsg.Now [] None).
Proof.
  etransitivity;
    [apply (parse_history_line (fun _ : str => @None unit) (py "regex")
              (py "2024") (py "01") (py "15") (py "10:30:00.000") (py " ")
              (py "recv") (py " ") (py "+15551234567 ") (py " ")
              (py "hello there") 42 0)
    | vm_compute; reflexivity];
    try done;
    try (apply (bool_decide_unpack _); by vm_compute);
    try (by right);
    by intros c [= <-].
Defined.
